(** * pygrep: a regular-expression compiler and searcher

    A shallow embedding of [pygrep.py].  The program has three parts:

    - the FSM model ([FSMState], [FiniteStateMachine]): a list of states in
      insertion order, looked up by [state_num] and patched in place;
    - [REcompiler]: a recursive-descent parser over the pattern that
      allocates and back-patches states;
    - [REsearcher]: a deque-driven simulation of the compiled machine.

    Python integers are [Z]; the parser position and line offsets only count
    upwards from [0] and are [nat].  Strings are [string], single characters
    [ascii].  Exceptions are explicit: every fallible operation returns an
    [outcome].  The recursive functions and the loops of the source carry a
    fuel argument.  [OutOfFuel] is an artefact of the embedding: the fuel
    [compile] computes is shown to suffice for every pattern, and the
    simulation is shown to return, given enough fuel, on every array triple
    the compiler produces. *)

From Stdlib Require Import ZArith Ascii String Lia.
From stdpp Require Import base list gmap strings sorting pretty.

#[local] Set Warnings "-clear-no-such-hyp".

Local Open Scope string_scope.
Local Open Scope list_scope.
Local Open Scope Z_scope.

(** ** Python values and exceptions *)

Module Py.

(** The exceptions the program can raise.  [SystemExit] carries what was
    written to the error stream before [sys.exit(1)]. *)
Inductive exn : Type :=
| IndexError
| ValueError
| SystemExit (stderr : string).

Inductive outcome (A : Type) : Type :=
| Ok (a : A)
| Raise (e : exn)
| OutOfFuel.
Arguments Ok {A} a.
Arguments Raise {A} e.
Arguments OutOfFuel {A}.

Definition obind {A B} (m : outcome A) (k : A → outcome B) : outcome B :=
  match m with
  | Ok a => k a
  | Raise e => Raise e
  | OutOfFuel => OutOfFuel
  end.

(** [l[i]] for a Python list: negative indices count from the end. *)
Definition index {A} (l : list A) (i : Z) : outcome A :=
  let n := Z.of_nat (length l) in
  let j := if i <? 0 then n + i else i in
  if (0 <=? j) && (j <? n) then
    match l !! Z.to_nat j with
    | Some x => Ok x
    | None => Raise IndexError
    end
  else Raise IndexError.

(** [range(a, b)] *)
Definition range (a b : Z) : list Z := seqZ a (b - a).

Definition NUL : ascii := Ascii.zero.
Definition newline : string := String (Ascii.ascii_of_nat 10) EmptyString.

(** A one-character string. *)
Definition chr (c : ascii) : string := String c EmptyString.

Definition str_of_exn (e : exn) : string :=
  match e with
  | IndexError => "list index out of range"
  | ValueError => "StateType must be 'BR', 'WC', or a single character"
  | SystemExit s => s
  end.

(** [s.rstrip(c)] for a one-character [c]: [s] without its trailing
    occurrences of the character. *)
Fixpoint rstrip (c : ascii) (s : string) : string :=
  match s with
  | EmptyString => EmptyString
  | String x rest =>
      match rstrip c rest with
      | EmptyString =>
          if Ascii.eqb x c then EmptyString else String x EmptyString
      | rest' => String x rest'
      end
  end.

End Py.

Notation "'let*' x ':=' m 'in' k" := (Py.obind m (λ x, k))
  (at level 10, x pattern, k at level 200, only parsing).

(** ** The FSM model *)

Module FSM.
Import Py.

(** [StateType.model_post_init]: the tag is ["BR"], ["WC"] or one
    character. *)
Definition valid_state_type (value : string) : bool :=
  negb (negb (String.eqb value "BR" || String.eqb value "WC")
        && negb (Nat.eqb (String.length value) 1)).

Definition StateType (value : string) : outcome string :=
  if valid_state_type value then Ok value else Raise ValueError.

Record FSMState : Type := mkState {
  state_num : Z;
  state_type : string;
  next1 : Z;
  next2 : Z
}.

(** [FiniteStateMachine.states], in insertion order. *)
Definition FiniteStateMachine : Type := list FSMState.

Definition add_state (states : FiniteStateMachine)
    (num : Z) (ty : string) (n1 n2 : Z) : outcome FiniteStateMachine :=
  let* ty' := StateType ty in
  Ok (states ++ [mkState num ty' n1 n2])%list.

(** The first state carrying the number, as the [for] loop finds it. *)
Fixpoint get_state (states : FiniteStateMachine) (num : Z) : option FSMState :=
  match states with
  | [] => None
  | s :: rest => if state_num s =? num then Some s else get_state rest num
  end.

(** In-place mutation of the object [get_state] returns. *)
Fixpoint mutate (f : FSMState → FSMState) (num : Z)
    (states : FiniteStateMachine) : FiniteStateMachine :=
  match states with
  | [] => []
  | s :: rest =>
      if state_num s =? num then f s :: rest else s :: mutate f num rest
  end.

Definition set_next1 (v : Z) (s : FSMState) : FSMState :=
  mkState (state_num s) (state_type s) v (next2 s).
Definition set_next2 (v : Z) (s : FSMState) : FSMState :=
  mkState (state_num s) (state_type s) (next1 s) v.

Definition update_state (states : FiniteStateMachine) (num : Z)
    (n1 n2 : option Z) : FiniteStateMachine :=
  mutate (λ s,
    let s := match n1 with Some v => set_next1 v s | None => s end in
    match n2 with Some v => set_next2 v s | None => s end) num states.

(** [sorted(states, key=state_num)]: a stable sort.  Insertion from the
    right, each element going before the first one whose key is not
    smaller, is stable. *)
Fixpoint insert_by_num (s : FSMState) (l : list FSMState) : list FSMState :=
  match l with
  | [] => [s]
  | x :: rest =>
      if state_num s <=? state_num x then s :: l
      else x :: insert_by_num s rest
  end.

Fixpoint sorted (l : list FSMState) : list FSMState :=
  match l with
  | [] => []
  | s :: rest => insert_by_num s (sorted rest)
  end.

(** The array triple handed to the searcher. *)
Definition arrays : Type := list string * list Z * list Z.

Definition to_arrays (states : FiniteStateMachine) : arrays :=
  let sorted_states := sorted states in
  (state_type <$> sorted_states, next1 <$> sorted_states,
   next2 <$> sorted_states).

(** [print_fsm]: the lines written to standard output, one per state in
    the order of [to_arrays]. *)
Definition print_fsm (states : FiniteStateMachine) : list string :=
  (λ s, pretty (state_num s) ++ "," ++ state_type s ++ ","
        ++ pretty (next1 s) ++ "," ++ pretty (next2 s))%string
    <$> sorted states.

End FSM.

(** ** The compiler *)

Module REcompiler.
Import Py FSM.

Definition BR : string := "BR".
Definition WC : string := "WC".
Definition END : Z := -1.

(** The fields of a compiler object. *)
Record t : Type := mk {
  chars : list ascii;
  pos : nat;
  state_num : Z;
  fsm : FiniteStateMachine
}.

(** Methods run over the object's state and may raise. *)
Definition M (A : Type) : Type := t → outcome (A * t).

Definition ret {A} (a : A) : M A := λ self, Ok (a, self).
Definition bind {A B} (m : M A) (k : A → M B) : M B :=
  λ self,
    match m self with
    | Ok (a, self') => k a self'
    | Raise e => Raise e
    | OutOfFuel => OutOfFuel
    end.
Definition get : M t := λ self, Ok (self, self).
Definition put_pos (p : nat) : M unit :=
  λ self, Ok (tt, mk (chars self) p (state_num self) (fsm self)).
Definition put_state_num (n : Z) : M unit :=
  λ self, Ok (tt, mk (chars self) (pos self) n (fsm self)).
Definition put_fsm (f : FiniteStateMachine) : M unit :=
  λ self, Ok (tt, mk (chars self) (pos self) (state_num self) f).
Definition lift {A} (o : outcome A) : M A :=
  λ self, match o with
          | Ok a => Ok (a, self)
          | Raise e => Raise e
          | OutOfFuel => OutOfFuel
          end.
Definition out_of_fuel {A} : M A := λ _, OutOfFuel.

Notation "x <- m ;; k" := (bind m (λ x, k))
  (at level 100, m at next level, right associativity, only parsing).
Notation "m ;; k" := (bind m (λ _, k))
  (at level 100, right associativity, only parsing).

Definition raise {A} (e : exn) : M A := λ _, Raise e.
Definition incr_pos : M unit := self <- get ;; put_pos (S (pos self)).
Definition incr_state_num : M unit :=
  self <- get ;; put_state_num (state_num self + 1).

(** [__init__]: the pattern gets a terminator, state 0 is reserved. *)
Definition init (regexp : string) : outcome t :=
  let pattern := (regexp ++ chr NUL)%string in
  let* states := FSM.add_state [] 0 BR 0 0 in
  Ok (mk (list_ascii_of_string pattern) 0 1 states).

(** The lookahead [self.chars[self.pos]] under the guard
    [self.pos < len(self.chars)]: [None] when the guard fails. *)
Definition peek (self : t) : option ascii := chars self !! pos self.

Definition is_vocab (char : ascii) : bool :=
  negb (existsb (Ascii.eqb char) (list_ascii_of_string "()\*+?|"))
  && negb (Ascii.eqb char NUL).

(** [error]: report on the error stream and exit. *)
Definition error {A} (message : string) : M A :=
  self <- get ;;
  let current_char :=
    match peek self with Some c => chr c | None => "EOL" end in
  raise (SystemExit ("Error: " ++ message ++ " - near '" ++ current_char
                     ++ "'" ++ newline)%string).

(** The loop of [set_state] that adds intermediate states. *)
Fixpoint fill (ids : list Z) (states : FiniteStateMachine)
    : outcome FiniteStateMachine :=
  match ids with
  | [] => Ok states
  | i :: ids =>
      let* states := FSM.add_state states i BR 0 0 in
      fill ids states
  end.

Definition set_state (state_id : Z) (char_type : string)
    (next_state1 next_state2 : Z) : M unit :=
  self <- get ;;
  match FSM.get_state (fsm self) state_id with
  | Some _ =>
      ty <- lift (StateType char_type) ;;
      put_fsm (mutate (λ s, mkState (FSM.state_num s) ty
                              next_state1 next_state2)
                 state_id (fsm self))
  | None =>
      states <- lift (FSM.add_state (fsm self) state_id char_type
                        next_state1 next_state2) ;;
      states <- lift (fill (range (Z.of_nat (length states)) state_id)
                        states) ;;
      put_fsm states
  end.

(** The rewrite [expression] applies to the state before an alternative:
<<
    if state and state.next1 == state.next2: state.next2 = target
    if state: state.next1 = target
>> *)
Definition converge (target : Z) (s : FSMState) : FSMState :=
  let s := if next1 s =? next2 s then set_next2 target s else s in
  set_next1 target s.

Definition primary (expression : M Z) : M Z :=
  self <- get ;;
  match peek self with
  | Some c =>
      if Ascii.eqb c "\" then
        incr_pos ;;
        self <- get ;;
        match peek self with
        | Some c =>
            set_state (state_num self) (chr c)
              (state_num self + 1) (state_num self + 1) ;;
            incr_pos ;;
            self <- get ;;
            let result_state := state_num self in
            incr_state_num ;;
            ret result_state
        | None => error "Escape at end of pattern"
        end
      else if is_vocab c then
        (if Ascii.eqb c "." then
           set_state (state_num self) WC
             (state_num self + 1) (state_num self + 1)
         else
           set_state (state_num self) (chr c)
             (state_num self + 1) (state_num self + 1)) ;;
        incr_pos ;;
        self <- get ;;
        let result_state := state_num self in
        incr_state_num ;;
        ret result_state
      else if Ascii.eqb c "(" then
        incr_pos ;;
        result_state <- expression ;;
        self <- get ;;
        match peek self with
        | Some c =>
            if Ascii.eqb c ")" then incr_pos ;; ret result_state
            else error "Missing closing parenthesis"
        | None => error "Missing closing parenthesis"
        end
      else error ("Unexpected character: " ++ chr c)%string
  | None => error "Unexpected end of pattern"
  end.

Definition factor (expression : M Z) : M Z :=
  primary_state <- primary expression ;;
  self <- get ;;
  match peek self with
  | Some c =>
      if Ascii.eqb c "?" then
        put_fsm (mutate (λ s, set_next2 (state_num self + 1)
                                (set_next1 (state_num self + 1) s))
                   primary_state (fsm self)) ;;
        set_state (state_num self) BR primary_state (state_num self + 1) ;;
        incr_pos ;;
        self <- get ;;
        let result_state := state_num self in
        incr_state_num ;;
        ret result_state
      else if Ascii.eqb c "+" then
        set_state (state_num self) BR primary_state (state_num self + 1) ;;
        incr_pos ;;
        incr_state_num ;;
        ret primary_state
      else if Ascii.eqb c "*" then
        set_state (state_num self) BR (state_num self + 1) primary_state ;;
        incr_pos ;;
        self <- get ;;
        let result_state := state_num self in
        incr_state_num ;;
        ret result_state
      else ret primary_state
  | None => ret primary_state
  end.

Definition starts_factor (c : ascii) : bool :=
  is_vocab c || Ascii.eqb c "(" || Ascii.eqb c "\".

(** The [while] loop of [term]. *)
Fixpoint term_loop (factor : M Z) (fuel : nat) : M unit :=
  match fuel with
  | O => out_of_fuel
  | S fuel =>
      self <- get ;;
      match peek self with
      | Some c =>
          if starts_factor c then factor ;; term_loop factor fuel
          else ret tt
      | None => ret tt
      end
  end.

Definition term (expression : M Z) (fuel : nat) : M Z :=
  result_state <- factor expression ;;
  term_loop (factor expression) fuel ;;
  ret result_state.

Fixpoint expression (fuel : nat) : M Z :=
  match fuel with
  | O => out_of_fuel
  | S fuel =>
      self <- get ;;
      let previous_state := state_num self - 1 in
      term1_state <- term (expression fuel) fuel ;;
      self <- get ;;
      match peek self with
      | Some c =>
          if Ascii.eqb c "|" then
            put_fsm (mutate (converge (state_num self)) previous_state
                       (fsm self)) ;;
            let previous_state := state_num self - 1 in
            incr_pos ;;
            let result_state := state_num self in
            incr_state_num ;;
            term2_state <- expression fuel ;;
            set_state result_state BR term1_state term2_state ;;
            self <- get ;;
            put_fsm (mutate (converge (state_num self)) previous_state
                       (fsm self)) ;;
            ret result_state
          else ret term1_state
      | None => ret term1_state
      end
  end.

(** The body of [compile], run on an initialised object. *)
Definition compile_body (fuel : nat) : M arrays :=
  initial_state <- expression fuel ;;
  self <- get ;;
  c <- lift (match peek self with
             | Some c => Ok c
             | None => Raise IndexError
             end) ;;
  (if negb (Ascii.eqb c NUL) then
     error "Not a proper regular expression - unexpected characters at end"
   else ret tt) ;;
  put_fsm (update_state (fsm self) 0
             (Some initial_state) (Some initial_state)) ;;
  self <- get ;;
  states <- lift (FSM.add_state (fsm self) (state_num self) BR END END) ;;
  put_fsm states ;;
  ret (to_arrays states).

(** Every nested call of [expression] comes after a character was read,
    so the length of [chars] bounds the nesting. *)
Definition fuel_of (self : t) : nat := S (length (chars self)).

Definition compile (regexp : string) : outcome arrays :=
  let* self := init regexp in
  match compile_body (fuel_of self) self with
  | Ok (a, _) => Ok a
  | Raise e => Raise e
  | OutOfFuel => OutOfFuel
  end.

End REcompiler.

(** ** The searcher *)

Module REsearcher.
Import Py FSM.

Definition BR : string := "BR".
Definition WC : string := "WC".
Definition END : Z := -1.
Definition SCAN : Z := -1.

(** The fields of a searcher object: the three parallel arrays. *)
Record t : Type := mk {
  state_type : list string;
  next1 : list Z;
  next2 : list Z
}.

Definition len {A} (l : list A) : Z := Z.of_nat (length l).

(** The loop of [_validate_fsm], rebuilding the model state by state. *)
Fixpoint validate_loop (self : t) (ids : list Z)
    (fsm : FiniteStateMachine) : outcome FiniteStateMachine :=
  match ids with
  | [] => Ok fsm
  | i :: ids =>
      let* ty := index (state_type self) i in
      let* n1 := index (next1 self) i in
      let* n2 := index (next2 self) i in
      let* fsm := FSM.add_state fsm i ty n1 n2 in
      validate_loop self ids fsm
  end.

(** Any exception of the loop is reported and the process exits. *)
Definition _validate_fsm (self : t) : outcome unit :=
  match validate_loop self (range 0 (len (state_type self))) [] with
  | Ok _ => Ok tt
  | Raise (SystemExit s) => Raise (SystemExit s)
  | Raise e =>
      Raise (SystemExit ("Invalid FSM structure: " ++ str_of_exn e
                         ++ newline)%string)
  | OutOfFuel => OutOfFuel
  end.

(** [__init__] *)
Definition new (state_type : list string) (next1 next2 : list Z)
    : outcome t :=
  let self := mk state_type next1 next2 in
  let* _ := _validate_fsm self in
  Ok self.

Definition is_end_br_state (self : t) (state : Z) : outcome bool :=
  if (state <? 0) || (len (state_type self) <=? state) then Ok false
  else
    let* ty := index (state_type self) state in
    if String.eqb ty BR then
      let* n1 := index (next1 self) state in
      if n1 =? END then
        let* n2 := index (next2 self) state in
        Ok (n2 =? END)
      else Ok false
    else Ok false.

(** The test [state < len(self.state_type) and
    self.state_type[state] == self.BR]. *)
Definition is_branch (self : t) (state : Z) : outcome bool :=
  if state <? len (state_type self) then
    let* ty := index (state_type self) state in
    Ok (String.eqb ty BR)
  else Ok false.

(** The deque is a list: [popleft] takes the head, [appendleft] conses,
    [append] adds at the end.  The visited set is threaded through the
    recursion, as the shared Python set is. *)
Fixpoint add_state_recursive (fuel : nat) (self : t) (deq : list Z)
    (state : Z) (visited : gset Z) : outcome (list Z * gset Z) :=
  match fuel with
  | O => OutOfFuel
  | S fuel =>
      if (state <? 0) || bool_decide (state ∈ visited) then
        Ok (deq, visited)
      else
        let visited := {[state]} ∪ visited in
        let* e := is_end_br_state self state in
        if e then Ok (state :: deq, visited)
        else
          let* br := is_branch self state in
          if br then
            let* n1 := index (next1 self) state in
            let* (deq, visited) :=
              add_state_recursive fuel self deq n1 visited in
            let* n2 := index (next2 self) state in
            add_state_recursive fuel self deq n2 visited
          else Ok (state :: deq, visited)
  end.

(** A branch state is entered at most once per call, so the recursion is
    never deeper than the number of states plus one. *)
Definition add_state (self : t) (deq : list Z) (state : Z)
    : outcome (list Z) :=
  if state <? 0 then Ok deq
  else
    let* (deq, _) :=
      add_state_recursive (S (length (state_type self))) self deq state ∅ in
    Ok deq.

(** The local variables of [match_from_position]. *)
Record locals : Type := mkLocals {
  deq : list Z;
  pos : nat;
  consumed_input : bool
}.

Inductive control : Type :=
| Continue (st : locals)
| Return (b : bool).

(** One iteration of the [while deq] loop. *)
Definition step (self : t) (line : string) (st : locals)
    : outcome control :=
  match deq st with
  | [] => Ok (Return false)
  | state :: deq =>
      if state =? SCAN then
        match deq with
        | [] => Ok (Return false)
        | _ =>
            if (pos st <? String.length line)%nat then
              Ok (Continue (mkLocals (deq ++ [SCAN]) (S (pos st)) true))
            else Ok (Continue (mkLocals deq (pos st) (consumed_input st)))
        end
      else
        let* e := is_end_br_state self state in
        if e && consumed_input st then Ok (Return true)
        else
          let* br := is_branch self state in
          if br then
            let* n1 := index (next1 self) state in
            let* deq := add_state self deq n1 in
            let* n2 := index (next2 self) state in
            let* deq := add_state self deq n2 in
            Ok (Continue (mkLocals deq (pos st) (consumed_input st)))
          else if (String.length line <=? pos st)%nat then
            Ok (Continue (mkLocals deq (pos st) (consumed_input st)))
          else
            match String.get (pos st) line with
            | None => Raise IndexError
            | Some input_char =>
                if state <? len (state_type self) then
                  let* ty := index (state_type self) state in
                  if String.eqb ty WC then
                    let* n1 := index (next1 self) state in
                    Ok (Continue (mkLocals (deq ++ [n1]) (pos st)
                                    (consumed_input st)))
                  else if Nat.eqb (String.length ty) 1
                          && String.eqb ty (chr input_char) then
                    let* n1 := index (next1 self) state in
                    Ok (Continue (mkLocals (deq ++ [n1]) (pos st)
                                    (consumed_input st)))
                  else
                    Ok (Continue (mkLocals deq (pos st)
                                    (consumed_input st)))
                else
                  Ok (Continue (mkLocals deq (pos st) (consumed_input st)))
            end
  end.

(** The [while] loop; the result comes with the locals at the moment of
    the [return]. *)
Fixpoint run (fuel : nat) (self : t) (line : string) (st : locals)
    : outcome (bool * locals) :=
  match fuel with
  | O => OutOfFuel
  | S fuel =>
      let* c := step self line st in
      match c with
      | Return b => Ok (b, st)
      | Continue st' => run fuel self line st'
      end
  end.

Definition enter (self : t) (start_pos : nat) : outcome locals :=
  let* deq := add_state self [SCAN] 0 in
  Ok (mkLocals deq start_pos false).

Definition match_from_position (fuel : nat) (self : t) (line : string)
    (start_pos : nat) : outcome bool :=
  let* st := enter self start_pos in
  let* (b, _) := run fuel self line st in
  Ok b.

(** The [for pos in range(len(line))] loop. *)
Fixpoint search_from (fuel : nat) (self : t) (line : string)
    (positions : list nat) : outcome bool :=
  match positions with
  | [] => Ok false
  | pos :: positions =>
      let* found := match_from_position fuel self line pos in
      if found then Ok true else search_from fuel self line positions
  end.

Definition search_pattern_in_line (fuel : nat) (self : t) (line : string)
    : outcome bool :=
  search_from fuel self line (seq 0 (String.length line)).

(** The loop of [search_file] over the lines of the file. *)
Fixpoint search_lines (fuel : nat) (self : t) (lines : list string)
    (matching_lines : list string) : outcome (list string) :=
  match lines with
  | [] => Ok matching_lines
  | line :: lines =>
      let line := rstrip "010"%char line in
      let* found := search_pattern_in_line fuel self line in
      search_lines fuel self lines
        (if found then matching_lines ++ [line] else matching_lines)
  end.

(** [search_file].  [file] stands for the file system's answer at
    [filename]: the text of the exception that opening or reading raises,
    or the lines the iteration yields.  An exception inside the [try],
    from the file or from the search, is turned into an exit. *)
Definition search_file (fuel : nat) (self : t) (filename : string)
    (file : string + list string) : outcome (list string) :=
  let report message :=
    Raise (SystemExit ("Error reading file " ++ filename ++ ": "
                       ++ message ++ newline)%string) in
  match file with
  | inl message => report message
  | inr lines =>
      match search_lines fuel self lines [] with
      | Ok matching_lines => Ok matching_lines
      | Raise (SystemExit s) => Raise (SystemExit s)
      | Raise e => report (str_of_exn e)
      | OutOfFuel => OutOfFuel
      end
  end.

End REsearcher.

(** Compile a pattern, build the searcher and search one line. *)
Definition grep (fuel : nat) (regexp line : string) : Py.outcome bool :=
  let* (state_type, next1, next2) := REcompiler.compile regexp in
  let* searcher := REsearcher.new state_type next1 next2 in
  REsearcher.search_pattern_in_line fuel searcher line.

(** [main] without a file argument: compile, then print the compiler's
    states. *)
Definition compile_and_print (regexp : string) : Py.outcome (list string) :=
  let* self := REcompiler.init regexp in
  match REcompiler.compile_body (REcompiler.fuel_of self) self with
  | Py.Ok (_, self') => Py.Ok (FSM.print_fsm (REcompiler.fsm self'))
  | Py.Raise e => Py.Raise e
  | Py.OutOfFuel => Py.OutOfFuel
  end.

(** [main].  [argv] is [sys.argv], [files] the file system; the result is
    the list of lines printed when the program ends normally, and the exit
    with what was written to the error stream otherwise. *)
Definition main (fuel : nat) (argv : list string)
    (files : string → string + list string) : Py.outcome (list string) :=
  match argv with
  | _ :: regexp :: rest =>
      let body :=
        let* self := REcompiler.init regexp in
        match REcompiler.compile_body (REcompiler.fuel_of self) self with
        | Py.Ok ((state_type, next1, next2), self') =>
            match rest with
            | [] => Py.Ok (FSM.print_fsm (REcompiler.fsm self'))
            | filename :: _ =>
                let* searcher := REsearcher.new state_type next1 next2 in
                REsearcher.search_file fuel searcher filename
                  (files filename)
            end
        | Py.Raise e => Py.Raise e
        | Py.OutOfFuel => Py.OutOfFuel
        end in
      match body with
      | Py.Raise (Py.SystemExit s) => Py.Raise (Py.SystemExit s)
      | Py.Raise e =>
          Py.Raise (Py.SystemExit ("Error: " ++ Py.str_of_exn e
                                   ++ Py.newline)%string)
      | r => r
      end
  | _ =>
      Py.Raise (Py.SystemExit ("Usage: python pygrep.py <regexp> [file]"
                               ++ Py.newline)%string)
  end.

(** [f], run with enough fuel, returns [r]. *)
Definition returns {A} (f : nat → Py.outcome A) (r : A) : Prop :=
  ∃ fuel, f fuel = Py.Ok r.

(** What makes [_validate_fsm] fail at index [i]. *)
Definition rejected_at (self : REsearcher.t) (i : Z) : Prop :=
  Py.index (REsearcher.next1 self) i = Py.Raise Py.IndexError
  ∨ Py.index (REsearcher.next2 self) i = Py.Raise Py.IndexError
  ∨ ∃ k, Py.index (REsearcher.state_type self) i = Py.Ok k
         ∧ FSM.valid_state_type k = false.

(** [o1] is [o2] unless the fuel ran out. *)
Definition below {A} (o1 o2 : Py.outcome A) : Prop :=
  o1 = Py.OutOfFuel ∨ o1 = o2.

(** ** Specification vocabulary for the compiler *)

(** What [set_state] does to the list of states. *)
Definition set_state_fsm (state_id : Z) (ty : string) (n1 n2 : Z)
    (states : FSM.FiniteStateMachine) : FSM.FiniteStateMachine :=
  match FSM.get_state states state_id with
  | Some _ =>
      FSM.mutate (λ s, FSM.mkState (FSM.state_num s) ty n1 n2) state_id states
  | None =>
      (states ++ [FSM.mkState state_id ty n1 n2])
      ++ ((λ i, FSM.mkState i "BR" 0 0)
            <$> Py.range (Z.of_nat (S (length states))) state_id)
  end%list.

(** A state other than state 0: its number is allocated and its successors
    are state numbers, never [END]. *)
Definition state_ok (bound : Z) (s : FSM.FSMState) : Prop :=
  1 ≤ FSM.state_num s < bound ∧ 0 ≤ FSM.next1 s ∧ 0 ≤ FSM.next2 s.

(** The list of states while the parser runs: state 0 was added first and
    stays a branch. *)
Definition fsm_ok (bound : Z) (states : FSM.FiniteStateMachine) : Prop :=
  ∃ s0 rest,
    states = s0 :: rest
    ∧ FSM.state_num s0 = 0 ∧ FSM.state_type s0 = "BR"
    ∧ 0 ≤ FSM.next1 s0 ∧ 0 ≤ FSM.next2 s0
    ∧ Forall (state_ok bound) rest.

Definition compiler_inv (self : REcompiler.t) : Prop :=
  1 ≤ REcompiler.state_num self
  ∧ fsm_ok (REcompiler.state_num self) (REcompiler.fsm self).

(** A parsing method keeps the invariant and returns an entry state that
    it allocated. *)
Definition sound (m : REcompiler.M Z) : Prop :=
  ∀ self r self',
    compiler_inv self → m self = Py.Ok (r, self') →
    compiler_inv self'
    ∧ REcompiler.state_num self ≤ r < REcompiler.state_num self'.

(** The compiler object [__init__] builds. *)
Definition initial (regexp : string) : REcompiler.t :=
  REcompiler.mk (list_ascii_of_string (regexp ++ Py.chr Py.NUL)%string)
    0 1 [FSM.mkState 0 "BR" 0 0].

(** Index [i] of the array triple holds an accepting state. *)
Definition accepting (a : FSM.arrays) (i : nat) : Prop :=
  let '(kinds, n1, n2) := a in
  kinds !! i = Some "BR" ∧ n1 !! i = Some (-1) ∧ n2 !! i = Some (-1).

(** The number of pattern characters not yet read. *)
Definition remaining (self : REcompiler.t) : nat :=
  (length (REcompiler.chars self) - REcompiler.pos self)%nat.

(** A parsing method that succeeds has read at least one character of the
    pattern. *)
Definition advancing (m : REcompiler.M Z) : Prop :=
  ∀ self r self',
    m self = Py.Ok (r, self') →
    REcompiler.chars self' = REcompiler.chars self
    ∧ (remaining self' < remaining self)%nat.

(** The fuel of [m] suffices when fewer than [k] characters remain. *)
Definition fuelled (k : nat) (m : REcompiler.M Z) : Prop :=
  ∀ self, (remaining self < k)%nat → m self ≠ Py.OutOfFuel.

(** ** Patterns without quantifier or alternation *)

Definition is_quantifier_or_bar (c : ascii) : bool :=
  existsb (Ascii.eqb c) (list_ascii_of_string "?+*|").

(** No unescaped [?], [+], [*] or [|]: the scan reads the pattern as the
    parser does, a backslash taking the next character with it. *)
Fixpoint plain_from (escaped : bool) (cs : list ascii) : bool :=
  match cs with
  | [] => true
  | c :: rest =>
      if escaped then plain_from false rest
      else if Ascii.eqb c "\" then plain_from true rest
      else negb (is_quantifier_or_bar c) && plain_from false rest
  end.

Definition quantifier_free (regexp : string) : Prop :=
  plain_from false (list_ascii_of_string regexp) = true.

(** The consuming positions of a pattern: every ordinary character,
    wildcard and escaped character; parentheses and the escaping backslash
    consume nothing. *)
Fixpoint consuming_from (escaped : bool) (cs : list ascii) : nat :=
  match cs with
  | [] => 0
  | c :: rest =>
      if escaped then S (consuming_from false rest)
      else if Ascii.eqb c "\" then consuming_from true rest
      else if Ascii.eqb c "(" || Ascii.eqb c ")" then
        consuming_from false rest
      else S (consuming_from false rest)
  end%nat.

Definition consuming_positions (regexp : string) : nat :=
  consuming_from false (list_ascii_of_string regexp).

(** The kind tag of a state that reads a character. *)
Definition consuming_kind (k : string) : Prop :=
  k = "WC" ∨ ∃ c, k = Py.chr c.

(** Consecutive states, each pointing at the next number. *)
Fixpoint chain_states (start : Z) (kinds : list string) : list FSM.FSMState :=
  match kinds with
  | [] => []
  | k :: kinds =>
      FSM.mkState start k (start + 1) (start + 1)
      :: chain_states (start + 1) kinds
  end.

(** The compiler's states while it parses such a pattern. *)
Definition chain_ok (self : REcompiler.t) : Prop :=
  ∃ kinds,
    Forall consuming_kind kinds
    ∧ REcompiler.fsm self = FSM.mkState 0 "BR" 0 0 :: chain_states 1 kinds
    ∧ REcompiler.state_num self = Z.of_nat (length kinds) + 1.

(** The unread part of the pattern. *)
Definition unread (self : REcompiler.t) : list ascii :=
  drop (REcompiler.pos self) (REcompiler.chars self).

(** On a plain rest of pattern, a parsing method extends the chain by one
    state per consuming position it reads and returns the first of them. *)
Definition chaining (m : REcompiler.M Z) : Prop :=
  ∀ self r self',
    chain_ok self → plain_from false (unread self) = true →
    m self = Py.Ok (r, self') →
    chain_ok self'
    ∧ REcompiler.chars self' = REcompiler.chars self
    ∧ plain_from false (unread self') = true
    ∧ r = REcompiler.state_num self
    ∧ REcompiler.state_num self < REcompiler.state_num self'
    ∧ REcompiler.state_num self
      + Z.of_nat (consuming_from false (unread self))
      = REcompiler.state_num self'
        + Z.of_nat (consuming_from false (unread self')).

(** ** Specification vocabulary for the searcher *)

(** Arrays on which the simulation never indexes out of range: the three
    have one length and a consuming state's successor is a state number. *)
Definition well_formed (self : REsearcher.t) : Prop :=
  length (REsearcher.next1 self) = length (REsearcher.state_type self)
  ∧ length (REsearcher.next2 self) = length (REsearcher.state_type self)
  ∧ ∀ (i : nat) k v,
      REsearcher.state_type self !! i = Some k →
      REsearcher.next1 self !! i = Some v →
      k ≠ "BR" → 0 ≤ v.

(** The ids of the states. *)
Definition state_ids (self : REsearcher.t) : gset Z :=
  list_to_set (seqZ 0 (REsearcher.len (REsearcher.state_type self))).

(** A branch state that is not the accepting one: popping it expands its
    successors. *)
Definition expandable (self : REsearcher.t) (x : Z) : bool :=
  match REsearcher.is_end_br_state self x, REsearcher.is_branch self x with
  | Py.Ok false, Py.Ok true => negb (x =? REsearcher.SCAN)
  | _, _ => false
  end.

(** What the closure pushes: an accepting state or a state that is no
    branch. *)
Definition leaf (self : REsearcher.t) (x : Z) : Prop :=
  0 ≤ x ∧ expandable self x = false.

Fixpoint branches (self : REsearcher.t) (deq : list Z) : nat :=
  match deq with
  | [] => 0
  | x :: deq => (if expandable self x then 1 else 0) + branches self deq
  end%nat.

(** The items in front of the first [SCAN] marker. *)
Fixpoint front (deq : list Z) : list Z :=
  match deq with
  | [] => []
  | x :: deq => if x =? REsearcher.SCAN then [] else x :: front deq
  end.

(** The part of the deque the loop works off before the position moves:
    the current generation while input remains, everything after. *)
Definition pending (line : string) (st : REsearcher.locals) : list Z :=
  if (REsearcher.pos st <? String.length line)%nat
  then front (REsearcher.deq st) else REsearcher.deq st.

Definition loop_inv (line : string) (st : REsearcher.locals) : Prop :=
  Forall (λ x, -1 ≤ x) (REsearcher.deq st)
  ∧ ((REsearcher.pos st < String.length line)%nat →
     REsearcher.SCAN ∈ REsearcher.deq st).

(** The loop's variant, compared lexicographically: input left, branch
    states pending, items pending. *)
Definition decreases (self : REsearcher.t) (line : string)
    (st st' : REsearcher.locals) : Prop :=
  let left s := (String.length line - REsearcher.pos s)%nat in
  let br s := branches self (pending line s) in
  let sz s := length (pending line s) in
  (left st' < left st)%nat
  ∨ (left st' = left st
     ∧ ((br st' < br st)%nat ∨ (br st' = br st ∧ (sz st' < sz st)%nat))).

(** ** Numbering, kinds and successor bounds of the compiler's states *)

(** Every kind tag would pass [StateType]'s check. *)
Definition kinds_valid (states : FSM.FiniteStateMachine) : Prop :=
  Forall (λ s, FSM.valid_state_type (FSM.state_type s) = true) states.

(** No successor is above [bound]. *)
Definition nexts_bounded (bound : Z) (states : FSM.FiniteStateMachine) : Prop :=
  Forall (λ s, FSM.next1 s ≤ bound ∧ FSM.next2 s ≤ bound) states.

(** The numbers of the states present, together with the numbers [missing]
    (reserved for an alternation branch and not added yet), are exactly
    [0 .. state_num - 1], each once. *)
Definition numbering (self : REcompiler.t) (missing : list Z) : Prop :=
  (FSM.state_num <$> REcompiler.fsm self) ++ missing
  ≡ₚ seqZ 0 (REcompiler.state_num self).

(** At most one number is missing, or two when the second was reserved
    just now. *)
Definition missing_ok (sn : Z) (missing : list Z) : Prop :=
  (length missing ≤ 1)%nat ∨ ∃ m, missing = [m; sn - 1].

Definition dense_inv (self : REcompiler.t) (missing : list Z) : Prop :=
  kinds_valid (REcompiler.fsm self)
  ∧ nexts_bounded (REcompiler.state_num self) (REcompiler.fsm self)
  ∧ numbering self missing.

(** A parsing method keeps the states valid and bounded, and its first
    allocation fills the number reserved last. *)
Definition dense (m : REcompiler.M Z) : Prop :=
  ∀ self missing r self',
    compiler_inv self → dense_inv self missing →
    missing_ok (REcompiler.state_num self) missing →
    m self = Py.Ok (r, self') →
    dense_inv self' (take 1 missing).

(** The order [sorted] puts states in. *)
Definition num_le (a b : FSM.FSMState) : Prop :=
  FSM.state_num a ≤ FSM.state_num b.

(** One printed line. *)
Definition row (i : Z) (kind : string) (n1 n2 : Z) : string :=
  (pretty i ++ "," ++ kind ++ "," ++ pretty n1 ++ "," ++ pretty n2)%string.

(** ** Specification vocabulary for chains *)

(** The test the loop applies to a consuming state and the input
    character. *)
Definition kind_matches (k : string) (c : ascii) : bool :=
  String.eqb k "WC" || (Nat.eqb (String.length k) 1 && String.eqb k (Py.chr c)).

(** The kinds match the characters of [line] from [pos] on, one each. *)
Fixpoint matches_at (ks : list string) (line : string) (pos : nat) : bool :=
  match ks with
  | [] => true
  | k :: ks =>
      match String.get pos line with
      | Some c => kind_matches k c && matches_at ks line (S pos)
      | None => false
      end
  end.

(** The arrays of a chain of consuming states [1 .. n] between the entry
    branch and the accepting state. *)
Definition chain_arrays (ks : list string) : FSM.arrays :=
  ("BR" :: ks ++ ["BR"],
   1 :: seqZ 2 (Z.of_nat (length ks)) ++ [-1],
   1 :: seqZ 2 (Z.of_nat (length ks)) ++ [-1]).

Definition chain_searcher (ks : list string) : REsearcher.t :=
  REsearcher.mk (chain_arrays ks).1.1 (chain_arrays ks).1.2 (chain_arrays ks).2.

(** The kind the compiler gives an ordinary character. *)
Definition kind_of (c : ascii) : string :=
  if Ascii.eqb c "." then "WC" else Py.chr c.

(** The pattern characters occur in [line] from [pos] on, a dot standing
    for any character. *)
Fixpoint literal_at (cs : list ascii) (line : string) (pos : nat) : bool :=
  match cs with
  | [] => true
  | c :: cs =>
      match String.get pos line with
      | Some x => (Ascii.eqb c "." || Ascii.eqb c x) && literal_at cs line (S pos)
      | None => false
      end
  end.

Definition occurs (regexp line : string) : bool :=
  existsb (literal_at (list_ascii_of_string regexp) line)
    (seq 0 (String.length line)).

(** ** Specification vocabulary for a line inside a longer one *)

(** The locals of the simulation on [line] and those of the simulation on
    [line] with [pre] before it and more text behind: in step while [line]
    has input left; afterwards the longer run holds the same pending
    states, and possibly more behind them. *)
Definition in_context (pre line : string) (st st' : REsearcher.locals)
    : Prop :=
  ∃ extra,
    REsearcher.deq st' = REsearcher.deq st ++ extra
    ∧ (REsearcher.consumed_input st = true →
       REsearcher.consumed_input st' = true)
    ∧ (String.length pre + REsearcher.pos st ≤ REsearcher.pos st')%nat
    ∧ ((REsearcher.pos st < String.length line)%nat →
       REsearcher.pos st' = (String.length pre + REsearcher.pos st)%nat
       ∧ extra = []
       ∧ REsearcher.consumed_input st' = REsearcher.consumed_input st).

(** ** Specification vocabulary for rejected patterns *)

(** The character the parser looks at first: the terminator when the
    pattern is empty. *)
Definition first_char (regexp : string) : ascii :=
  match regexp with
  | EmptyString => Py.NUL
  | String c _ => c
  end.

(** What [error] writes for an unexpected character [c], read at [c]. *)
Definition unexpected (c : ascii) : string :=
  ("Error: Unexpected character: " ++ Py.chr c ++ " - near '" ++ Py.chr c
   ++ "'" ++ Py.newline)%string.

(** ** Specification vocabulary: accepting paths *)

(** Kind and successors of a state, read off the three arrays. *)
Definition state_at (self : REsearcher.t) (q : Z) : option (string * Z * Z) :=
  if q <? 0 then None
  else
    match REsearcher.state_type self !! Z.to_nat q,
          REsearcher.next1 self !! Z.to_nat q,
          REsearcher.next2 self !! Z.to_nat q with
    | Some k, Some a, Some b => Some (k, a, b)
    | _, _, _ => None
    end.

(** [accepts_from self line c q i]: a path through the automaton leads
    from state [q], with [i] characters of [line] behind, to the accepting
    state, and a character is consumed on the way or, when [c] holds, was
    consumed before.  A branch state passes to either successor at the
    same offset, a consuming state to its first successor over a
    character it matches. *)
Inductive accepts_from (self : REsearcher.t) (line : string)
    : bool → Z → nat → Prop :=
| accepts_end q i :
    state_at self q = Some ("BR", -1, -1) →
    accepts_from self line true q i
| accepts_branch c q i a b q' :
    state_at self q = Some ("BR", a, b) → a ≠ -1 ∨ b ≠ -1 →
    q' = a ∨ q' = b →
    accepts_from self line c q' i →
    accepts_from self line c q i
| accepts_char c q i k a b x :
    state_at self q = Some (k, a, b) → k ≠ "BR" →
    String.get i line = Some x → kind_matches k x = true →
    accepts_from self line true a (S i) →
    accepts_from self line c q i.

(** The closure of a state under branching: the accepting or consuming
    states reached through branch states alone. *)
Inductive eps (self : REsearcher.t) : Z → Z → Prop :=
| eps_leaf q : leaf self q → eps self q q
| eps_step q a b q' l :
    0 ≤ q → expandable self q = true →
    Py.index (REsearcher.next1 self) q = Py.Ok a →
    Py.index (REsearcher.next2 self) q = Py.Ok b →
    q' = a ∨ q' = b →
    eps self q' l →
    eps self q l.

(** What a call of [add_state_recursive] leaves behind: every state it
    marked is pushed if it is a leaf, and has its successors marked if it
    is a branch. *)
Definition closed (self : REsearcher.t) (visited visited' : gset Z)
    (pushed : list Z) : Prop :=
  ∀ y, y ∈ visited' → y ∉ visited →
    0 ≤ y
    ∧ (expandable self y = false → y ∈ pushed)
    ∧ (expandable self y = true →
       ∀ a b, Py.index (REsearcher.next1 self) y = Py.Ok a →
              Py.index (REsearcher.next2 self) y = Py.Ok b →
              (0 ≤ a → a ∈ visited') ∧ (0 ≤ b → b ∈ visited')).

(** The deque as two generations around the scan marker: the states still
    to be tried at the current offset and those for the next one. *)
Definition generations (line : string) (st : REsearcher.locals)
    (cur nxt : list Z) : Prop :=
  REsearcher.deq st = cur ++ REsearcher.SCAN :: nxt
  ∧ Forall (λ x, 0 ≤ x) cur
  ∧ Forall (λ x, 0 ≤ x) nxt
  ∧ (nxt ≠ [] → (REsearcher.pos st < String.length line)%nat).

(** Some state of the deque lies on an accepting path. *)
Definition promising (self : REsearcher.t) (line : string)
    (cur nxt : list Z) (p : nat) (c : bool) : Prop :=
  (∃ q, q ∈ cur ∧ accepts_from self line c q p)
  ∨ (∃ q, q ∈ nxt ∧ accepts_from self line true q (S p)).

(** ** Specification vocabulary for failures of the compiler *)

(** The parser's position is inside the terminated pattern, or just past
    the terminator after an escape took the terminator with it. *)
Definition bounded (self : REcompiler.t) : Prop :=
  (∃ body, REcompiler.chars self = body ++ [Py.NUL])
  ∧ ((REcompiler.pos self < length (REcompiler.chars self))%nat
     ∨ (REcompiler.pos self = length (REcompiler.chars self)
        ∧ REcompiler.chars self !! (REcompiler.pos self - 2)%nat
          = Some "\"%char)).

(** A parsing method keeps the position bounded, and what it raises is
    neither [IndexError] nor [ValueError]. *)
Definition guarded {A} (m : REcompiler.M A) : Prop :=
  ∀ self, bounded self →
    match m self with
    | Py.Ok (_, self') => bounded self'
    | Py.Raise e => e ≠ Py.IndexError ∧ e ≠ Py.ValueError
    | Py.OutOfFuel => True
    end.

(** ** Specification vocabulary for the command line *)

(** [out] keeps, in order, the lines that [test] relates to [true] and
    drops those it relates to [false]. *)
Inductive selected (test : string → bool → Prop)
    : list string → list string → Prop :=
| selected_nil : selected test [] []
| selected_keep line lines out :
    test line true → selected test lines out →
    selected test (line :: lines) (line :: out)
| selected_skip line lines out :
    test line false → selected test lines out →
    selected test (line :: lines) out.

(** The search of one line on a searcher, as a relation. *)
Definition found_in (self : REsearcher.t) (line : string) (b : bool)
    : Prop :=
  returns (λ fuel, REsearcher.search_pattern_in_line fuel self line) b.

(** ** Specification vocabulary: what a plain pattern spells *)

(** The kinds of the consuming positions of a pattern, in order: an
    escaped character stands for itself, a dot for any character;
    parentheses and the escaping backslash spell nothing. *)
Fixpoint kinds_from (escaped : bool) (cs : list ascii) : list string :=
  match cs with
  | [] => []
  | c :: rest =>
      if escaped then Py.chr c :: kinds_from false rest
      else if Ascii.eqb c "\" then kinds_from true rest
      else if Ascii.eqb c "(" || Ascii.eqb c ")" then kinds_from false rest
      else kind_of c :: kinds_from false rest
  end.

Definition spelled (regexp : string) : list string :=
  kinds_from false (list_ascii_of_string regexp).

(** On a plain rest of pattern a parsing method appends to the chain the
    kinds of what it reads. *)
Definition spelling (m : REcompiler.M Z) : Prop :=
  ∀ self r self' ks,
    REcompiler.fsm self = FSM.mkState 0 "BR" 0 0 :: chain_states 1 ks →
    REcompiler.state_num self = Z.of_nat (length ks) + 1 →
    plain_from false (unread self) = true →
    m self = Py.Ok (r, self') →
    ∃ ks',
      REcompiler.fsm self'
      = FSM.mkState 0 "BR" 0 0 :: chain_states 1 (ks ++ ks')
      ∧ REcompiler.state_num self' = Z.of_nat (length (ks ++ ks')) + 1
      ∧ REcompiler.chars self' = REcompiler.chars self
      ∧ plain_from false (unread self') = true
      ∧ kinds_from false (unread self)
        = ks' ++ kinds_from false (unread self').

(** ** Specification vocabulary for words *)

(** The character after a word: it ends the term and is no quantifier. *)
Definition stops (r : ascii) : Prop :=
  REcompiler.starts_factor r = false
  ∧ Ascii.eqb r "?" = false ∧ Ascii.eqb r "+" = false
  ∧ Ascii.eqb r "*" = false.

(** * Properties *)

Import Py.

(** ** Outcomes *)

Lemma obind_Ok {A B} (m : outcome A) (k : A → outcome B) b :
  obind m k = Ok b → ∃ a, m = Ok a ∧ k a = Ok b.
Proof. destruct m; simpl; intros; eauto; discriminate. Qed.

Lemma index_no_fuel {A} (l : list A) i : index l i ≠ OutOfFuel.
Proof. unfold index. repeat case_match; discriminate. Qed.

Lemma index_in_range {A} (l : list A) i :
  0 ≤ i < Z.of_nat (length l) → ∃ x, index l i = Ok x ∧ l !! Z.to_nat i = Some x.
Proof.
  intros Hi. unfold index.
  destruct (Z.ltb_spec i 0); [lia|].
  destruct (Z.leb_spec 0 i); [|lia].
  destruct (Z.ltb_spec i (Z.of_nat (length l))); [|lia]. simpl.
  destruct (lookup_lt_is_Some_2 l (Z.to_nat i)) as [x Hx]; [lia|].
  rewrite Hx. eauto.
Qed.

Lemma index_past_end {A} (l : list A) i :
  Z.of_nat (length l) ≤ i → index l i = Raise IndexError.
Proof.
  intros Hi. unfold index.
  destruct (Z.ltb_spec i 0); [lia|].
  destruct (Z.ltb_spec i (Z.of_nat (length l))); [lia|].
  by rewrite andb_false_r.
Qed.

(** ** Validation at the searcher's boundary *)

Section Validation.
Import FSM REsearcher.
Variable self : REsearcher.t.

Lemma validate_loop_no_fuel ids fsm :
  validate_loop self ids fsm ≠ OutOfFuel.
Proof.
  revert fsm. induction ids as [|i ids IH]; intros fsm; simpl; [done|].
  destruct (index (state_type self) i) as [k| |] eqn:Hk; simpl; try done.
  2: by apply index_no_fuel in Hk.
  destruct (index (next1 self) i) eqn:H1; simpl; try done.
  2: by apply index_no_fuel in H1.
  destruct (index (next2 self) i) eqn:H2; simpl; try done.
  2: by apply index_no_fuel in H2.
  unfold FSM.add_state, StateType.
  destruct (valid_state_type k); simpl; [apply IH|done].
Qed.

Lemma validate_loop_rejects ids fsm i :
  i ∈ ids → rejected_at self i → ∃ e, validate_loop self ids fsm = Raise e.
Proof.
  intros Hin Hbad. revert fsm.
  induction ids as [|j ids IH]; intros fsm; [by apply elem_of_nil in Hin|].
  simpl.
  destruct (index (state_type self) j) as [k|e|] eqn:Hk; simpl; eauto.
  2: by apply index_no_fuel in Hk.
  destruct (index (next1 self) j) as [a|e|] eqn:H1; simpl; eauto.
  2: by apply index_no_fuel in H1.
  destruct (index (next2 self) j) as [b|e|] eqn:H2; simpl; eauto.
  2: by apply index_no_fuel in H2.
  unfold FSM.add_state, StateType.
  destruct (valid_state_type k) eqn:Hv; simpl; eauto.
  apply elem_of_cons in Hin as [->|Hin]; [|by apply IH].
  destruct Hbad as [Hbad|[Hbad|(k' & Hk' & Hbad)]]; congruence.
Qed.
End Validation.

Lemma new_rejects kinds n1 n2 i :
  0 ≤ i < Z.of_nat (length kinds) →
  rejected_at (REsearcher.mk kinds n1 n2) i →
  ∃ stderr, REsearcher.new kinds n1 n2 = Raise (SystemExit stderr).
Proof.
  intros Hi Hbad. unfold REsearcher.new, REsearcher._validate_fsm.
  destruct (validate_loop_rejects (REsearcher.mk kinds n1 n2)
              (range 0 (REsearcher.len kinds)) [] i) as [e He]; [|done|].
  { unfold range, REsearcher.len. apply elem_of_seqZ. lia. }
  simpl in *. rewrite He. destruct e; simpl; eauto.
Qed.

Lemma validate_loop_accepts self ids fsm :
  Forall (λ i, 0 ≤ i < Z.of_nat (length (REsearcher.state_type self))
               ∧ i < Z.of_nat (length (REsearcher.next1 self))
               ∧ i < Z.of_nat (length (REsearcher.next2 self))) ids →
  Forall (λ k, FSM.valid_state_type k = true) (REsearcher.state_type self) →
  ∃ fsm', REsearcher.validate_loop self ids fsm = Ok fsm'.
Proof.
  intros Hids Hkinds. revert fsm.
  induction Hids as [|i ids (Hi & H1 & H2) _ IH]; intros fsm; simpl; [eauto|].
  destruct (index_in_range (REsearcher.state_type self) i) as (k & -> & Hk);
    [lia|].
  destruct (index_in_range (REsearcher.next1 self) i) as (a & -> & _); [lia|].
  destruct (index_in_range (REsearcher.next2 self) i) as (b & -> & _); [lia|].
  simpl. unfold FSM.add_state, FSM.StateType.
  eapply Forall_lookup_1 in Hkinds; [|exact Hk]. rewrite Hkinds. simpl.
  apply IH.
Qed.

(** The arrays validation lets through: [next1] and [next2] at least as
    long as the kind array, and every kind tag valid. *)
Lemma new_accepts kinds n1 n2 :
  (length kinds ≤ length n1)%nat → (length kinds ≤ length n2)%nat →
  Forall (λ k, FSM.valid_state_type k = true) kinds →
  REsearcher.new kinds n1 n2 = Ok (REsearcher.mk kinds n1 n2).
Proof.
  intros H1 H2 Hk. unfold REsearcher.new, REsearcher._validate_fsm.
  destruct (validate_loop_accepts (REsearcher.mk kinds n1 n2)
              (range 0 (REsearcher.len kinds)) []) as [fsm' Hv]; [|done|].
  { apply Forall_forall. intros i Hi. unfold range, REsearcher.len in Hi.
    apply elem_of_seqZ in Hi. simpl. lia. }
  simpl in *. by rewrite Hv.
Qed.




(** ** Searching the empty line *)

(** C10: whatever arrays passed validation, the empty line never matches:
    the loop over start offsets has no iteration. *)
Theorem search_empty_line (kinds : list string) (n1 n2 : list Z)
    (searcher : REsearcher.t) (fuel : nat) :
  REsearcher.new kinds n1 n2 = Ok searcher →
  REsearcher.search_pattern_in_line fuel searcher "" = Ok false.
Proof. intros _. reflexivity. Qed.

Lemma search_empty_line_witness :
  REsearcher.search_pattern_in_line 0
    (REsearcher.mk ["BR"; "a"; "BR"] [1; 2; -1] [1; 2; -1]) "" = Ok false.
Proof.
  apply (search_empty_line ["BR"; "a"; "BR"] [1; 2; -1] [1; 2; -1]).
  reflexivity.
Defined.

(** ** More fuel does not change a result *)

Lemma below_refl {A} (o : outcome A) : below o o.
Proof. by right. Qed.

Lemma below_Ok {A} (o : outcome A) a : below (Ok a) o → o = Ok a.
Proof. by intros [|]. Qed.

Lemma below_obind {A B} (m1 m2 : outcome A) (k1 k2 : A → outcome B) :
  below m1 m2 → (∀ a, below (k1 a) (k2 a)) → below (obind m1 k1) (obind m2 k2).
Proof.
  intros [->| ->] Hk; [by left|]. destruct m2; simpl; auto using below_refl.
Qed.

Lemma run_mono fuel fuel' self line st :
  (fuel ≤ fuel')%nat →
  below (REsearcher.run fuel self line st) (REsearcher.run fuel' self line st).
Proof.
  revert fuel' st. induction fuel as [|fuel IH]; intros fuel' st Hle.
  { by left. }
  destruct fuel' as [|fuel']; [lia|]. simpl.
  apply below_obind; [apply below_refl|].
  intros [st'|b]; [apply IH; lia|apply below_refl].
Qed.

Lemma match_from_position_mono fuel fuel' self line start :
  (fuel ≤ fuel')%nat →
  below (REsearcher.match_from_position fuel self line start)
        (REsearcher.match_from_position fuel' self line start).
Proof.
  intros Hle. unfold REsearcher.match_from_position.
  apply below_obind; [apply below_refl|]. intros st.
  apply below_obind; [by apply run_mono|]. intros [b ?]. apply below_refl.
Qed.

Lemma search_from_mono fuel fuel' self line positions :
  (fuel ≤ fuel')%nat →
  below (REsearcher.search_from fuel self line positions)
        (REsearcher.search_from fuel' self line positions).
Proof.
  intros Hle. induction positions as [|p ps IH]; simpl; [apply below_refl|].
  apply below_obind; [by apply match_from_position_mono|].
  intros [|]; [apply below_refl|done].
Qed.

Lemma grep_mono fuel fuel' regexp line :
  (fuel ≤ fuel')%nat → below (grep fuel regexp line) (grep fuel' regexp line).
Proof.
  intros Hle. unfold grep.
  apply below_obind; [apply below_refl|]. intros [[k n1] n2].
  apply below_obind; [apply below_refl|]. intros s.
  by apply search_from_mono.
Qed.

Lemma grep_deterministic regexp line b b' :
  returns (λ fuel, grep fuel regexp line) b →
  returns (λ fuel, grep fuel regexp line) b' → b = b'.
Proof.
  intros [n Hn] [m Hm].
  pose proof (grep_mono n (n `max` m) regexp line ltac:(lia)) as H1.
  pose proof (grep_mono m (n `max` m) regexp line ltac:(lia)) as H2.
  rewrite Hn in H1. rewrite Hm in H2.
  apply below_Ok in H1. apply below_Ok in H2. congruence.
Qed.

(** ** Grouping with a quantifier *)

(** C1 as stated fails: the line ["aba"] is reported as a match. *)
Lemma group_plus_matches_aba :
  ¬ (returns (λ fuel, grep fuel "(ab)+" "ababab") true
     ∧ returns (λ fuel, grep fuel "(ab)+" "aba") false).
Proof.
  intros [_ H].
  assert (returns (λ fuel, grep fuel "(ab)+" "aba") true) as H'
    by by exists 32%nat.
  by pose proof (grep_deterministic _ _ _ _ H H').
Qed.

(** ** Alternation *)

(** C6: ["cat|dog"] matches the lines with a cat and with a dog, and not
    the line with a bird. *)
Theorem alternation_search :
  returns (λ fuel, grep fuel "cat|dog" "I have a cat") true
  ∧ returns (λ fuel, grep fuel "cat|dog" "I have a dog") true
  ∧ returns (λ fuel, grep fuel "cat|dog" "I have a bird") false.
Proof. repeat split; by exists 64%nat. Qed.

(** ** A dangling backslash *)

(** C3: on ["a\"] the escape branch of [primary] reads the terminator as
    the escaped character, so its end-of-pattern error is never reached;
    [compile] then indexes [chars] past its end. *)
Theorem dangling_escape_index_error :
  REcompiler.compile "a\" = Raise IndexError.
Proof. reflexivity. Qed.

(** ** A match needs one consumed character *)

Lemma step_Continue self line st st' :
  REsearcher.step self line st = Ok (REsearcher.Continue st') →
  (REsearcher.pos st' = REsearcher.pos st
   ∧ REsearcher.consumed_input st' = REsearcher.consumed_input st)
  ∨ (REsearcher.pos st' = S (REsearcher.pos st)
     ∧ REsearcher.consumed_input st' = true
     ∧ (REsearcher.pos st < String.length line)%nat).
Proof.
  unfold REsearcher.step, obind. intros H.
  repeat case_match; simplify_eq/=; auto.
  right. repeat split. by apply Nat.ltb_lt.
Qed.

Lemma step_Return_true self line st :
  REsearcher.step self line st = Ok (REsearcher.Return true) →
  REsearcher.consumed_input st = true.
Proof.
  unfold REsearcher.step, obind. intros H.
  repeat case_match; simplify_eq/=; auto.
  by destruct (REsearcher.consumed_input st); [|rewrite andb_false_r in *].
Qed.

Lemma run_true_consumed fuel self line start st st' :
  (start ≤ REsearcher.pos st)%nat →
  (REsearcher.consumed_input st = true →
   (start < REsearcher.pos st ≤ String.length line)%nat) →
  REsearcher.run fuel self line st = Ok (true, st') →
  REsearcher.consumed_input st' = true
  ∧ (start < REsearcher.pos st' ≤ String.length line)%nat.
Proof.
  revert st. induction fuel as [|fuel IH]; intros st Hle Hc Hrun; [done|].
  simpl in Hrun. apply obind_Ok in Hrun as ([st1|b] & Hstep & Hrun).
  - apply step_Continue in Hstep as [[Hp Hci]|(Hp & Hci & Hlt)];
      apply (IH st1); auto; rewrite ?Hp, ?Hci; auto; lia.
  - simplify_eq. apply step_Return_true in Hstep. auto.
Qed.

(** C4: ["a*"], like every pattern, reports no match on the empty line;
    and on any line, from any start offset, the simulation returns [True]
    only with [consumed_input] set, hence after the position moved at least
    one character past the start offset. *)
Theorem match_needs_consumed_input :
  (∀ fuel, grep fuel "a*" "" = Ok false)
  ∧ (∀ regexp fuel b, grep fuel regexp "" = Ok b → b = false)
  ∧ (∀ self line start fuel st0 st,
       REsearcher.enter self start = Ok st0 →
       REsearcher.run fuel self line st0 = Ok (true, st) →
       REsearcher.consumed_input st = true
       ∧ (start < REsearcher.pos st ≤ String.length line)%nat).
Proof.
  split; [|split].
  - intros fuel. reflexivity.
  - intros regexp fuel b. unfold grep.
    destruct (REcompiler.compile regexp) as [[[k n1] n2]| |]; simpl; try done.
    destruct (REsearcher.new k n1 n2); simpl; try done.
    unfold REsearcher.search_pattern_in_line. simpl. congruence.
  - intros self line start fuel st0 st Henter Hrun.
    unfold REsearcher.enter in Henter.
    apply obind_Ok in Henter as (d & _ & Henter). simplify_eq.
    eapply run_true_consumed; [| |exact Hrun]; simpl; [lia|discriminate].
Qed.

Lemma match_needs_consumed_input_witness :
  REsearcher.consumed_input (REsearcher.mkLocals [3; -1]%Z 1%nat true) = true
  ∧ (0 < REsearcher.pos (REsearcher.mkLocals [3; -1]%Z 1%nat true)
     ≤ String.length "a")%nat.
Proof.
  apply (proj2 (proj2 match_needs_consumed_input)
           (REsearcher.mk ["BR"; "a"; "BR"; "BR"] [2; 2; 3; -1] [2; 2; 1; -1])
           "a" 0%nat 10%nat (REsearcher.mkLocals [1; 3; -1] 0%nat false)).
  - vm_compute. reflexivity.
  - vm_compute. reflexivity.
Defined.

(** ** The compiler keeps its list of states well formed *)

Lemma valid_state_type_chr c : FSM.valid_state_type (chr c) = true.
Proof.
  unfold FSM.valid_state_type, chr. simpl. by rewrite andb_false_r.
Qed.

Lemma fill_Ok ids states :
  REcompiler.fill ids states
  = Ok (states ++ ((λ i, FSM.mkState i "BR" 0 0) <$> ids)).
Proof.
  revert states. induction ids as [|i ids IH]; intros states; simpl.
  - by rewrite app_nil_r.
  - rewrite IH. by rewrite <- app_assoc.
Qed.

Lemma set_state_Ok state_id ty n1 n2 self :
  FSM.valid_state_type ty = true →
  REcompiler.set_state state_id ty n1 n2 self
  = Ok (tt, REcompiler.mk (REcompiler.chars self) (REcompiler.pos self)
              (REcompiler.state_num self)
              (set_state_fsm state_id ty n1 n2 (REcompiler.fsm self))).
Proof.
  intros Hv. unfold REcompiler.set_state, set_state_fsm, REcompiler.bind.
  simpl. destruct (FSM.get_state (REcompiler.fsm self) state_id).
  - unfold REcompiler.lift, FSM.StateType. by rewrite Hv.
  - unfold REcompiler.lift, FSM.add_state, FSM.StateType. rewrite Hv. simpl.
    rewrite fill_Ok. simpl. rewrite length_app. simpl.
    by rewrite Nat.add_1_r.
Qed.

Lemma Forall_mutate (P : FSM.FSMState → Prop) f num l :
  Forall P l →
  (∀ s, P s → FSM.state_num s = num → P (f s)) →
  Forall P (FSM.mutate f num l).
Proof.
  intros Hl Hf. induction Hl as [|s l Hs Hl IH]; simpl; [constructor|].
  destruct (Z.eqb_spec (FSM.state_num s) num); constructor; auto.
Qed.

Lemma fsm_ok_mono bound bound' states :
  bound ≤ bound' → fsm_ok bound states → fsm_ok bound' states.
Proof.
  intros Hle (s0 & rest & -> & H0 & Hty & H1 & H2 & Hrest).
  exists s0, rest. repeat split; auto.
  eapply Forall_impl; [exact Hrest|]. unfold state_ok. intros s ?. lia.
Qed.

(** Patching successors keeps the list well formed. *)
Lemma fsm_ok_mutate bound f num states :
  fsm_ok bound states →
  (∀ s, FSM.state_num (f s) = FSM.state_num s
        ∧ FSM.state_type (f s) = FSM.state_type s
        ∧ (0 ≤ FSM.next1 s → 0 ≤ FSM.next2 s →
           0 ≤ FSM.next1 (f s) ∧ 0 ≤ FSM.next2 (f s))) →
  fsm_ok bound (FSM.mutate f num states).
Proof.
  intros (s0 & rest & -> & H0 & Hty & H1 & H2 & Hrest) Hf. simpl.
  destruct (Hf s0) as (Hf0 & Hfty & Hfn). destruct (Hfn H1 H2).
  destruct (Z.eqb_spec (FSM.state_num s0) num).
  - exists (f s0), rest. repeat split; auto; congruence.
  - exists s0, (FSM.mutate f num rest). repeat split; auto.
    apply Forall_mutate; [done|]. intros s (Hn & Hs1 & Hs2) _.
    destruct (Hf s) as (Hfs & _ & Hfsn). destruct (Hfsn Hs1 Hs2).
    unfold state_ok. rewrite Hfs. auto.
Qed.

Lemma fsm_ok_converge bound target num states :
  0 ≤ target → fsm_ok bound states →
  fsm_ok bound (FSM.mutate (REcompiler.converge target) num states).
Proof.
  intros Ht Hok. apply fsm_ok_mutate; [done|]. intros s.
  unfold REcompiler.converge, FSM.set_next1, FSM.set_next2.
  destruct (FSM.next1 s =? FSM.next2 s); simpl; auto.
Qed.

Lemma fsm_ok_set_state bound state_id ty n1 n2 states :
  1 ≤ state_id < bound → 0 ≤ n1 → 0 ≤ n2 →
  fsm_ok bound states →
  fsm_ok bound (set_state_fsm state_id ty n1 n2 states).
Proof.
  intros Hid Hn1 Hn2 (s0 & rest & -> & H0 & Hty & H1 & H2 & Hrest).
  unfold set_state_fsm.
  destruct (FSM.get_state (s0 :: rest) state_id) eqn:Hget.
  - simpl. destruct (Z.eqb_spec (FSM.state_num s0) state_id); [lia|].
    exists s0, (FSM.mutate (λ s, FSM.mkState (FSM.state_num s) ty n1 n2)
                  state_id rest).
    repeat split; auto. apply Forall_mutate; [done|].
    intros s (Hs & _) _. unfold state_ok. simpl. lia.
  - exists s0, ((rest ++ [FSM.mkState state_id ty n1 n2])
                ++ ((λ i, FSM.mkState i "BR" 0 0)
                      <$> range (Z.of_nat (S (length (s0 :: rest)))) state_id)).
    repeat split; auto. apply Forall_app. split.
    + apply Forall_app. split; [done|].
      constructor; [|constructor]. unfold state_ok. simpl. lia.
    + apply Forall_fmap, Forall_forall. intros i Hi.
      unfold range in Hi. apply elem_of_seqZ in Hi.
      unfold state_ok. simpl. lia.
Qed.

(** ** The parsing methods, with the monadic plumbing evaluated *)

Ltac unfold_M :=
  cbv beta delta [REcompiler.bind REcompiler.get REcompiler.ret
    REcompiler.incr_pos REcompiler.incr_state_num REcompiler.put_pos
    REcompiler.put_state_num REcompiler.put_fsm
    REcompiler.raise REcompiler.lift REcompiler.out_of_fuel];
  cbn beta iota zeta;
  cbn [REcompiler.chars REcompiler.pos REcompiler.state_num REcompiler.fsm].

Lemma primary_eq e self :
  REcompiler.primary e self =
  let '(REcompiler.mk chars pos sn fsm) := self in
  match chars !! pos with
  | None => REcompiler.error "Unexpected end of pattern" self
  | Some c =>
      if Ascii.eqb c "\" then
        match chars !! S pos with
        | None =>
            REcompiler.error "Escape at end of pattern"
              (REcompiler.mk chars (S pos) sn fsm)
        | Some c' =>
            Ok (sn, REcompiler.mk chars (S (S pos)) (sn + 1)
                      (set_state_fsm sn (chr c') (sn + 1) (sn + 1) fsm))
        end
      else if REcompiler.is_vocab c then
        Ok (sn, REcompiler.mk chars (S pos) (sn + 1)
                  (set_state_fsm sn
                     (if Ascii.eqb c "." then REcompiler.WC else chr c)
                     (sn + 1) (sn + 1) fsm))
      else if Ascii.eqb c "(" then
        match e (REcompiler.mk chars (S pos) sn fsm) with
        | Ok (r, self1) =>
            match REcompiler.peek self1 with
            | Some c' =>
                if Ascii.eqb c' ")" then
                  Ok (r, REcompiler.mk (REcompiler.chars self1)
                           (S (REcompiler.pos self1))
                           (REcompiler.state_num self1)
                           (REcompiler.fsm self1))
                else REcompiler.error "Missing closing parenthesis" self1
            | None => REcompiler.error "Missing closing parenthesis" self1
            end
        | Raise x => Raise x
        | OutOfFuel => OutOfFuel
        end
      else REcompiler.error ("Unexpected character: " ++ chr c)%string self
  end.
Proof.
  destruct self as [chars pos sn fsm].
  unfold REcompiler.primary, REcompiler.peek. unfold_M.
  destruct (chars !! pos) as [c|]; [|done].
  destruct (Ascii.eqb c "\").
  { unfold_M. destruct (chars !! S pos) as [c'|]; [|done].
    by rewrite set_state_Ok by apply valid_state_type_chr. }
  destruct (REcompiler.is_vocab c).
  { destruct (Ascii.eqb c ".").
    - by rewrite set_state_Ok by done.
    - by rewrite set_state_Ok by apply valid_state_type_chr. }
  destruct (Ascii.eqb c "("); [|done].
  unfold_M. destruct (e _) as [[r self1]| |]; try done.
  destruct (REcompiler.chars self1 !! REcompiler.pos self1) as [c'|];
    [|done].
  by destruct (Ascii.eqb c' ")").
Qed.

Lemma factor_eq e self :
  REcompiler.factor e self =
  match REcompiler.primary e self with
  | Ok (primary_state, REcompiler.mk chars pos sn fsm as self1) =>
      match chars !! pos with
      | None => Ok (primary_state, self1)
      | Some c =>
          if Ascii.eqb c "?" then
            Ok (sn, REcompiler.mk chars (S pos) (sn + 1)
                      (set_state_fsm sn REcompiler.BR primary_state (sn + 1)
                         (FSM.mutate
                            (λ s, FSM.set_next2 (sn + 1)
                                    (FSM.set_next1 (sn + 1) s))
                            primary_state fsm)))
          else if Ascii.eqb c "+" then
            Ok (primary_state,
                REcompiler.mk chars (S pos) (sn + 1)
                  (set_state_fsm sn REcompiler.BR primary_state (sn + 1) fsm))
          else if Ascii.eqb c "*" then
            Ok (sn, REcompiler.mk chars (S pos) (sn + 1)
                      (set_state_fsm sn REcompiler.BR (sn + 1) primary_state
                         fsm))
          else Ok (primary_state, self1)
      end
  | Raise x => Raise x
  | OutOfFuel => OutOfFuel
  end.
Proof.
  unfold REcompiler.factor, REcompiler.peek. unfold_M.
  destruct (REcompiler.primary e self) as [[ps [cs p sn f]]| |]; try done.
  unfold_M. destruct (cs !! p) as [c|]; [|done].
  destruct (Ascii.eqb c "?").
  { unfold_M. by rewrite set_state_Ok by done. }
  destruct (Ascii.eqb c "+").
  { by rewrite set_state_Ok by done. }
  destruct (Ascii.eqb c "*"); [|done].
  by rewrite set_state_Ok by done.
Qed.

Lemma term_loop_eq f fuel self :
  REcompiler.term_loop f (S fuel) self =
  match REcompiler.peek self with
  | Some c =>
      if REcompiler.starts_factor c then
        match f self with
        | Ok (_, self1) => REcompiler.term_loop f fuel self1
        | Raise x => Raise x
        | OutOfFuel => OutOfFuel
        end
      else Ok (tt, self)
  | None => Ok (tt, self)
  end.
Proof.
  simpl. unfold_M. destruct (REcompiler.peek self) as [c|]; [|done].
  by destruct (REcompiler.starts_factor c).
Qed.

Lemma term_eq e fuel self :
  REcompiler.term e fuel self =
  match REcompiler.factor e self with
  | Ok (result_state, self1) =>
      match REcompiler.term_loop (REcompiler.factor e) fuel self1 with
      | Ok (_, self2) => Ok (result_state, self2)
      | Raise x => Raise x
      | OutOfFuel => OutOfFuel
      end
  | Raise x => Raise x
  | OutOfFuel => OutOfFuel
  end.
Proof.
  unfold REcompiler.term. unfold_M.
  by destruct (REcompiler.factor e self) as [[r self1]| |].
Qed.

Lemma expression_eq fuel self :
  REcompiler.expression (S fuel) self =
  match REcompiler.term (REcompiler.expression fuel) fuel self with
  | Ok (term1_state, REcompiler.mk chars pos sn fsm as self1) =>
      match chars !! pos with
      | None => Ok (term1_state, self1)
      | Some c =>
          if Ascii.eqb c "|" then
            match
              REcompiler.expression fuel
                (REcompiler.mk chars (S pos) (sn + 1)
                   (FSM.mutate (REcompiler.converge sn)
                      (REcompiler.state_num self - 1) fsm))
            with
            | Ok (term2_state, REcompiler.mk chars2 pos2 sn2 fsm2) =>
                Ok (sn, REcompiler.mk chars2 pos2 sn2
                          (FSM.mutate (REcompiler.converge sn2) (sn - 1)
                             (set_state_fsm sn REcompiler.BR
                                term1_state term2_state fsm2)))
            | Raise x => Raise x
            | OutOfFuel => OutOfFuel
            end
          else Ok (term1_state, self1)
      end
  | Raise x => Raise x
  | OutOfFuel => OutOfFuel
  end.
Proof.
  simpl. unfold REcompiler.peek. unfold_M.
  destruct (REcompiler.term _ _ _) as [[t1 [cs p sn f]]| |]; try done.
  unfold_M. destruct (cs !! p) as [c|]; [|done].
  destruct (Ascii.eqb c "|"); [|done].
  unfold_M.
  destruct (REcompiler.expression fuel _) as [[t2 [cs2 p2 sn2 f2]]| |];
    try done.
  by rewrite set_state_Ok by done.
Qed.

Lemma error_Raise {A} message self :
  ∃ stderr, @REcompiler.error A message self = Raise (SystemExit stderr).
Proof. unfold REcompiler.error. unfold_M. eauto. Qed.

Lemma error_not_Ok {A} message self (x : A * REcompiler.t) :
  REcompiler.error message self ≠ Ok x.
Proof. destruct (@error_Raise A message self) as [? ->]. done. Qed.

Lemma compiler_inv_intro cs p sn f :
  1 ≤ sn → fsm_ok sn f → compiler_inv (REcompiler.mk cs p sn f).
Proof. by split. Qed.

(** ** Every parsing method keeps the invariant *)

Lemma primary_sound e : sound e → sound (REcompiler.primary e).
Proof.
  intros He [cs p sn f] r self' [Hsn Hok] H. simpl in *.
  rewrite primary_eq in H.
  destruct (cs !! p) as [c|]; [|by apply error_not_Ok in H].
  destruct (Ascii.eqb c "\").
  { destruct (cs !! S p) as [c'|]; [|by apply error_not_Ok in H].
    simplify_eq. simpl. split; [|lia].
    apply compiler_inv_intro; [lia|].
    apply fsm_ok_set_state; [lia..|]. eapply fsm_ok_mono; [|done]. lia. }
  destruct (REcompiler.is_vocab c).
  { simplify_eq. simpl. split; [|lia].
    apply compiler_inv_intro; [lia|].
    apply fsm_ok_set_state; [lia..|]. eapply fsm_ok_mono; [|done]. lia. }
  destruct (Ascii.eqb c "("); [|by apply error_not_Ok in H].
  destruct (e _) as [[r1 self1]| |] eqn:He1; try done.
  apply He in He1 as [[Hsn1 Hok1] Hr1]; [|by split].
  destruct (REcompiler.peek self1) as [c'|]; [|by apply error_not_Ok in H].
  destruct (Ascii.eqb c' ")"); [|by apply error_not_Ok in H].
  simplify_eq. simpl in *. split; [by apply compiler_inv_intro|lia].
Qed.

Lemma factor_sound e : sound e → sound (REcompiler.factor e).
Proof.
  intros He self r self' Hinv H. rewrite factor_eq in H.
  pose proof Hinv as [Hsn0 _].
  destruct (REcompiler.primary e self) as [[ps [cs p sn f]]| |] eqn:Hp;
    try done.
  apply primary_sound in Hp as [[Hsn Hok] Hps]; [|done..]. simpl in *.
  assert (fsm_ok (sn + 1) f) as Hok' by (eapply fsm_ok_mono; [|done]; lia).
  destruct (cs !! p) as [c|]; [|by simplify_eq].
  destruct (Ascii.eqb c "?").
  { simplify_eq. simpl. split; [|lia]. apply compiler_inv_intro; [lia|].
    apply fsm_ok_set_state; [lia..|]. apply fsm_ok_mutate; [done|].
    intros s. simpl. split; [done|]. split; [done|]. lia. }
  destruct (Ascii.eqb c "+").
  { simplify_eq. simpl. split; [|lia]. apply compiler_inv_intro; [lia|].
    apply fsm_ok_set_state; [lia..|done]. }
  destruct (Ascii.eqb c "*").
  { simplify_eq. simpl. split; [|lia]. apply compiler_inv_intro; [lia|].
    apply fsm_ok_set_state; [lia..|done]. }
  by simplify_eq.
Qed.

Lemma term_loop_sound f fuel :
  sound f →
  ∀ self u self',
    compiler_inv self → REcompiler.term_loop f fuel self = Ok (u, self') →
    compiler_inv self'
    ∧ REcompiler.state_num self ≤ REcompiler.state_num self'.
Proof.
  intros Hf. induction fuel as [|fuel IH]; intros self u self' Hinv H;
    [done|].
  rewrite term_loop_eq in H.
  destruct (REcompiler.peek self) as [c|]; [|by simplify_eq].
  destruct (REcompiler.starts_factor c); [|by simplify_eq].
  destruct (f self) as [[r self1]| |] eqn:Hf1; try done.
  apply Hf in Hf1 as [Hinv1 Hr]; [|done].
  apply IH in H as [Hinv' Hle]; [|done]. split; [done|lia].
Qed.

Lemma term_sound e fuel : sound e → sound (REcompiler.term e fuel).
Proof.
  intros He self r self' Hinv H. rewrite term_eq in H.
  destruct (REcompiler.factor e self) as [[r1 self1]| |] eqn:Hf; try done.
  apply factor_sound in Hf as [Hinv1 Hr1]; [|done..].
  destruct (REcompiler.term_loop _ _ _) as [[u self2]| |] eqn:Hl; try done.
  apply term_loop_sound in Hl as [Hinv2 Hle]; [|by apply factor_sound|done].
  simplify_eq. split; [done|lia].
Qed.

Lemma expression_sound fuel : sound (REcompiler.expression fuel).
Proof.
  induction fuel as [|fuel IH]; intros self r self' Hinv H; [done|].
  rewrite expression_eq in H. pose proof Hinv as [Hsn0 _].
  destruct (REcompiler.term _ _ _) as [[t1 [cs p sn f]]| |] eqn:Ht;
    try done.
  apply term_sound in Ht as [[Hsn Hok] Ht1]; [|done..]. simpl in *.
  destruct (cs !! p) as [c|]; [|by simplify_eq].
  destruct (Ascii.eqb c "|"); [|by simplify_eq].
  destruct (REcompiler.expression fuel _)
    as [[t2 [cs2 p2 sn2 f2]]| |] eqn:He; try done.
  apply IH in He as [[Hsn2 Hok2] Ht2]; simpl in *.
  - simplify_eq. simpl. split; [|lia].
    apply compiler_inv_intro; [done|].
    apply fsm_ok_converge; [lia|].
    apply fsm_ok_set_state; [lia..|done].
  - apply compiler_inv_intro; [lia|].
    apply fsm_ok_converge; [lia|]. eapply fsm_ok_mono; [|done]. lia.
Qed.

(** ** Sorting by state number *)

Lemma Forall_insert_by_num (P : FSM.FSMState → Prop) s l :
  P s → Forall P l → Forall P (FSM.insert_by_num s l).
Proof.
  intros Hs Hl. induction Hl as [|x l Hx Hl IH]; simpl.
  - by constructor.
  - destruct (FSM.state_num s <=? FSM.state_num x); by repeat constructor.
Qed.

Lemma Forall_sorted (P : FSM.FSMState → Prop) l :
  Forall P l → Forall P (FSM.sorted l).
Proof.
  induction 1; simpl; [constructor|by apply Forall_insert_by_num].
Qed.

(** A state whose number is not above any other goes first. *)
Lemma sorted_least s l :
  Forall (λ x, FSM.state_num s ≤ FSM.state_num x) l →
  FSM.sorted (s :: l) = s :: FSM.sorted l.
Proof.
  intros Hl. apply Forall_sorted in Hl. simpl.
  destruct Hl as [|x l' Hx _]; simpl; [done|].
  by destruct (Z.leb_spec (FSM.state_num s) (FSM.state_num x)); [|lia].
Qed.

Lemma insert_by_num_snoc s l x :
  FSM.state_num s < FSM.state_num x →
  FSM.insert_by_num s (l ++ [x]) = FSM.insert_by_num s l ++ [x].
Proof.
  intros Hlt. induction l as [|y l IH]; simpl.
  - by destruct (Z.leb_spec (FSM.state_num s) (FSM.state_num x)); [|lia].
  - destruct (FSM.state_num s <=? FSM.state_num y); [done|].
    by rewrite IH.
Qed.

(** A state whose number is above all others goes last. *)
Lemma sorted_greatest l x :
  Forall (λ s, FSM.state_num s < FSM.state_num x) l →
  FSM.sorted (l ++ [x]) = FSM.sorted l ++ [x].
Proof.
  induction 1 as [|s l Hs Hl IH]; simpl; [done|].
  rewrite IH. by apply insert_by_num_snoc.
Qed.

(** ** What a successful [compile] returns *)

Lemma init_Ok regexp : REcompiler.init regexp = Ok (initial regexp).
Proof. reflexivity. Qed.

Lemma compiler_inv_initial regexp : compiler_inv (initial regexp).
Proof.
  split; [simpl; lia|]. exists (FSM.mkState 0 "BR" 0 0), [].
  simpl. repeat split; (done || lia || constructor).
Qed.

Lemma compile_Ok regexp a :
  REcompiler.compile regexp = Ok a →
  ∃ entry cs p sn f,
    REcompiler.expression (REcompiler.fuel_of (initial regexp))
      (initial regexp) = Ok (entry, REcompiler.mk cs p sn f)
    ∧ cs !! p = Some NUL
    ∧ a = FSM.to_arrays
            (FSM.update_state f 0 (Some entry) (Some entry)
             ++ [FSM.mkState sn "BR" (-1) (-1)]).
Proof.
  unfold REcompiler.compile. rewrite init_Ok. cbn [obind].
  generalize (REcompiler.fuel_of (initial regexp)). intros fuel.
  unfold REcompiler.compile_body, REcompiler.peek. unfold_M.
  destruct (REcompiler.expression _ _) as [[e [cs p sn f]]| |]; try done.
  unfold_M. destruct (cs !! p) as [c|] eqn:Hc; [|done]. unfold_M.
  destruct (Ascii.eqb_spec c NUL) as [->|]; simpl.
  - intros [= <-]. by exists e, cs, p, sn, f.
  - done.
Qed.

(** The shape of the arrays: the entry branch, then states whose
    successors are state numbers, then the accepting state. *)
Lemma compile_arrays regexp a :
  REcompiler.compile regexp = Ok a →
  ∃ entry self' l,
    REcompiler.expression (REcompiler.fuel_of (initial regexp))
      (initial regexp) = Ok (entry, self')
    ∧ 1 ≤ entry
    ∧ Forall (λ s, 0 ≤ FSM.next1 s ∧ 0 ≤ FSM.next2 s) l
    ∧ a = (("BR" :: (FSM.state_type <$> l)) ++ ["BR"],
           (entry :: (FSM.next1 <$> l)) ++ [-1],
           (entry :: (FSM.next2 <$> l)) ++ [-1]).
Proof.
  intros (entry & cs & p & sn & f & Hexpr & _ & ->)%compile_Ok.
  pose proof (expression_sound _ _ _ _ (compiler_inv_initial regexp) Hexpr)
    as [[Hsn Hok] Hentry].
  simpl in *. destruct Hok as (s0 & rest & -> & H0 & Hty & _ & _ & Hrest).
  exists entry, (REcompiler.mk cs p sn (s0 :: rest)),
    (FSM.sorted rest).
  split; [done|]. split; [lia|]. split.
  { apply Forall_sorted. eapply Forall_impl; [exact Hrest|].
    unfold state_ok. by intros s (_ & ? & ?). }
  unfold FSM.update_state, FSM.to_arrays. cbn [FSM.mutate].
  rewrite H0. cbn [Z.eqb]. rewrite <- app_comm_cons.
  rewrite sorted_least.
  2:{ simpl. rewrite H0. apply Forall_app. split.
      - eapply Forall_impl; [exact Hrest|]. unfold state_ok. simpl. lia.
      - constructor; [simpl; lia|constructor]. }
  rewrite sorted_greatest.
  2:{ eapply Forall_impl; [exact Hrest|]. unfold state_ok. simpl. lia. }
  rewrite !fmap_cons, !fmap_app. simpl. by rewrite Hty.
Qed.

(** ** The entry state *)

(** C7: in the arrays of a successful compile, state 0 is a branch whose
    two successors are both the entry state that parsing the pattern
    returned. *)
Theorem entry_state_is_branch regexp kinds n1 n2 :
  REcompiler.compile regexp = Ok (kinds, n1, n2) →
  ∃ entry self',
    REcompiler.expression (REcompiler.fuel_of (initial regexp))
      (initial regexp) = Ok (entry, self')
    ∧ kinds !! 0%nat = Some "BR"
    ∧ n1 !! 0%nat = Some entry
    ∧ n2 !! 0%nat = Some entry.
Proof.
  intros (entry & self' & l & Hexpr & _ & _ & [= -> -> ->])%compile_arrays.
  by exists entry, self'.
Qed.

Lemma entry_state_is_branch_witness :
  ∃ entry self',
    REcompiler.expression (REcompiler.fuel_of (initial "cat|dog"))
      (initial "cat|dog") = Ok (entry, self')
    ∧ ["BR"; "c"; "a"; "t"; "BR"; "d"; "o"; "g"; "BR"] !! 0%nat = Some "BR"
    ∧ [4; 2; 3; 8; 1; 6; 7; 8; -1] !! 0%nat = Some entry
    ∧ [4; 2; 3; 8; 5; 6; 7; 8; -1] !! 0%nat = Some entry.
Proof.
  apply (entry_state_is_branch "cat|dog"). reflexivity.
Defined.

(** ** The accepting state *)

(** C8: the arrays of a successful compile hold exactly one accepting
    state, at the last index, which is the highest state number since the
    arrays are ordered by state number. *)
Theorem single_accepting_state regexp kinds n1 n2 :
  REcompiler.compile regexp = Ok (kinds, n1, n2) →
  ∃ last,
    length kinds = S last ∧ length n1 = S last ∧ length n2 = S last
    ∧ accepting (kinds, n1, n2) last
    ∧ ∀ i, accepting (kinds, n1, n2) i → i = last.
Proof.
  intros (entry & self' & l & _ & Hentry & Hl & [= -> -> ->])%compile_arrays.
  exists (S (length l)).
  rewrite !length_cons, !length_app, !length_fmap. simpl.
  split; [lia|]. split; [lia|]. split; [lia|]. split.
  - unfold accepting. simpl.
    rewrite !lookup_app_r by (rewrite length_fmap; lia).
    rewrite !length_fmap, Nat.sub_diag. done.
  - intros i (_ & Hi & _).
    destruct (decide (i = S (length l))) as [|Hne]; [done|exfalso].
    destruct i as [|i]; simpl in Hi; [simplify_eq; lia|].
    destruct (decide (i < length l)%nat) as [Hlt|Hge].
    + rewrite lookup_app_l in Hi by (rewrite length_fmap; lia).
      apply list_lookup_fmap_Some in Hi as (s & Hs & Heq).
      eapply Forall_lookup_1 in Hl; [|exact Heq]. lia.
    + rewrite lookup_app_r in Hi by (rewrite length_fmap; lia).
      rewrite length_fmap in Hi.
      destruct (i - length l)%nat eqn:E; [lia|done].
Qed.

Lemma single_accepting_state_witness :
  ∃ last,
    length ["BR"; "a"; "BR"; "BR"] = S last
    ∧ length [2; 2; 3; -1] = S last ∧ length [2; 2; 1; -1] = S last
    ∧ accepting (["BR"; "a"; "BR"; "BR"], [2; 2; 3; -1], [2; 2; 1; -1]) last
    ∧ ∀ i, accepting (["BR"; "a"; "BR"; "BR"], [2; 2; 3; -1], [2; 2; 1; -1]) i
           → i = last.
Proof.
  apply (single_accepting_state "a*"). reflexivity.
Defined.

(** ** The parser reads forward and its fuel suffices *)

Lemma peek_Some_remaining self c :
  REcompiler.peek self = Some c → (0 < remaining self)%nat.
Proof.
  intros H%lookup_lt_Some. unfold remaining. lia.
Qed.

Ltac lookup_bounds :=
  repeat match goal with
         | H : _ !! _ = Some _ |- _ => apply lookup_lt_Some in H
         | H : REcompiler.peek _ = Some _ |- _ => apply lookup_lt_Some in H
         end;
  unfold remaining in *; simpl in *.

Lemma primary_advancing e : advancing e → advancing (REcompiler.primary e).
Proof.
  intros He [cs p sn f] r self' H. rewrite primary_eq in H.
  destruct (cs !! p) as [c|] eqn:Hc; [|by apply error_not_Ok in H].
  destruct (Ascii.eqb c "\").
  { destruct (cs !! S p) as [c'|] eqn:Hc'; [|by apply error_not_Ok in H].
    simplify_eq. split; [done|]. lookup_bounds. lia. }
  destruct (REcompiler.is_vocab c).
  { simplify_eq. split; [done|]. lookup_bounds. lia. }
  destruct (Ascii.eqb c "("); [|by apply error_not_Ok in H].
  destruct (e _) as [[r1 self1]| |] eqn:He1; try done.
  apply He in He1 as [Hcs Hp].
  destruct (REcompiler.peek self1) as [c'|] eqn:Hc';
    [|by apply error_not_Ok in H].
  destruct (Ascii.eqb c' ")"); [|by apply error_not_Ok in H].
  simplify_eq. lookup_bounds. split; [congruence|lia].
Qed.

Lemma factor_advancing e : advancing e → advancing (REcompiler.factor e).
Proof.
  intros He self r self' H. rewrite factor_eq in H.
  destruct (REcompiler.primary e self) as [[ps [cs p sn f]]| |] eqn:Hp;
    try done.
  apply primary_advancing in Hp as [Hcs Hpos]; [|done].
  destruct (cs !! p) as [c|] eqn:Hc; [|by simplify_eq].
  repeat (case_match;
          [simplify_eq; lookup_bounds; split; [congruence|lia]|]).
  by simplify_eq.
Qed.

Lemma term_loop_advancing f fuel self u self' :
  advancing f →
  REcompiler.term_loop f fuel self = Ok (u, self') →
  REcompiler.chars self' = REcompiler.chars self
  ∧ (remaining self' ≤ remaining self)%nat.
Proof.
  intros Hf. revert self. induction fuel as [|fuel IH]; intros self H;
    [done|].
  rewrite term_loop_eq in H.
  destruct (REcompiler.peek self) as [c|]; [|by simplify_eq].
  destruct (REcompiler.starts_factor c); [|by simplify_eq].
  destruct (f self) as [[r self1]| |] eqn:Hf1; try done.
  apply Hf in Hf1 as [Hcs Hp]. apply IH in H as [Hcs' Hp'].
  split; [congruence|lia].
Qed.

Lemma term_advancing e fuel : advancing e → advancing (REcompiler.term e fuel).
Proof.
  intros He self r self' H. rewrite term_eq in H.
  destruct (REcompiler.factor e self) as [[r1 self1]| |] eqn:Hf; try done.
  apply factor_advancing in Hf as [Hcs Hp]; [|done].
  destruct (REcompiler.term_loop _ _ _) as [[u self2]| |] eqn:Hl; try done.
  apply term_loop_advancing in Hl as [Hcs' Hp']; [|by apply factor_advancing].
  simplify_eq. split; [congruence|lia].
Qed.

Lemma expression_advancing fuel : advancing (REcompiler.expression fuel).
Proof.
  induction fuel as [|fuel IH]; intros self r self' H; [done|].
  rewrite expression_eq in H.
  destruct (REcompiler.term _ _ _) as [[t1 [cs p sn f]]| |] eqn:Ht;
    try done.
  apply term_advancing in Ht as [Hcs Hp]; [|done].
  destruct (cs !! p) as [c|] eqn:Hc; [|by simplify_eq].
  destruct (Ascii.eqb c "|"); [|by simplify_eq].
  destruct (REcompiler.expression fuel _)
    as [[t2 [cs2 p2 sn2 f2]]| |] eqn:He; try done.
  apply IH in He as [Hcs2 Hp2]. simplify_eq. lookup_bounds.
  split; [congruence|lia].
Qed.

Lemma primary_fuelled e k :
  fuelled k e → fuelled (S k) (REcompiler.primary e).
Proof.
  intros He [cs p sn f] Hrem. rewrite primary_eq.
  destruct (cs !! p) as [c|] eqn:Hc;
    [|by destruct (error_Raise (A:=Z) "Unexpected end of pattern"
                     (REcompiler.mk cs p sn f)) as [? ->]].
  apply (peek_Some_remaining (REcompiler.mk cs p sn f)) in Hc.
  destruct (Ascii.eqb c "\").
  { destruct (cs !! S p) as [c'|]; [done|].
    by destruct (error_Raise (A:=Z) "Escape at end of pattern"
                   (REcompiler.mk cs (S p) sn f)) as [? ->]. }
  destruct (REcompiler.is_vocab c); [done|].
  destruct (Ascii.eqb c "(").
  2:{ by destruct (error_Raise (A:=Z) ("Unexpected character: " ++ chr c)
                     (REcompiler.mk cs p sn f)) as [? ->]. }
  destruct (e _) as [[r1 self1]| |] eqn:He1; try done.
  - destruct (error_Raise (A:=Z) "Missing closing parenthesis" self1)
      as [? Herr].
    destruct (REcompiler.peek self1) as [c'|]; [|by rewrite Herr].
    destruct (Ascii.eqb c' ")"); [done|by rewrite Herr].
  - apply He in He1; [done|]. unfold remaining in *. simpl in *. lia.
Qed.

Lemma factor_fuelled e k :
  fuelled k e → fuelled (S k) (REcompiler.factor e).
Proof.
  intros He self Hrem. rewrite factor_eq.
  destruct (REcompiler.primary e self) as [[ps [cs p sn f]]| |] eqn:Hp;
    try done.
  - destruct (cs !! p) as [c|]; [|done]. by repeat case_match.
  - destruct (primary_fuelled e k He self Hrem Hp).
Qed.

Lemma term_loop_fuelled f k fuel self :
  advancing f → fuelled k f →
  (remaining self < fuel)%nat → (remaining self < k)%nat →
  REcompiler.term_loop f fuel self ≠ OutOfFuel.
Proof.
  intros Hadv Hf. revert self.
  induction fuel as [|fuel IH]; intros self Hfuel Hk; [lia|].
  rewrite term_loop_eq.
  destruct (REcompiler.peek self) as [c|] eqn:Hc; [|done].
  apply peek_Some_remaining in Hc.
  destruct (REcompiler.starts_factor c); [|done].
  destruct (f self) as [[r self1]| |] eqn:Hf1; try done.
  - apply Hadv in Hf1 as [Hcs Hp]. apply IH; lia.
  - by apply Hf in Hf1.
Qed.

Lemma term_fuelled e fuel :
  advancing e → fuelled fuel e → fuelled (S fuel) (REcompiler.term e fuel).
Proof.
  intros Hadv He self Hrem. rewrite term_eq.
  destruct (REcompiler.factor e self) as [[r1 self1]| |] eqn:Hf; try done.
  - apply factor_advancing in Hf as [Hcs Hp]; [|done].
    destruct (REcompiler.term_loop _ _ _) as [[u self2]| |] eqn:Hl;
      try done.
    apply (term_loop_fuelled _ (S fuel)) in Hl; try done.
    + by apply factor_advancing.
    + by apply factor_fuelled.
    + lia.
    + lia.
  - destruct (factor_fuelled e fuel He self Hrem Hf).
Qed.

Lemma expression_fuelled fuel : fuelled fuel (REcompiler.expression fuel).
Proof.
  induction fuel as [|fuel IH]; intros self Hrem; [lia|].
  rewrite expression_eq.
  destruct (REcompiler.term _ _ _) as [[t1 [cs p sn f]]| |] eqn:Ht;
    try done.
  - apply term_advancing in Ht as [Hcs Hp];
      [|apply expression_advancing].
    destruct (cs !! p) as [c|] eqn:Hc; [|done].
    destruct (Ascii.eqb c "|"); [|done].
    destruct (REcompiler.expression fuel _)
      as [[t2 [cs2 p2 sn2 f2]]| |] eqn:He; try done.
    apply IH in He; [done|]. lookup_bounds. lia.
  - destruct (term_fuelled _ fuel (expression_advancing fuel) IH self Hrem
                Ht).
Qed.

(** The fuel [compile] gives its parser is never exhausted: whatever the
    model returns is what the program returns. *)
Lemma compile_fuelled regexp : REcompiler.compile regexp ≠ OutOfFuel.
Proof.
  unfold REcompiler.compile. rewrite init_Ok. cbn [obind].
  pose proof (expression_fuelled (REcompiler.fuel_of (initial regexp))
                (initial regexp)) as Hf.
  revert Hf. generalize (REcompiler.fuel_of (initial regexp)) at 2 3.
  intros fuel Hf.
  unfold REcompiler.compile_body, REcompiler.peek. unfold_M.
  destruct (REcompiler.expression _ _) as [[e [cs p sn f]]| |].
  - unfold_M. destruct (cs !! p) as [c|]; [|done]. unfold_M.
    by destruct (Ascii.eqb c NUL).
  - done.
  - exfalso. apply Hf; [|done]. unfold remaining, REcompiler.fuel_of. lia.
Qed.

(** ** Patterns without quantifier or alternation compile to a chain *)

Lemma chain_states_snoc start kinds k :
  chain_states start (kinds ++ [k])
  = chain_states start kinds
    ++ [FSM.mkState (start + Z.of_nat (length kinds)) k
          (start + Z.of_nat (length kinds) + 1)
          (start + Z.of_nat (length kinds) + 1)].
Proof.
  revert start. induction kinds as [|k' kinds IH]; intros start; simpl.
  - by rewrite Z.add_0_r.
  - rewrite IH.
    by replace (start + 1 + Z.of_nat (length kinds))
      with (start + Z.of_nat (S (length kinds))) by lia.
Qed.

Lemma length_chain_states start kinds :
  length (chain_states start kinds) = length kinds.
Proof.
  revert start. induction kinds; intros; simpl; auto.
Qed.

Lemma chain_states_nums start kinds :
  Forall (λ s, start ≤ FSM.state_num s < start + Z.of_nat (length kinds))
    (chain_states start kinds).
Proof.
  revert start. induction kinds as [|k kinds IH]; intros start; simpl;
    constructor.
  - simpl. lia.
  - eapply Forall_impl; [apply IH|]. simpl. intros. lia.
Qed.

Lemma get_state_None states num :
  Forall (λ s, FSM.state_num s ≠ num) states →
  FSM.get_state states num = None.
Proof.
  induction 1 as [|s l Hs _ IH]; simpl; [done|].
  by destruct (Z.eqb_spec (FSM.state_num s) num).
Qed.

(** Allocating the next state of a chain appends it. *)
Lemma set_state_fsm_chain kinds k :
  set_state_fsm (Z.of_nat (length kinds) + 1) k
    (Z.of_nat (length kinds) + 1 + 1) (Z.of_nat (length kinds) + 1 + 1)
    (FSM.mkState 0 "BR" 0 0 :: chain_states 1 kinds)
  = FSM.mkState 0 "BR" 0 0 :: chain_states 1 (kinds ++ [k]).
Proof.
  unfold set_state_fsm. rewrite get_state_None.
  2:{ constructor; [simpl; lia|].
      eapply Forall_impl; [apply chain_states_nums|]. simpl. intros. lia. }
  unfold range. rewrite seqZ_nil.
  2:{ simpl. rewrite length_chain_states. lia. }
  rewrite app_nil_r, chain_states_snoc. simpl.
  by rewrite (Z.add_comm 1 (Z.of_nat (length kinds))).
Qed.

Lemma chain_ok_extend cs p' kinds k :
  Forall consuming_kind kinds → consuming_kind k →
  chain_ok
    (REcompiler.mk cs p' (Z.of_nat (length kinds) + 1 + 1)
       (set_state_fsm (Z.of_nat (length kinds) + 1) k
          (Z.of_nat (length kinds) + 1 + 1)
          (Z.of_nat (length kinds) + 1 + 1)
          (FSM.mkState 0 "BR" 0 0 :: chain_states 1 kinds))).
Proof.
  intros Hk Hk'. exists (kinds ++ [k]). simpl.
  split; [by apply Forall_app; split; [|constructor]|].
  split; [apply set_state_fsm_chain|].
  rewrite length_app. simpl. lia.
Qed.

Lemma plain_not_quantifier c rest :
  plain_from false (c :: rest) = true → is_quantifier_or_bar c = false.
Proof.
  simpl. destruct (Ascii.eqb_spec c "\") as [->|]; [done|].
  intros H. apply andb_true_iff in H as [H _]. by apply negb_true_iff in H.
Qed.

Lemma not_quantifier_eqb c :
  is_quantifier_or_bar c = false →
  Ascii.eqb c "?" = false ∧ Ascii.eqb c "+" = false
  ∧ Ascii.eqb c "*" = false ∧ Ascii.eqb c "|" = false.
Proof.
  unfold is_quantifier_or_bar. simpl.
  intros H. repeat (apply orb_false_elim in H as [? H]). auto.
Qed.

Lemma is_vocab_consuming c rest :
  REcompiler.is_vocab c = true →
  consuming_from false (c :: rest) = S (consuming_from false rest).
Proof.
  unfold REcompiler.is_vocab. simpl.
  intros [H _]%andb_true_iff.
  apply negb_true_iff in H.
  repeat (apply orb_false_elim in H as [? H]).
  repeat match goal with
         | E : Ascii.eqb _ _ = false |- _ => rewrite E; clear E
         end.
  done.
Qed.

Lemma unread_cons self c :
  REcompiler.peek self = Some c →
  unread self
  = c :: unread (REcompiler.mk (REcompiler.chars self)
                   (S (REcompiler.pos self)) (REcompiler.state_num self)
                   (REcompiler.fsm self)).
Proof. intros H. unfold unread. simpl. by apply drop_S. Qed.

Lemma primary_chaining e : chaining e → chaining (REcompiler.primary e).
Proof.
  intros He [cs p sn f] r self' (kinds & Hk & Hf & Hsn) Hplain H.
  simpl in Hf, Hsn. subst f sn. rewrite primary_eq in H.
  destruct (cs !! p) as [c|] eqn:Hc; [|by apply error_not_Ok in H].
  pose proof (drop_S _ _ _ Hc) as Hdrop.
  unfold unread in *. simpl in Hplain |- *. rewrite Hdrop in Hplain |- *.
  destruct (Ascii.eqb_spec c "\") as [->|Hbs].
  { destruct (cs !! S p) as [c'|] eqn:Hc'; [|by apply error_not_Ok in H].
    pose proof (drop_S _ _ _ Hc') as Hdrop'. rewrite Hdrop' in Hplain |- *.
    simplify_eq. simpl in Hplain |- *.
    split; [apply chain_ok_extend; [done|right; eauto]|].
    repeat split; try done; lia. }
  destruct (REcompiler.is_vocab c) eqn:Hv.
  { simplify_eq. rewrite is_vocab_consuming by done.
    simpl in Hplain |- *. apply Ascii.eqb_neq in Hbs. rewrite Hbs in Hplain.
    apply andb_true_iff in Hplain as [_ Hplain].
    split.
    { apply chain_ok_extend; [done|].
      destruct (Ascii.eqb c "."); [by left|right; eauto]. }
    repeat split; try done; lia. }
  destruct (Ascii.eqb_spec c "(") as [->|]; [|by apply error_not_Ok in H].
  simpl in Hplain |- *.
  destruct (e _) as [[r1 self1]| |] eqn:He1; try done.
  apply He in He1 as (Hok1 & Hcs1 & Hplain1 & -> & Hlt1 & Hcount1);
    [|by exists kinds|done].
  unfold unread in *. simpl in *.
  destruct (REcompiler.peek self1) as [c'|] eqn:Hc1;
    [|by apply error_not_Ok in H].
  destruct (Ascii.eqb_spec c' ")") as [->|]; [|by apply error_not_Ok in H].
  unfold REcompiler.peek in Hc1.
  pose proof (drop_S _ _ _ Hc1) as Hdrop1.
  rewrite Hdrop1 in Hplain1, Hcount1. simpl in Hplain1, Hcount1.
  simplify_eq. simpl.
  destruct Hok1 as (kinds1 & ? & ? & ?).
  split; [by exists kinds1|]. repeat split; try done; lia.
Qed.

(** On a plain rest of pattern the lookahead is no quantifier and no bar. *)
Lemma plain_lookahead self c :
  plain_from false (unread self) = true →
  REcompiler.chars self !! REcompiler.pos self = Some c →
  Ascii.eqb c "?" = false ∧ Ascii.eqb c "+" = false
  ∧ Ascii.eqb c "*" = false ∧ Ascii.eqb c "|" = false.
Proof.
  intros Hplain Hc. unfold unread in Hplain.
  rewrite (drop_S _ _ _ Hc) in Hplain.
  by apply plain_not_quantifier, not_quantifier_eqb in Hplain.
Qed.

Lemma factor_chaining e : chaining e → chaining (REcompiler.factor e).
Proof.
  intros He self r self' Hok Hplain H. rewrite factor_eq in H.
  destruct (REcompiler.primary e self) as [[ps [cs p sn f]]| |] eqn:Hp;
    try done.
  apply primary_chaining in Hp as (Hok1 & Hcs1 & Hplain1 & Hrest);
    [|done..].
  destruct (cs !! p) as [c|] eqn:Hc; [|by simplify_eq].
  destruct (plain_lookahead _ c Hplain1 Hc) as (-> & -> & -> & _) in H.
  by simplify_eq.
Qed.

Lemma term_loop_chaining f fuel self u self' :
  chaining f →
  chain_ok self → plain_from false (unread self) = true →
  REcompiler.term_loop f fuel self = Ok (u, self') →
  chain_ok self'
  ∧ REcompiler.chars self' = REcompiler.chars self
  ∧ plain_from false (unread self') = true
  ∧ REcompiler.state_num self ≤ REcompiler.state_num self'
  ∧ REcompiler.state_num self
    + Z.of_nat (consuming_from false (unread self))
    = REcompiler.state_num self'
      + Z.of_nat (consuming_from false (unread self')).
Proof.
  intros Hf. revert self.
  induction fuel as [|fuel IH]; intros self Hok Hplain H; [done|].
  rewrite term_loop_eq in H.
  destruct (REcompiler.peek self) as [c|]; [|simplify_eq; auto with lia].
  destruct (REcompiler.starts_factor c); [|simplify_eq; auto with lia].
  destruct (f self) as [[r self1]| |] eqn:Hf1; try done.
  apply Hf in Hf1 as (Hok1 & Hcs1 & Hplain1 & _ & Hlt1 & Hcount1);
    [|done..].
  apply IH in H as (Hok' & Hcs' & Hplain' & Hle' & Hcount'); [|done..].
  repeat split; try done; try congruence; lia.
Qed.

Lemma term_chaining e fuel : chaining e → chaining (REcompiler.term e fuel).
Proof.
  intros He self r self' Hok Hplain H. rewrite term_eq in H.
  destruct (REcompiler.factor e self) as [[r1 self1]| |] eqn:Hf; try done.
  apply factor_chaining in Hf as (Hok1 & Hcs1 & Hplain1 & -> & Hlt1 & Hc1);
    [|done..].
  destruct (REcompiler.term_loop _ _ _) as [[u self2]| |] eqn:Hl; try done.
  apply term_loop_chaining in Hl as (Hok2 & Hcs2 & Hplain2 & Hle2 & Hc2);
    [|by apply factor_chaining|done..].
  simplify_eq. repeat split; try done; try congruence; lia.
Qed.

Lemma expression_chaining fuel : chaining (REcompiler.expression fuel).
Proof.
  induction fuel as [|fuel IH]; intros self r self' Hok Hplain H; [done|].
  rewrite expression_eq in H.
  destruct (REcompiler.term _ _ _) as [[t1 [cs p sn f]]| |] eqn:Ht;
    try done.
  apply term_chaining in Ht as (Hok1 & Hcs1 & Hplain1 & Hrest); [|done..].
  destruct (cs !! p) as [c|] eqn:Hc; [|by simplify_eq].
  destruct (plain_lookahead _ c Hplain1 Hc) as (_ & _ & _ & ->) in H.
  by simplify_eq.
Qed.

Lemma list_ascii_of_string_app (a b : string) :
  list_ascii_of_string (a ++ b)%string
  = list_ascii_of_string a ++ list_ascii_of_string b.
Proof. induction a as [|c a IH]; simpl; [done|by rewrite IH]. Qed.

Lemma plain_from_terminated escaped cs :
  plain_from escaped cs = true → plain_from escaped (cs ++ [NUL]) = true.
Proof.
  revert escaped. induction cs as [|c cs IH]; intros escaped; simpl.
  - by destruct escaped.
  - destruct escaped; [apply IH|].
    destruct (Ascii.eqb c "\"); [apply IH|].
    intros [-> ?]%andb_true_iff. simpl. by apply IH.
Qed.

Lemma consuming_from_terminated escaped cs :
  consuming_from escaped (cs ++ [NUL]) = S (consuming_from escaped cs).
Proof.
  revert escaped. induction cs as [|c cs IH]; intros escaped; simpl.
  - by destruct escaped.
  - destruct escaped; [by rewrite IH|].
    destruct (Ascii.eqb c "\"); [by rewrite IH|].
    destruct (Ascii.eqb c "(" || Ascii.eqb c ")"); by rewrite IH.
Qed.

Lemma chain_states_lookup start kinds (i : nat) :
  chain_states start kinds !! i
  = (λ k, FSM.mkState (start + Z.of_nat i) k (start + Z.of_nat i + 1)
            (start + Z.of_nat i + 1)) <$> kinds !! i.
Proof.
  revert start i. induction kinds as [|k kinds IH]; intros start i; [done|].
  destruct i as [|i]; simpl.
  - by rewrite Z.add_0_r.
  - rewrite IH.
    by replace (start + 1 + Z.of_nat i) with (start + Z.of_nat (S i)) by lia.
Qed.

Lemma sorted_chain_states start kinds x :
  start + Z.of_nat (length kinds) ≤ FSM.state_num x →
  FSM.sorted (chain_states start kinds ++ [x]) = chain_states start kinds ++ [x].
Proof.
  revert start. induction kinds as [|k kinds IH]; intros start Hx; [done|].
  cbn [chain_states]. rewrite <- app_comm_cons, sorted_least.
  - rewrite IH; [done|]. simpl in Hx. lia.
  - simpl in *. apply Forall_app. split.
    + eapply Forall_impl; [apply chain_states_nums|]. simpl. intros. lia.
    + constructor; [lia|constructor].
Qed.

(** The arrays of a plain pattern. *)
Lemma compile_chain regexp a :
  quantifier_free regexp →
  NUL ∉ list_ascii_of_string regexp →
  REcompiler.compile regexp = Ok a →
  ∃ kinds,
    length kinds = consuming_positions regexp
    ∧ Forall consuming_kind kinds
    ∧ a = FSM.to_arrays
            (FSM.mkState 0 "BR" 1 1
             :: chain_states 1 kinds
             ++ [FSM.mkState (Z.of_nat (length kinds) + 1) "BR" (-1) (-1)]).
Proof.
  intros Hq Hnul (entry & cs & p & sn & f & Hexpr & Hend & ->)%compile_Ok.
  apply expression_chaining in Hexpr
    as ((kinds & Hk & Hf & Hsn) & Hcs & _ & -> & _ & Hcount).
  2:{ by exists []. }
  2:{ unfold unread, initial. simpl. rewrite list_ascii_of_string_app.
      by apply plain_from_terminated. }
  unfold unread, initial in *. simpl in *. subst cs f sn.
  rewrite list_ascii_of_string_app in Hend, Hcount. simpl in Hend, Hcount.
  assert (p = length (list_ascii_of_string regexp)) as ->.
  { pose proof (lookup_lt_Some _ _ _ Hend) as Hlt.
    rewrite length_app in Hlt. simpl in Hlt.
    destruct (decide (p < length (list_ascii_of_string regexp))%nat) as [H|];
      [|lia].
    rewrite lookup_app_l in Hend by done.
    by apply list_elem_of_lookup_2 in Hend. }
  rewrite drop_0, drop_app_length, consuming_from_terminated in Hcount.
  simpl in Hcount.
  exists kinds. split; [unfold consuming_positions; lia|]. split; [done|].
  done.
Qed.

(** C5: a pattern of ordinary characters, wildcards, escapes and
    parentheses only (no embedded terminator, as for every pattern the
    program receives) that compiles has, for its [n] consuming positions,
    the consuming states [1..n], state [i] pointing at [i+1] with both
    successors, and the accepting state at [n+1]. *)
Theorem plain_pattern_chain regexp kinds n1 n2 :
  quantifier_free regexp →
  NUL ∉ list_ascii_of_string regexp →
  REcompiler.compile regexp = Ok (kinds, n1, n2) →
  let n := consuming_positions regexp in
  length kinds = S (S n) ∧ length n1 = S (S n) ∧ length n2 = S (S n)
  ∧ (∀ i : nat, (1 ≤ i ≤ n)%nat →
       (∃ k, kinds !! i = Some k ∧ consuming_kind k)
       ∧ n1 !! i = Some (Z.of_nat i + 1)
       ∧ n2 !! i = Some (Z.of_nat i + 1))
  ∧ accepting (kinds, n1, n2) (S n).
Proof.
  intros Hq Hnul (ks & Hlen & Hks & Harr)%compile_chain; [|done..].
  unfold FSM.to_arrays in Harr. rewrite sorted_least in Harr.
  2:{ apply Forall_app. split.
      - eapply Forall_impl; [apply chain_states_nums|]. simpl. intros. lia.
      - constructor; [simpl; lia|constructor]. }
  rewrite sorted_chain_states in Harr by (simpl; lia).
  rewrite !fmap_cons, !fmap_app in Harr. simpl in Harr.
  injection Harr as -> -> ->. simpl. rewrite <- Hlen.
  rewrite !length_app, !length_fmap, !length_chain_states. simpl.
  split; [lia|]. split; [lia|]. split; [lia|]. split.
  - intros [|i] [Hi1 Hi2]; [lia|]. simpl.
    destruct (lookup_lt_is_Some_2 ks i) as [k Hk]; [lia|].
    rewrite !lookup_app_l
      by (rewrite length_fmap, length_chain_states; lia).
    rewrite !list_lookup_fmap, chain_states_lookup, Hk. simpl.
    split; [|split; f_equal; lia].
    exists k. split; [done|]. by eapply Forall_lookup_1 in Hks.
  - unfold accepting. simpl.
    rewrite !lookup_app_r
      by (rewrite length_fmap, length_chain_states; lia).
    by rewrite !length_fmap, !length_chain_states, Nat.sub_diag.
Qed.

Lemma plain_pattern_chain_witness :
  let n := consuming_positions "a(.)\*" in
  length ["BR"; "a"; "WC"; "*"; "BR"] = S (S n)
  ∧ length [1; 2; 3; 4; -1] = S (S n) ∧ length [1; 2; 3; 4; -1] = S (S n)
  ∧ (∀ i : nat, (1 ≤ i ≤ n)%nat →
       (∃ k, ["BR"; "a"; "WC"; "*"; "BR"] !! i = Some k ∧ consuming_kind k)
       ∧ [1; 2; 3; 4; -1] !! i = Some (Z.of_nat i + 1)
       ∧ [1; 2; 3; 4; -1] !! i = Some (Z.of_nat i + 1))
  ∧ accepting (["BR"; "a"; "WC"; "*"; "BR"], [1; 2; 3; 4; -1],
               [1; 2; 3; 4; -1]) (S n).
Proof.
  apply (plain_pattern_chain "a(.)\*").
  - reflexivity.
  - vm_compute. intros H. repeat (inversion H as [|? ? ? H']; clear H;
                                  rename H' into H). 
  - reflexivity.
Defined.

(** ** The simulation on well-formed arrays *)

Section Simulation.
Variable self : REsearcher.t.
Hypothesis Hwf : well_formed self.

Local Abbreviation N := (REsearcher.len (REsearcher.state_type self)).

Lemma wf_index_kind x :
  0 ≤ x < N → ∃ k, index (REsearcher.state_type self) x = Ok k
                   ∧ REsearcher.state_type self !! Z.to_nat x = Some k.
Proof. intros Hx. by apply index_in_range. Qed.

Lemma wf_index_next1 x :
  0 ≤ x < N → ∃ v, index (REsearcher.next1 self) x = Ok v
                   ∧ REsearcher.next1 self !! Z.to_nat x = Some v.
Proof.
  intros Hx. apply index_in_range. destruct Hwf as (-> & _). exact Hx.
Qed.

Lemma wf_index_next2 x :
  0 ≤ x < N → ∃ v, index (REsearcher.next2 self) x = Ok v.
Proof.
  intros Hx. destruct (index_in_range (REsearcher.next2 self) x) as (v & ? & _);
    [|by eauto].
  destruct Hwf as (_ & -> & _). exact Hx.
Qed.

(** What a state number can be, with what the loop reads of it. *)
Lemma classify x :
  0 ≤ x →
  (N ≤ x
   ∧ REsearcher.is_end_br_state self x = Ok false
   ∧ REsearcher.is_branch self x = Ok false)
  ∨ (x < N
     ∧ REsearcher.is_end_br_state self x = Ok true
     ∧ REsearcher.is_branch self x = Ok true
     ∧ index (REsearcher.next1 self) x = Ok (-1)
     ∧ index (REsearcher.next2 self) x = Ok (-1))
  ∨ (x < N
     ∧ REsearcher.is_end_br_state self x = Ok false
     ∧ REsearcher.is_branch self x = Ok true
     ∧ ∃ a b, index (REsearcher.next1 self) x = Ok a
              ∧ index (REsearcher.next2 self) x = Ok b)
  ∨ (x < N
     ∧ REsearcher.is_end_br_state self x = Ok false
     ∧ REsearcher.is_branch self x = Ok false
     ∧ ∃ k v, index (REsearcher.state_type self) x = Ok k
              ∧ index (REsearcher.next1 self) x = Ok v ∧ 0 ≤ v).
Proof.
  intros Hx. unfold REsearcher.is_end_br_state, REsearcher.is_branch.
  destruct (Z.ltb_spec x 0) as [|_]; [lia|]. simpl.
  destruct (Z.leb_spec N x) as [Hge|Hlt].
  { left. by destruct (Z.ltb_spec x N); [lia|]. }
  right. destruct (Z.ltb_spec x N) as [_|]; [|lia].
  destruct (wf_index_kind x) as (k & Hk & Hk'); [lia|].
  destruct (wf_index_next1 x) as (a & Ha & Ha'); [lia|].
  destruct (wf_index_next2 x) as (b & Hb); [lia|].
  rewrite Hk. simpl. destruct (String.eqb_spec k REsearcher.BR) as [->|Hne].
  - rewrite Ha. simpl. unfold REsearcher.END.
    destruct (Z.eqb_spec a (-1)) as [->|].
    + rewrite Hb. simpl. destruct (Z.eqb_spec b (-1)) as [->|].
      * left. by repeat split.
      * right; left. repeat split; eauto.
    + right; left. repeat split; eauto.
  - right; right. repeat split; [done|]. exists k, a. repeat split; [done..|].
    destruct Hwf as (_ & _ & Hnext). by apply (Hnext _ _ _ Hk' Ha').
Qed.

Lemma expandable_leaf x :
  0 ≤ x →
  REsearcher.is_end_br_state self x = Ok true
  ∨ REsearcher.is_branch self x = Ok false →
  leaf self x.
Proof.
  intros Hx H. split; [done|]. unfold expandable.
  destruct H as [-> | ->]; [done|]. by repeat case_match.
Qed.

Lemma state_ids_spec x : x ∈ state_ids self ↔ 0 ≤ x < N.
Proof.
  unfold state_ids. rewrite elem_of_list_to_set, elem_of_seqZ. lia.
Qed.

Lemma size_state_ids : size (state_ids self) = length (REsearcher.state_type self).
Proof.
  unfold state_ids. rewrite size_list_to_set by apply NoDup_seqZ.
  rewrite length_seqZ. unfold REsearcher.len. lia.
Qed.

(** The closure pushes leaves in front of the deque, and the fuel covers
    the branch states not yet visited. *)
Lemma add_state_recursive_spec fuel deq x visited :
  (size (state_ids self ∖ visited) < fuel)%nat →
  ∃ pushed visited',
    REsearcher.add_state_recursive fuel self deq x visited
    = Ok (pushed ++ deq, visited')
    ∧ visited ⊆ visited'
    ∧ Forall (leaf self) pushed.
Proof.
  revert deq x visited.
  induction fuel as [|fuel IH]; intros deq x visited Hfuel; [lia|].
  simpl. destruct (Z.ltb_spec x 0) as [|Hx]; simpl.
  { by exists [], visited. }
  destruct (bool_decide_reflect (x ∈ visited)) as [|Hnew].
  { by exists [], visited. }
  destruct (classify x Hx)
    as [(Hge & He & Hbr)|[(Hlt & He & Hbr & _)
       |[(Hlt & He & Hbr & a & b & Ha & Hb)|(Hlt & He & Hbr & _)]]];
    rewrite He; simpl; rewrite ?Hbr; simpl.
  - exists [x], ({[x]} ∪ visited). split; [done|]. split; [set_solver|].
    constructor; [|done]. apply expandable_leaf; auto.
  - exists [x], ({[x]} ∪ visited). split; [done|]. split; [set_solver|].
    constructor; [|done]. apply expandable_leaf; auto.
  - assert (size (state_ids self ∖ ({[x]} ∪ visited)) < fuel)%nat as Hfuel1.
    { assert (state_ids self ∖ ({[x]} ∪ visited) ⊂ state_ids self ∖ visited)
        as Hsub%subset_size; [|lia].
      split; [set_solver|]. intros Hsub.
      assert (x ∈ state_ids self ∖ visited) as Hin
        by (apply elem_of_difference; split; [apply state_ids_spec; lia|done]).
      apply Hsub in Hin. set_solver. }
    rewrite Ha. simpl.
    destruct (IH deq a _ Hfuel1) as (p1 & v1 & -> & Hv1 & Hp1). simpl.
    rewrite Hb. simpl.
    destruct (IH (p1 ++ deq) b v1) as (p2 & v2 & -> & Hv2 & Hp2).
    { assert (state_ids self ∖ v1 ⊆ state_ids self ∖ ({[x]} ∪ visited))
        as Hsub%subseteq_size by set_solver. lia. }
    exists (p2 ++ p1), v2. rewrite app_assoc. split; [done|].
    split; [set_solver|]. by apply Forall_app.
  - exists [x], ({[x]} ∪ visited). split; [done|]. split; [set_solver|].
    constructor; [|done]. apply expandable_leaf; auto.
Qed.

Lemma add_state_spec deq x :
  ∃ pushed,
    REsearcher.add_state self deq x = Ok (pushed ++ deq)
    ∧ Forall (leaf self) pushed.
Proof.
  unfold REsearcher.add_state. destruct (x <? 0); [by exists []|].
  destruct (add_state_recursive_spec
              (S (length (REsearcher.state_type self))) deq x ∅)
    as (pushed & v & -> & _ & Hp).
  { assert (state_ids self ∖ ∅ ⊆ state_ids self) as H%subseteq_size
      by set_solver.
    rewrite size_state_ids in H. lia. }
  by exists pushed.
Qed.

Lemma expandable_SCAN : expandable self REsearcher.SCAN = false.
Proof. unfold expandable. by repeat case_match. Qed.

Lemma leaf_not_SCAN x : leaf self x → (x =? REsearcher.SCAN) = false.
Proof. intros [Hx _]. apply Z.eqb_neq. unfold REsearcher.SCAN. lia. Qed.

Lemma branches_app d1 d2 :
  branches self (d1 ++ d2) = (branches self d1 + branches self d2)%nat.
Proof. induction d1 as [|x d1 IH]; simpl; [done|]. rewrite IH. lia. Qed.

Lemma branches_leaves pushed :
  Forall (leaf self) pushed → branches self pushed = 0%nat.
Proof.
  induction 1 as [|x l [_ Hx] _ IH]; simpl; [done|]. by rewrite Hx, IH.
Qed.

Lemma front_leaves pushed deq :
  Forall (leaf self) pushed → front (pushed ++ deq) = pushed ++ front deq.
Proof.
  induction 1 as [|x l Hx _ IH]; simpl; [done|].
  by rewrite (leaf_not_SCAN _ Hx), IH.
Qed.

Lemma front_snoc deq v :
  REsearcher.SCAN ∈ deq → front (deq ++ [v]) = front deq.
Proof.
  induction deq as [|x deq IH]; simpl; [by intros ?%elem_of_nil|].
  destruct (Z.eqb_spec x REsearcher.SCAN); [done|].
  intros [?|?]%elem_of_cons; [congruence|]. by rewrite IH.
Qed.

Lemma get_in_range (line : string) (p : nat) :
  (p < String.length line)%nat → ∃ c, String.get p line = Some c.
Proof.
  revert p. induction line as [|c line IH]; intros p Hp; simpl in *; [lia|].
  destruct p; [eauto|]. apply IH. lia.
Qed.

(** Popping the head without pushing in front. *)
Lemma decreases_pop line x d d' p c c' :
  x ≠ REsearcher.SCAN ∨ (String.length line ≤ p)%nat →
  ((p < String.length line)%nat → front d' = front d) →
  ((String.length line ≤ p)%nat → d' = d) →
  decreases self line (REsearcher.mkLocals (x :: d) p c)
    (REsearcher.mkLocals d' p c').
Proof.
  intros Hx Hfront Hrest. right. split; [done|].
  unfold pending. simpl. destruct (Nat.ltb_spec p (String.length line)).
  - destruct Hx as [Hx%Z.eqb_neq|]; [|lia]. simpl.
    rewrite Hx, Hfront by done. simpl.
    destruct (expandable self x); [left|right]; lia.
  - rewrite Hrest by done. simpl.
    destruct (expandable self x); [left|right]; lia.
Qed.

(** Popping a branch state and pushing the closures of its successors. *)
Lemma decreases_expand line x d p1 p2 p c :
  expandable self x = true →
  Forall (leaf self) p1 → Forall (leaf self) p2 →
  decreases self line (REsearcher.mkLocals (x :: d) p c)
    (REsearcher.mkLocals (p2 ++ p1 ++ d) p c).
Proof.
  intros Hx H1 H2. right. split; [done|]. left.
  assert ((x =? REsearcher.SCAN) = false) as Hscan.
  { destruct (Z.eqb_spec x REsearcher.SCAN) as [->|]; [|done].
    by rewrite expandable_SCAN in Hx. }
  unfold pending. simpl. destruct (Nat.ltb_spec p (String.length line)).
  - rewrite Hscan, !front_leaves by done. simpl.
    rewrite Hx, !branches_app, !branches_leaves by done. lia.
  - simpl. rewrite Hx, !branches_app, !branches_leaves by done. lia.
Qed.

(** One iteration on a well-formed deque either returns or continues
    with a smaller variant; it never raises. *)
Lemma step_spec line st :
  loop_inv line st →
  (∃ b, REsearcher.step self line st = Ok (REsearcher.Return b))
  ∨ (∃ st', REsearcher.step self line st = Ok (REsearcher.Continue st')
            ∧ loop_inv line st' ∧ decreases self line st st').
Proof.
  destruct st as [[|x d] p c]; intros [Hall Hscan]; simpl in *.
  { left. by exists false. }
  apply Forall_cons in Hall as [Hx Hall]. unfold REsearcher.step. simpl.
  destruct (Z.eqb_spec x REsearcher.SCAN) as [->|Hne].
  { destruct d as [|y d]; [left; by exists false|right].
    destruct (Nat.ltb_spec p (String.length line)).
    - eexists. split; [done|]. split.
      + split; simpl; [|set_solver].
        apply (Forall_app _ (y :: d) [REsearcher.SCAN]). split; [done|].
        by repeat constructor.
      + left. simpl. lia.
    - eexists. split; [done|]. split.
      + split; simpl; [done|lia].
      + apply decreases_pop; auto. }
  assert (0 ≤ x) as Hx0 by (unfold REsearcher.SCAN in Hne; lia).
  assert ((p < String.length line)%nat → REsearcher.SCAN ∈ d) as Hscan'.
  { intros Hp. apply Hscan in Hp. set_solver. }
  destruct (classify x Hx0)
    as [(Hge & He & Hbr)|[(Hlt & He & Hbr & Hn1 & Hn2)
       |[(Hlt & He & Hbr & a & b & Ha & Hb)
        |(Hlt & He & Hbr & k & v & Hk & Hv & Hv0)]]];
    rewrite He; simpl; rewrite ?Hbr; simpl.
  - (* a number past the arrays is dropped *)
    right. exists (REsearcher.mkLocals d p c).
    split; [|split; [by split|apply decreases_pop; auto]].
    destruct (Nat.leb_spec (String.length line) p); [done|].
    destruct (get_in_range line p) as [ch ->]; [lia|].
    by destruct (Z.ltb_spec x N); [lia|].
  - (* the accepting state *)
    destruct c; simpl; [left; by exists true|right].
    rewrite Hn1. simpl. rewrite Hn2. simpl.
    exists (REsearcher.mkLocals d p false).
    split; [done|]. split; [by split|apply decreases_pop; auto].
  - (* a branch state *)
    right. rewrite Ha. simpl.
    destruct (add_state_spec d a) as (p1 & -> & Hp1). simpl.
    rewrite Hb. simpl.
    destruct (add_state_spec (p1 ++ d) b) as (p2 & -> & Hp2). simpl.
    eexists. split; [done|]. split.
    + split; simpl.
      * apply Forall_app. split.
        { eapply Forall_impl; [exact Hp2|]. intros ? [? _]. lia. }
        apply Forall_app. split; [|done].
        eapply Forall_impl; [exact Hp1|]. intros ? [? _]. lia.
      * intros Hp. apply Hscan' in Hp. set_solver.
    + apply decreases_expand; [|done..]. unfold expandable.
      rewrite He, Hbr. by apply negb_true_iff, Z.eqb_neq.
  - (* a consuming state *)
    right.
    destruct (Nat.leb_spec (String.length line) p) as [Hend|Hin].
    { exists (REsearcher.mkLocals d p c).
      split; [done|]. split; [by split|apply decreases_pop; auto]. }
    destruct (get_in_range line p) as [ch ->]; [lia|].
    destruct (Z.ltb_spec x N) as [_|]; [|lia].
    rewrite Hk. simpl.
    assert (loop_inv line (REsearcher.mkLocals (d ++ [v]) p c)
            ∧ decreases self line (REsearcher.mkLocals (x :: d) p c)
                (REsearcher.mkLocals (d ++ [v]) p c)) as Happend.
    { split.
      - split; simpl.
        + apply Forall_app. split; [done|]. repeat constructor. lia.
        + intros Hp. apply Hscan' in Hp. set_solver.
      - apply decreases_pop; [auto| |lia].
        intros Hp. by apply front_snoc, Hscan'. }
    destruct (String.eqb k REsearcher.WC).
    { rewrite Hv. simpl. eexists. split; [done|]. exact Happend. }
    destruct (_ && _).
    { rewrite Hv. simpl. eexists. split; [done|]. exact Happend. }
    exists (REsearcher.mkLocals d p c).
    split; [done|]. split; [by split|apply decreases_pop; auto].
Qed.

(** The loop returns: induction on the variant. *)
Lemma run_terminates line st :
  loop_inv line st →
  ∃ fuel b st', REsearcher.run fuel self line st = Ok (b, st').
Proof.
  remember (String.length line - REsearcher.pos st)%nat as left eqn:Hl.
  remember (branches self (pending line st)) as br eqn:Hb.
  remember (length (pending line st)) as sz eqn:Hs.
  revert br sz st Hl Hb Hs.
  induction left as [left IHl] using lt_wf_ind. intros br.
  induction br as [br IHb] using lt_wf_ind. intros sz.
  induction sz as [sz IHs] using lt_wf_ind.
  intros st -> -> -> Hinv.
  destruct (step_spec line st Hinv)
    as [[b Hstep]|(st1 & Hstep & Hinv1 & Hdec)].
  { exists 1%nat, b, st. simpl. by rewrite Hstep. }
  assert (∃ fuel b st', REsearcher.run fuel self line st1 = Ok (b, st'))
    as (fuel & b & st' & Hrun).
  { destruct Hdec as [Hlt|[Heq [Hlt|[Heq' Hlt]]]].
    - by eapply (IHl _ Hlt).
    - by eapply (IHb _ Hlt).
    - by eapply (IHs _ Hlt). }
  exists (S fuel), b, st'. simpl. by rewrite Hstep.
Qed.

Lemma match_from_position_terminates line start :
  ∃ fuel b, REsearcher.match_from_position fuel self line start = Ok b.
Proof.
  unfold REsearcher.match_from_position, REsearcher.enter.
  destruct (add_state_spec [REsearcher.SCAN] 0) as (pushed & -> & Hp).
  simpl.
  destruct (run_terminates line
              (REsearcher.mkLocals (pushed ++ [REsearcher.SCAN]) start false))
    as (fuel & b & st' & Hrun).
  { split; simpl; [|set_solver].
    apply Forall_app. split; [|by repeat constructor].
    eapply Forall_impl; [exact Hp|]. intros ? [? _]. lia. }
  exists fuel, b. by rewrite Hrun.
Qed.
End Simulation.

(** The arrays [compile] returns are well formed. *)
Lemma compile_well_formed regexp kinds n1 n2 :
  REcompiler.compile regexp = Ok (kinds, n1, n2) →
  well_formed (REsearcher.mk kinds n1 n2).
Proof.
  intros (entry & self' & l & _ & Hentry & Hl & [= -> -> ->])%compile_arrays.
  split; [|split]; simpl.
  - by rewrite !length_app, !length_fmap.
  - by rewrite !length_app, !length_fmap.
  - intros [|i] k v; simpl; [intros; simplify_eq; lia|].
    destruct (decide (i < length l)%nat) as [Hlt|Hge].
    + rewrite !lookup_app_l by (rewrite length_fmap; lia).
      intros _ (s & -> & Hs)%list_lookup_fmap_Some _.
      eapply Forall_lookup_1 in Hl; [|exact Hs]. lia.
    + rewrite !lookup_app_r by (rewrite length_fmap; lia).
      rewrite !length_fmap.
      destruct (i - length l)%nat as [|j]; simpl; [|done].
      by intros [= <-].
Qed.

Lemma new_Ok kinds n1 n2 searcher :
  REsearcher.new kinds n1 n2 = Ok searcher →
  searcher = REsearcher.mk kinds n1 n2.
Proof.
  unfold REsearcher.new. intros (? & _ & H)%obind_Ok. congruence.
Qed.

(** The search over all start offsets of a line returns as well. *)
Lemma search_terminates self line :
  well_formed self →
  ∃ b, returns (λ fuel, REsearcher.search_pattern_in_line fuel self line) b.
Proof.
  intros Hwf. unfold REsearcher.search_pattern_in_line, returns.
  induction (seq 0 (String.length line)) as [|p ps (b & fuel & IH)]; simpl.
  { by exists false, 0%nat. }
  destruct (match_from_position_terminates self Hwf line p)
    as (fuel1 & b1 & H1).
  pose proof (match_from_position_mono fuel1 (fuel1 `max` fuel) self line p
                ltac:(lia)) as Hm.
  rewrite H1 in Hm. apply below_Ok in Hm.
  pose proof (search_from_mono fuel (fuel1 `max` fuel) self line ps
                ltac:(lia)) as Hs.
  rewrite IH in Hs. apply below_Ok in Hs.
  exists (if b1 then true else b), (fuel1 `max` fuel)%nat.
  rewrite Hm. simpl. by destruct b1.
Qed.

(** ** Termination of the simulation *)

(** C9: on the arrays of a successful compile, for every line and every
    start offset, the simulation returns [True] or [False] once it has
    enough fuel: it neither loops nor raises. *)
Theorem simulation_terminates regexp kinds n1 n2 searcher line start :
  REcompiler.compile regexp = Ok (kinds, n1, n2) →
  REsearcher.new kinds n1 n2 = Ok searcher →
  ∃ b, returns (λ fuel, REsearcher.match_from_position fuel searcher
                          line start) b.
Proof.
  intros Hc ->%new_Ok. apply compile_well_formed in Hc.
  destruct (match_from_position_terminates _ Hc line start)
    as (fuel & b & H).
  by exists b, fuel.
Qed.

Lemma simulation_terminates_witness :
  ∃ b, returns (λ fuel, REsearcher.match_from_position fuel
                          (REsearcher.mk ["BR"; "a"; "BR"; "BR"]
                             [2; 2; 3; -1] [2; 2; 1; -1])
                          "aab" 1%nat) b.
Proof.
  apply (simulation_terminates "a*" ["BR"; "a"; "BR"; "BR"]
           [2; 2; 3; -1] [2; 2; 1; -1]); reflexivity.
Defined.

(** ** The compiler numbers its states densely *)

Lemma mutate_nums f num states :
  (∀ s, FSM.state_num (f s) = FSM.state_num s) →
  FSM.state_num <$> FSM.mutate f num states = FSM.state_num <$> states.
Proof.
  intros Hf. induction states as [|s l IH]; [done|]. cbn [FSM.mutate].
  destruct (FSM.state_num s =? num); rewrite !fmap_cons;
    [by rewrite Hf|by rewrite IH].
Qed.

Lemma length_mutate f num states :
  length (FSM.mutate f num states) = length states.
Proof.
  induction states as [|s l IH]; simpl; [done|].
  destruct (FSM.state_num s =? num); simpl; by rewrite ?IH.
Qed.

Lemma get_state_Some_elem states num :
  num ∈ FSM.state_num <$> states → is_Some (FSM.get_state states num).
Proof.
  induction states as [|s l IH]; simpl; [by intros ?%elem_of_nil|].
  destruct (Z.eqb_spec (FSM.state_num s) num); [by eauto|].
  intros [?|?]%elem_of_cons; [congruence|by apply IH].
Qed.

Lemma get_state_None_elem states num :
  num ∉ FSM.state_num <$> states → FSM.get_state states num = None.
Proof.
  intros Hnot. apply get_state_None, Forall_forall. intros s Hs Heq.
  apply Hnot, list_elem_of_fmap. eauto.
Qed.

Lemma numbering_length cs p sn f missing :
  0 ≤ sn → numbering (REcompiler.mk cs p sn f) missing →
  Z.of_nat (length f) + Z.of_nat (length missing) = sn.
Proof.
  intros Hsn H%Permutation_length. unfold numbering in H. simpl in H.
  rewrite length_app, length_fmap, length_seqZ in H. lia.
Qed.

Lemma numbering_bound cs p sn f missing x :
  numbering (REcompiler.mk cs p sn f) missing →
  x ∈ (FSM.state_num <$> f) ++ missing → 0 ≤ x < sn.
Proof.
  unfold numbering. simpl. intros H Hx. rewrite H in Hx.
  apply elem_of_seqZ in Hx. lia.
Qed.

Lemma numbering_fresh cs p sn f missing :
  numbering (REcompiler.mk cs p sn f) missing →
  FSM.get_state f sn = None.
Proof.
  intros H. apply get_state_None_elem. intros Hin.
  apply (numbering_bound _ _ _ _ _ sn) in H; [lia|].
  apply elem_of_app. by left.
Qed.

(** Allocating the next number: the list grows by the new state, and by
    the filler for the number reserved last when two are missing. *)
Lemma numbering_alloc cs p p' sn f missing ty n1 n2 :
  0 ≤ sn → missing_ok sn missing →
  numbering (REcompiler.mk cs p sn f) missing →
  numbering (REcompiler.mk cs p' (sn + 1) (set_state_fsm sn ty n1 n2 f))
    (take 1 missing).
Proof.
  intros Hsn Hmiss Hnum. pose proof (numbering_length _ _ _ _ _ Hsn Hnum) as Hlen.
  unfold set_state_fsm. rewrite (numbering_fresh _ _ _ _ _ Hnum).
  unfold numbering in *. simpl in *.
  replace (sn + 1) with (Z.of_nat (S (Z.to_nat sn))) by lia.
  rewrite seqZ_S, Z2Nat.id, Z.add_0_l by done. rewrite <- Hnum.
  rewrite !fmap_app. simpl. unfold range.
  destruct Hmiss as [Hle|[m ->]].
  - rewrite seqZ_nil by lia. simpl. rewrite app_nil_r.
    rewrite take_ge by done. by solve_Permutation.
  - simpl in *. replace (Z.of_nat (S (length f))) with (sn - 1) by lia.
    replace (sn - (sn - 1)) with 1 by lia. simpl.
    rewrite Z.add_0_l. by solve_Permutation.
Qed.

(** Setting a number that is present rewrites it in place. *)
Lemma numbering_set_present cs p sn f missing r ty n1 n2 :
  r ∈ FSM.state_num <$> f →
  numbering (REcompiler.mk cs p sn f) missing →
  numbering (REcompiler.mk cs p sn (set_state_fsm r ty n1 n2 f)) missing.
Proof.
  intros Hr Hnum. unfold set_state_fsm.
  destruct (get_state_Some_elem _ _ Hr) as [s ->].
  unfold numbering in *. simpl in *. by rewrite mutate_nums.
Qed.

(** Setting the one number that is missing adds it. *)
Lemma numbering_set_missing cs p sn f r ty n1 n2 :
  0 ≤ sn →
  numbering (REcompiler.mk cs p sn f) [r] →
  numbering (REcompiler.mk cs p sn (set_state_fsm r ty n1 n2 f)) [].
Proof.
  intros Hsn Hnum. pose proof (numbering_length _ _ _ _ _ Hsn Hnum) as Hlen.
  assert (0 ≤ r < sn) as Hr.
  { eapply numbering_bound; [exact Hnum|]. set_solver. }
  unfold set_state_fsm. rewrite get_state_None_elem.
  2:{ intros Hin. unfold numbering in Hnum. simpl in Hnum.
      pose proof (NoDup_seqZ 0 sn) as Hnd. rewrite <- Hnum in Hnd.
      apply NoDup_app in Hnd as (_ & Hdisj & _).
      apply (Hdisj r Hin). set_solver. }
  unfold range. rewrite seqZ_nil by (simpl in *; lia).
  unfold numbering in *. simpl in *.
  by rewrite !app_nil_r, fmap_app.
Qed.

Lemma kinds_valid_set_state r ty n1 n2 f :
  FSM.valid_state_type ty = true → kinds_valid f →
  kinds_valid (set_state_fsm r ty n1 n2 f).
Proof.
  intros Hty Hf. unfold set_state_fsm, kinds_valid in *.
  destruct (FSM.get_state f r).
  - by apply Forall_mutate.
  - apply Forall_app. split.
    + apply Forall_app. split; [done|]. by repeat constructor.
    + by apply Forall_fmap, Forall_true.
Qed.

Lemma nexts_bounded_set_state bound r ty n1 n2 f :
  0 ≤ bound → n1 ≤ bound → n2 ≤ bound → nexts_bounded bound f →
  nexts_bounded bound (set_state_fsm r ty n1 n2 f).
Proof.
  intros Hb H1 H2 Hf. unfold set_state_fsm, nexts_bounded in *.
  destruct (FSM.get_state f r).
  - by apply Forall_mutate.
  - apply Forall_app. split.
    + apply Forall_app. split; [done|]. by repeat constructor.
    + by apply Forall_fmap, Forall_true.
Qed.

Lemma nexts_bounded_mono bound bound' f :
  bound ≤ bound' → nexts_bounded bound f → nexts_bounded bound' f.
Proof.
  intros Hle Hf. eapply Forall_impl; [exact Hf|]. intros s [? ?]. lia.
Qed.

Lemma take_1_short {A} (l : list A) : (length l ≤ 1)%nat → take 1 l = l.
Proof. intros. by apply take_ge. Qed.

Lemma missing_ok_take sn missing :
  missing_ok sn missing → (length (take 1 missing) ≤ 1)%nat.
Proof. intros _. rewrite length_take. lia. Qed.

(** Moving the position does not touch the states. *)
Lemma dense_inv_pos cs p p' sn f missing :
  dense_inv (REcompiler.mk cs p sn f) missing →
  dense_inv (REcompiler.mk cs p' sn f) missing.
Proof. done. Qed.

Lemma dense_inv_alloc_gen cs p p' sn f missing ty n1 n2 :
  0 ≤ sn → missing_ok sn missing →
  FSM.valid_state_type ty = true → n1 ≤ sn + 1 → n2 ≤ sn + 1 →
  kinds_valid f → nexts_bounded (sn + 1) f →
  numbering (REcompiler.mk cs p sn f) missing →
  dense_inv (REcompiler.mk cs p' (sn + 1) (set_state_fsm sn ty n1 n2 f))
    (take 1 missing).
Proof.
  intros Hsn Hm Hty H1 H2 Hk Hn Hnum.
  split; [|split]; simpl.
  - by apply kinds_valid_set_state.
  - apply nexts_bounded_set_state; [lia..|done].
  - by eapply numbering_alloc.
Qed.

Lemma dense_inv_alloc cs p p' sn f missing ty n1 n2 :
  0 ≤ sn → missing_ok sn missing →
  FSM.valid_state_type ty = true → n1 ≤ sn + 1 → n2 ≤ sn + 1 →
  dense_inv (REcompiler.mk cs p sn f) missing →
  dense_inv (REcompiler.mk cs p' (sn + 1) (set_state_fsm sn ty n1 n2 f))
    (take 1 missing).
Proof.
  intros Hsn Hm Hty H1 H2 (Hk & Hn & Hnum). simpl in *.
  apply (dense_inv_alloc_gen cs p); auto.
  eapply nexts_bounded_mono; [|done]. lia.
Qed.

Lemma dense_inv_mutate cs p p' sn f missing g num :
  (∀ s, FSM.state_num (g s) = FSM.state_num s
        ∧ FSM.state_type (g s) = FSM.state_type s
        ∧ (FSM.next1 s ≤ sn → FSM.next2 s ≤ sn →
           FSM.next1 (g s) ≤ sn ∧ FSM.next2 (g s) ≤ sn)) →
  dense_inv (REcompiler.mk cs p sn f) missing →
  dense_inv (REcompiler.mk cs p' sn (FSM.mutate g num f)) missing.
Proof.
  intros Hg (Hk & Hn & Hnum). simpl in *. split; [|split]; simpl.
  - apply Forall_mutate; [done|]. intros s Hs _.
    destruct (Hg s) as (_ & -> & _). done.
  - apply Forall_mutate; [done|]. intros s [? ?] _.
    destruct (Hg s) as (_ & _ & Hs). auto.
  - unfold numbering in *. simpl in *. rewrite mutate_nums; [done|].
    intros s. by destruct (Hg s).
Qed.

Lemma dense_inv_converge cs p p' sn f missing num :
  dense_inv (REcompiler.mk cs p sn f) missing →
  dense_inv (REcompiler.mk cs p' sn (FSM.mutate (REcompiler.converge sn) num f))
    missing.
Proof.
  apply dense_inv_mutate. intros s.
  unfold REcompiler.converge, FSM.set_next1, FSM.set_next2.
  destruct (FSM.next1 s =? FSM.next2 s); simpl; repeat split; lia.
Qed.

(** Reserving a number for the branch of an alternation. *)
Lemma dense_inv_reserve cs p p' sn f missing :
  0 ≤ sn →
  dense_inv (REcompiler.mk cs p sn f) missing →
  dense_inv (REcompiler.mk cs p' (sn + 1) f) (missing ++ [sn]).
Proof.
  intros Hsn (Hk & Hn & Hnum). simpl in *. split; [done|]. split; simpl.
  - eapply nexts_bounded_mono; [|done]. lia.
  - unfold numbering in *. simpl in *.
    replace (sn + 1) with (Z.of_nat (S (Z.to_nat sn))) by lia.
    rewrite seqZ_S, Z2Nat.id, Z.add_0_l by done. rewrite <- Hnum.
    by rewrite app_assoc.
Qed.

Lemma primary_dense e : sound e → dense e → dense (REcompiler.primary e).
Proof.
  intros Hs He [cs p sn f] missing r self' Hinv Hd Hm H.
  pose proof Hinv as [Hsn _]. simpl in Hsn, Hm. rewrite primary_eq in H.
  destruct (cs !! p) as [c|]; [|by apply error_not_Ok in H].
  destruct (Ascii.eqb c "\").
  { destruct (cs !! S p) as [c'|]; [|by apply error_not_Ok in H].
    simplify_eq. apply (dense_inv_alloc cs p);
      auto using valid_state_type_chr with lia. }
  destruct (REcompiler.is_vocab c).
  { simplify_eq. apply (dense_inv_alloc cs p); auto with lia.
    destruct (Ascii.eqb c "."); [done|apply valid_state_type_chr]. }
  destruct (Ascii.eqb c "("); [|by apply error_not_Ok in H].
  destruct (e _) as [[r1 [cs1 p1 sn1 f1]]| |] eqn:He1; try done.
  pose proof (He (REcompiler.mk cs (S p) sn f) missing _ _ Hinv Hd Hm He1)
    as Hd1.
  unfold REcompiler.peek in H. simpl in H.
  destruct (cs1 !! p1) as [c'|]; [|by apply error_not_Ok in H].
  destruct (Ascii.eqb c' ")"); [|by apply error_not_Ok in H].
  by simplify_eq.
Qed.

Lemma factor_dense e : sound e → dense e → dense (REcompiler.factor e).
Proof.
  intros Hs He self missing r self' Hinv Hd Hm H. rewrite factor_eq in H.
  destruct (REcompiler.primary e self) as [[ps [cs p sn f]]| |] eqn:Hp;
    try done.
  pose proof (primary_sound e Hs _ _ _ Hinv Hp) as [[Hsn _] Hps].
  pose proof (primary_dense e Hs He _ missing _ _ Hinv Hd Hm Hp) as Hd1.
  simpl in Hsn, Hps.
  assert (missing_ok sn (take 1 missing)) as Hm1
    by (left; by apply missing_ok_take in Hm).
  assert (take 1 (take 1 missing) = take 1 missing) as Htake
    by (apply take_1_short; by apply missing_ok_take in Hm).
  destruct (cs !! p) as [c|]; [|by simplify_eq].
  destruct (Ascii.eqb c "?").
  { simplify_eq. rewrite <- Htake. destruct Hd1 as (Hk & Hn & Hnum).
    simpl in *. apply (dense_inv_alloc_gen cs p); auto with lia.
    - by apply Forall_mutate.
    - apply Forall_mutate.
      + eapply nexts_bounded_mono; [|done]. lia.
      + intros s _ _. simpl. lia.
    - unfold numbering in *. simpl in *. by rewrite mutate_nums. }
  destruct (Ascii.eqb c "+").
  { simplify_eq. rewrite <- Htake.
    apply (dense_inv_alloc cs p); auto with lia. }
  destruct (Ascii.eqb c "*").
  { simplify_eq. rewrite <- Htake.
    apply (dense_inv_alloc cs p); auto with lia. }
  by simplify_eq.
Qed.

Lemma term_loop_dense f fuel :
  sound f → dense f →
  ∀ self missing u self',
    compiler_inv self → dense_inv self missing →
    (length missing ≤ 1)%nat →
    REcompiler.term_loop f fuel self = Ok (u, self') →
    dense_inv self' missing.
Proof.
  intros Hs Hf. induction fuel as [|fuel IH];
    intros self missing u self' Hinv Hd Hm H; [done|].
  rewrite term_loop_eq in H.
  destruct (REcompiler.peek self) as [c|]; [|by simplify_eq].
  destruct (REcompiler.starts_factor c); [|by simplify_eq].
  destruct (f self) as [[r self1]| |] eqn:Hf1; try done.
  pose proof (Hs _ _ _ Hinv Hf1) as [Hinv1 _].
  pose proof (Hf _ missing _ _ Hinv Hd (or_introl Hm) Hf1) as Hd1.
  rewrite take_1_short in Hd1 by done. by eapply IH.
Qed.

Lemma term_dense e fuel : sound e → dense e → dense (REcompiler.term e fuel).
Proof.
  intros Hs He self missing r self' Hinv Hd Hm H. rewrite term_eq in H.
  destruct (REcompiler.factor e self) as [[r1 self1]| |] eqn:Hf; try done.
  pose proof (factor_sound e Hs _ _ _ Hinv Hf) as [Hinv1 _].
  pose proof (factor_dense e Hs He _ missing _ _ Hinv Hd Hm Hf) as Hd1.
  destruct (REcompiler.term_loop _ _ _) as [[u self2]| |] eqn:Hl; try done.
  simplify_eq.
  eapply term_loop_dense; [by apply factor_sound|by apply factor_dense|..];
    [exact Hinv1|exact Hd1|by apply missing_ok_take in Hm|exact Hl].
Qed.

Lemma numbering_present cs p sn f m x :
  numbering (REcompiler.mk cs p sn f) [m] → 0 ≤ x < sn → x ≠ m →
  x ∈ FSM.state_num <$> f.
Proof.
  unfold numbering. simpl. intros Hnum Hx Hne.
  assert (x ∈ (FSM.state_num <$> f) ++ [m]) as Hin.
  { rewrite Hnum. apply elem_of_seqZ. lia. }
  set_solver.
Qed.

Lemma expression_dense fuel : dense (REcompiler.expression fuel).
Proof.
  induction fuel as [|fuel IH];
    intros self missing r self' Hinv Hd Hm H; [done|].
  rewrite expression_eq in H.
  destruct (REcompiler.term _ _ _) as [[t1 [cs p sn f]]| |] eqn:Ht;
    try done.
  pose proof (term_sound _ fuel (expression_sound fuel) _ _ _ Hinv Ht)
    as [Hinv1 Ht1].
  pose proof (term_dense _ fuel (expression_sound fuel) IH _ missing _ _
                Hinv Hd Hm Ht) as Hd1.
  pose proof Hinv as [Hsn0 _]. pose proof Hinv1 as [Hsn1 Hok1].
  simpl in Ht1, Hsn1, Hok1.
  destruct (cs !! p) as [c|]; [|by simplify_eq].
  destruct (Ascii.eqb c "|"); [|by simplify_eq].
  set (self2 := REcompiler.mk cs (S p) (sn + 1)
                  (FSM.mutate (REcompiler.converge sn)
                     (REcompiler.state_num self - 1) f)) in H.
  assert (compiler_inv self2) as Hinv2.
  { apply compiler_inv_intro; [lia|].
    apply fsm_ok_converge; [lia|]. eapply fsm_ok_mono; [|done]. lia. }
  assert (dense_inv self2 (take 1 missing ++ [sn])) as Hd2.
  { apply (dense_inv_reserve cs p); [lia|].
    by apply (dense_inv_converge cs p). }
  assert (length (take 1 missing) ≤ 1)%nat as Hlen
    by (by apply missing_ok_take in Hm).
  assert (missing_ok (sn + 1) (take 1 missing ++ [sn])) as Hm2.
  { destruct (take 1 missing) as [|m [|]]; simpl in *; [by left| |lia].
    right. exists m. do 2 f_equal. lia. }
  destruct (REcompiler.expression fuel self2)
    as [[t2 [cs2 p2 sn2 f2]]| |] eqn:He; try done.
  pose proof (expression_sound fuel _ _ _ Hinv2 He) as [[Hsn2 Hok2] Ht2].
  pose proof (IH _ _ _ _ Hinv2 Hd2 Hm2 He) as (Hk3 & Hn3 & Hnum3).
  simpl in Hsn2, Hok2, Ht2, Hk3, Hn3, Hnum3.
  simplify_eq. apply (dense_inv_converge cs2 p2).
  split; [|split]; simpl.
  - by apply kinds_valid_set_state.
  - apply nexts_bounded_set_state; [lia..|done].
  - destruct (take 1 missing) as [|m [|]] eqn:Hmiss; simpl in *; [| |lia].
    + by apply numbering_set_missing; [lia|].
    + apply numbering_set_present; [|done].
      apply (numbering_present cs2 p2 sn2 f2 m); [done|lia|].
      destruct Hd1 as (_ & _ & Hnum1).
      apply (numbering_bound _ _ _ _ _ m) in Hnum1; [lia|set_solver].
Qed.

(** ** [sorted] sorts *)

Lemma insert_by_num_perm s l : FSM.insert_by_num s l ≡ₚ s :: l.
Proof.
  induction l as [|x l IH]; simpl; [done|].
  destruct (FSM.state_num s <=? FSM.state_num x); [done|].
  rewrite IH. apply Permutation_swap.
Qed.

Lemma sorted_perm l : FSM.sorted l ≡ₚ l.
Proof.
  induction l as [|s l IH]; simpl; [done|].
  by rewrite insert_by_num_perm, IH.
Qed.

Lemma HdRel_insert_by_num x s l :
  num_le x s → HdRel num_le x l → HdRel num_le x (FSM.insert_by_num s l).
Proof.
  intros Hxs Hl. destruct Hl as [|y l Hy]; simpl; [by constructor|].
  destruct (FSM.state_num s <=? FSM.state_num y); by constructor.
Qed.

Lemma Sorted_insert_by_num s l :
  Sorted num_le l → Sorted num_le (FSM.insert_by_num s l).
Proof.
  induction 1 as [|x l Hl IH Hx]; simpl; [by repeat constructor|].
  destruct (Z.leb_spec (FSM.state_num s) (FSM.state_num x)).
  - constructor; [by constructor|by constructor].
  - constructor; [done|]. apply HdRel_insert_by_num; [|done].
    unfold num_le. lia.
Qed.

Lemma Sorted_sorted l : Sorted num_le (FSM.sorted l).
Proof.
  induction l; simpl; [constructor|by apply Sorted_insert_by_num].
Qed.

Lemma Sorted_seqZ m n : Sorted Z.le (seqZ m n).
Proof.
  unfold seqZ. generalize (Z.to_nat n) as k. generalize 0%nat as a.
  intros a k. revert a. induction k as [|k IH]; intros a; simpl;
    [constructor|].
  constructor; [apply IH|].
  destruct k; simpl; constructor. lia.
Qed.

(** States whose numbers are [0 .. n-1] come out of [sorted] in that
    order. *)
Lemma sorted_nums states n :
  FSM.state_num <$> states ≡ₚ seqZ 0 n →
  FSM.state_num <$> FSM.sorted states = seqZ 0 n.
Proof.
  intros Hperm. apply (Sorted_unique Z.le).
  - apply (Sorted_fmap _ num_le); [done|apply Sorted_sorted].
  - apply Sorted_seqZ.
  - by rewrite sorted_perm.
Qed.

(** ** The states a successful compile leaves behind *)

Lemma dense_inv_initial regexp : dense_inv (initial regexp) [].
Proof.
  split; [|split]; simpl.
  - by repeat constructor.
  - repeat constructor; simpl; lia.
  - unfold numbering. simpl. reflexivity.
Qed.

(** The compiler's list of states after [compile]: numbered [0 .. n]
    without gap or repetition, every kind valid, the state numbered [n]
    accepting and every other successor a number in [0 .. n]. *)
Lemma compile_final regexp a :
  REcompiler.compile regexp = Ok a →
  ∃ states n,
    compile_and_print regexp = Ok (FSM.print_fsm states)
    ∧ a = FSM.to_arrays states
    ∧ 0 ≤ n
    ∧ FSM.state_num <$> FSM.sorted states = seqZ 0 (n + 1)
    ∧ kinds_valid states
    ∧ Forall (λ s, FSM.state_num s = n
                   ∨ (0 ≤ FSM.next1 s ≤ n ∧ 0 ≤ FSM.next2 s ≤ n)) states.
Proof.
  unfold REcompiler.compile, compile_and_print. rewrite init_Ok.
  cbn [obind].
  pose proof (λ r self', expression_sound
                (REcompiler.fuel_of (initial regexp)) (initial regexp)
                r self' (compiler_inv_initial regexp)) as Hsound.
  pose proof (λ r self', expression_dense
                (REcompiler.fuel_of (initial regexp)) (initial regexp)
                [] r self'
                (compiler_inv_initial regexp) (dense_inv_initial regexp)
                (or_introl (Nat.le_0_l 1))) as Hdense.
  revert Hsound Hdense.
  generalize (REcompiler.fuel_of (initial regexp)). intros fuel Hsound Hdense.
  unfold REcompiler.compile_body, REcompiler.peek. unfold_M.
  destruct (REcompiler.expression _ _) as [[e [cs p sn f]]| |]; try done.
  destruct (Hsound _ _ eq_refl) as [[Hsn Hok] He].
  destruct (Hdense _ _ eq_refl) as (Hk & Hn & Hnum).
  simpl in Hsn, Hok, He, Hk, Hn, Hnum. clear Hsound Hdense.
  unfold_M. destruct (cs !! p) as [c|]; [|done]. unfold_M.
  destruct (Ascii.eqb c NUL); simpl; [|done].
  intros [= <-]. eexists _, sn. split; [done|]. split; [done|].
  split; [lia|].
  unfold numbering in Hnum. simpl in Hnum. rewrite app_nil_r in Hnum.
  destruct Hok as (s0 & rest & -> & H0 & Hty & _ & _ & Hrest).
  split; [|split].
  - apply sorted_nums. unfold FSM.update_state.
    rewrite fmap_app, mutate_nums, Hnum by done.
    replace (sn + 1) with (Z.of_nat (S (Z.to_nat sn))) by lia.
    by rewrite seqZ_S, Z2Nat.id, Z.add_0_l by lia.
  - apply Forall_app. split; [|by repeat constructor].
    unfold FSM.update_state. by apply Forall_mutate.
  - apply Forall_app. split; [|repeat constructor; by left].
    unfold FSM.update_state. simpl. rewrite H0. simpl.
    apply Forall_cons in Hn as [_ Hn]. constructor.
    + right. simpl. lia.
    + apply Forall_forall. intros s Hs. right.
      apply (Forall_forall _ _) with (x := s) in Hrest; [|done].
      apply (Forall_forall _ _) with (x := s) in Hn; [|done].
      unfold state_ok in Hrest. lia.
Qed.

(** ** Compiler and searcher fit together *)


(** X2: the searcher is constructed exactly for the arrays whose [next1]
    and [next2] are at least as long as the kind array and whose kind tags
    are all valid, and it then holds the three arrays as given. *)
Theorem validation_accepts_iff kinds n1 n2 searcher :
  REsearcher.new kinds n1 n2 = Ok searcher ↔
  (length kinds ≤ length n1)%nat ∧ (length kinds ≤ length n2)%nat
  ∧ Forall (λ k, FSM.valid_state_type k = true) kinds
  ∧ searcher = REsearcher.mk kinds n1 n2.
Proof.
  split.
  - intros Hnew. pose proof (new_Ok _ _ _ _ Hnew) as ->.
    assert (∀ i, 0 ≤ i < Z.of_nat (length kinds) →
                 ¬ rejected_at (REsearcher.mk kinds n1 n2) i) as Hno.
    { intros i Hi Hbad.
      destruct (new_rejects _ _ _ i Hi Hbad) as [? Hr]. congruence. }
    split; [|split; [|split; [|done]]].
    + destruct (decide (length kinds ≤ length n1)%nat) as [|Hlt]; [done|].
      destruct (Hno (Z.of_nat (length n1))); [lia|].
      left. apply index_past_end. simpl. lia.
    + destruct (decide (length kinds ≤ length n2)%nat) as [|Hlt]; [done|].
      destruct (Hno (Z.of_nat (length n2))); [lia|].
      right; left. apply index_past_end. simpl. lia.
    + apply Forall_lookup. intros i k Hk.
      destruct (FSM.valid_state_type k) eqn:Hv; [done|].
      pose proof (lookup_lt_Some _ _ _ Hk).
      destruct (Hno (Z.of_nat i)); [lia|].
      right; right. exists k. split; [|done]. simpl.
      destruct (index_in_range kinds (Z.of_nat i)) as (x & Hx & Hx'); [lia|].
      rewrite Nat2Z.id in Hx'. congruence.
  - intros (H1 & H2 & Hk & ->). by apply new_accepts.
Qed.

Lemma validation_accepts_iff_witness :
  REsearcher.new ["BR"; "x"; "BR"] [1; 2; -1; 9] [1; 2; -1]
  = Ok (REsearcher.mk ["BR"; "x"; "BR"] [1; 2; -1; 9] [1; 2; -1]).
Proof.
  apply validation_accepts_iff.
  split; [simpl; lia|]. split; [simpl; lia|]. split; [|done].
  by repeat constructor.
Defined.

Lemma to_arrays_valid states :
  kinds_valid states →
  Forall (λ k, FSM.valid_state_type k = true) (FSM.to_arrays states).1.1.
Proof.
  intros Hk. simpl. apply Forall_fmap. by apply Forall_sorted.
Qed.

(** The searcher can be built on what the compiler returns. *)
Lemma compile_new regexp kinds n1 n2 :
  REcompiler.compile regexp = Ok (kinds, n1, n2) →
  REsearcher.new kinds n1 n2 = Ok (REsearcher.mk kinds n1 n2).
Proof.
  intros (states & n & _ & Ha & _ & _ & Hk & _)%compile_final.
  apply to_arrays_valid in Hk. unfold FSM.to_arrays in Ha.
  injection Ha as -> -> ->.
  apply new_accepts; [by rewrite !length_fmap..|done].
Qed.

(** X3: the arrays of a successful compile always pass the searcher's
    validation. *)
Theorem compiled_arrays_validate regexp kinds n1 n2 :
  REcompiler.compile regexp = Ok (kinds, n1, n2) →
  REsearcher.new kinds n1 n2 = Ok (REsearcher.mk kinds n1 n2).
Proof.
  intros (states & n & _ & Ha & _ & _ & Hk & _)%compile_final.
  apply to_arrays_valid in Hk. unfold FSM.to_arrays in *.
  injection Ha as -> -> ->. simpl in Hk.
  apply new_accepts; [by rewrite !length_fmap..|done].
Qed.

Lemma compiled_arrays_validate_witness :
  REsearcher.new ["BR"; "a"; "BR"; "BR"] [2; 2; 3; -1] [2; 2; 1; -1]
  = Ok (REsearcher.mk ["BR"; "a"; "BR"; "BR"] [2; 2; 3; -1] [2; 2; 1; -1]).
Proof. apply (compiled_arrays_validate "a*"). reflexivity. Defined.

(** X4: for a pattern that compiles, compiling, constructing the searcher
    and searching a line always ends with [True] or [False]. *)
Theorem grep_returns regexp a line :
  REcompiler.compile regexp = Ok a →
  ∃ b, returns (λ fuel, grep fuel regexp line) b.
Proof.
  destruct a as [[kinds n1] n2]. intros Hc.
  destruct (search_terminates (REsearcher.mk kinds n1 n2) line)
    as (b & fuel & Hs); [by eapply compile_well_formed|].
  exists b, fuel. unfold grep. rewrite Hc. simpl.
  by rewrite (compile_new _ _ _ _ Hc).
Qed.

Lemma grep_returns_witness :
  ∃ b, returns (λ fuel, grep fuel "(a|b)*c" "abacab") b.
Proof.
  apply (grep_returns _ (["BR"; "a"; "BR"; "b"; "BR"; "c"; "BR"],
                         [4; 4; 1; 4; 5; 6; -1], [4; 4; 3; 4; 2; 6; -1])).
  reflexivity.
Defined.

(** ** Successors are array indices *)

Lemma sorted_lookup_num states n (i : nat) s :
  FSM.state_num <$> FSM.sorted states = seqZ 0 n →
  FSM.sorted states !! i = Some s → FSM.state_num s = Z.of_nat i.
Proof.
  intros Hnums Hs.
  assert ((FSM.state_num <$> FSM.sorted states) !! i
          = Some (FSM.state_num s)) as Hi
    by (by rewrite list_lookup_fmap, Hs).
  rewrite Hnums in Hi. apply lookup_seqZ in Hi. lia.
Qed.

(** X5: in the arrays of a successful compile every state but the last
    has both successors within the arrays: the searcher never follows a
    successor out of range. *)
Theorem compiled_successors_in_range regexp kinds n1 n2 (i : nat) v :
  REcompiler.compile regexp = Ok (kinds, n1, n2) →
  (S i < length kinds)%nat →
  n1 !! i = Some v ∨ n2 !! i = Some v →
  0 ≤ v < Z.of_nat (length kinds).
Proof.
  intros (states & n & _ & Ha & Hn & Hnums & _ & Hnext)%compile_final Hi Hv.
  unfold FSM.to_arrays in Ha. injection Ha as -> -> ->.
  rewrite length_fmap in *.
  assert (length (FSM.sorted states) = Z.to_nat (n + 1)) as Hlen.
  { by rewrite <- (length_fmap FSM.state_num), Hnums, length_seqZ. }
  destruct (lookup_lt_is_Some_2 (FSM.sorted states) i) as [s Hs]; [lia|].
  pose proof (sorted_lookup_num _ _ _ _ Hnums Hs) as Hnum.
  assert (s ∈ states) as Hin.
  { rewrite <- sorted_perm. by eapply list_elem_of_lookup_2. }
  apply (Forall_forall _ _) with (x := s) in Hnext; [|done].
  rewrite !list_lookup_fmap, Hs in Hv. simpl in Hv.
  destruct Hnext as [?|[? ?]]; [lia|].
  destruct Hv as [[= <-]|[= <-]]; lia.
Qed.

Lemma compiled_successors_in_range_witness :
  0 ≤ 8 < Z.of_nat (length ["BR"; "c"; "a"; "t"; "BR"; "d"; "o"; "g"; "BR"]).
Proof.
  apply (compiled_successors_in_range "cat|dog"
           ["BR"; "c"; "a"; "t"; "BR"; "d"; "o"; "g"; "BR"]
           [4; 2; 3; 8; 1; 6; 7; 8; -1] [4; 2; 3; 8; 5; 6; 7; 8; -1]
           3%nat 8).
  - reflexivity.
  - simpl. lia.
  - by left.
Defined.

(** ** The printed form *)

(** X6: after a successful compile, [print_fsm] writes one line per array
    index, in order, and line [i] reads [i,kind,next1,next2] with the
    entries the arrays hold at [i]: state numbers are the array indices. *)
Theorem print_fsm_rows regexp kinds n1 n2 :
  REcompiler.compile regexp = Ok (kinds, n1, n2) →
  ∃ lines,
    compile_and_print regexp = Ok lines
    ∧ length lines = length kinds
    ∧ ∀ (i : nat) k a b,
        kinds !! i = Some k → n1 !! i = Some a → n2 !! i = Some b →
        lines !! i = Some (row (Z.of_nat i) k a b).
Proof.
  intros (states & n & Hprint & Ha & Hn & Hnums & _)%compile_final.
  unfold FSM.to_arrays in Ha. injection Ha as -> -> ->.
  exists (FSM.print_fsm states). split; [done|].
  unfold FSM.print_fsm. rewrite !length_fmap. split; [done|].
  intros i k a b Hk H1 H2. rewrite !list_lookup_fmap in *.
  destruct (FSM.sorted states !! i) as [s|] eqn:Hs; [|done].
  simpl in *. rewrite (sorted_lookup_num _ _ _ _ Hnums Hs).
  by simplify_eq.
Qed.

Lemma print_fsm_rows_witness :
  ∃ lines,
    compile_and_print "a|b" = Ok lines
    ∧ length lines = length ["BR"; "a"; "BR"; "b"; "BR"]
    ∧ ∀ (i : nat) k a b,
        ["BR"; "a"; "BR"; "b"; "BR"] !! i = Some k →
        [2; 4; 1; 4; -1] !! i = Some a → [2; 4; 3; 4; -1] !! i = Some b →
        lines !! i = Some (row (Z.of_nat i) k a b).
Proof. apply (print_fsm_rows "a|b"). reflexivity. Defined.

(** ** The simulation on a chain *)

Section Chain.
Variable ks : list string.
Hypothesis Hks : Forall (λ k, k ≠ "BR") ks.
Hypothesis Hne : ks ≠ [].

Local Abbreviation n := (Z.of_nat (length ks)).
Local Abbreviation self := (chain_searcher ks).

Lemma chain_len : REsearcher.len (REsearcher.state_type self) = n + 2.
Proof.
  unfold REsearcher.len. simpl. rewrite length_app. simpl. lia.
Qed.

Lemma chain_kind_inner x k :
  ks !! x = Some k →
  index (REsearcher.state_type self) (Z.of_nat x + 1) = Ok k.
Proof.
  intros Hk. pose proof (lookup_lt_Some _ _ _ Hk) as Hlt.
  destruct (index_in_range (REsearcher.state_type self) (Z.of_nat x + 1))
    as (k' & -> & Hk'); [simpl; rewrite length_app; simpl; lia|].
  replace (Z.to_nat (Z.of_nat x + 1)) with (S x) in Hk' by lia.
  simpl in Hk'. rewrite lookup_app_l in Hk' by done. congruence.
Qed.

Lemma chain_next_inner x :
  (x < length ks)%nat →
  index (REsearcher.next1 self) (Z.of_nat x + 1) = Ok (Z.of_nat x + 2).
Proof.
  intros Hlt.
  destruct (index_in_range (REsearcher.next1 self) (Z.of_nat x + 1))
    as (v & -> & Hv).
  { simpl. rewrite length_app, length_seqZ. simpl. lia. }
  replace (Z.to_nat (Z.of_nat x + 1)) with (S x) in Hv by lia.
  simpl in Hv. rewrite lookup_app_l in Hv by (rewrite length_seqZ; lia).
  apply lookup_seqZ in Hv as [-> _]. f_equal. lia.
Qed.

Lemma chain_inner_not_end x k :
  ks !! x = Some k →
  REsearcher.is_end_br_state self (Z.of_nat x + 1) = Ok false
  ∧ REsearcher.is_branch self (Z.of_nat x + 1) = Ok false.
Proof.
  intros Hk. pose proof (lookup_lt_Some _ _ _ Hk) as Hlt.
  assert (k ≠ "BR") as Hbr by (by eapply Forall_lookup_1 in Hks).
  unfold REsearcher.is_end_br_state, REsearcher.is_branch.
  rewrite chain_len, (chain_kind_inner _ _ Hk). simpl.
  destruct (Z.ltb_spec (Z.of_nat x + 1) 0); [lia|].
  destruct (Z.leb_spec (n + 2) (Z.of_nat x + 1)); [lia|].
  destruct (Z.ltb_spec (Z.of_nat x + 1) (n + 2)); [|lia]. simpl.
  by destruct (String.eqb_spec k REsearcher.BR).
Qed.

Lemma chain_last_end :
  REsearcher.is_end_br_state self (n + 1) = Ok true.
Proof.
  unfold REsearcher.is_end_br_state. rewrite chain_len.
  destruct (Z.ltb_spec (n + 1) 0); [lia|].
  destruct (Z.leb_spec (n + 2) (n + 1)); [lia|]. simpl.
  assert (∀ (l : list string), index (l ++ ["BR"]) (Z.of_nat (length l)) = Ok "BR") as Hlast.
  { intros l. destruct (index_in_range (l ++ ["BR"]) (Z.of_nat (length l)))
      as (v & -> & Hv); [rewrite length_app; simpl; lia|].
    rewrite Nat2Z.id, lookup_app_r, Nat.sub_diag in Hv by done.
    simpl in Hv. congruence. }
  assert (∀ (l : list Z), index (l ++ [-1]) (Z.of_nat (length l)) = Ok (-1)) as Hlast'.
  { intros l. destruct (index_in_range (l ++ [-1]) (Z.of_nat (length l)))
      as (v & -> & Hv); [rewrite length_app; simpl; lia|].
    rewrite Nat2Z.id, lookup_app_r, Nat.sub_diag in Hv by done.
    simpl in Hv. congruence. }
  replace (n + 1) with (Z.of_nat (length ("BR" :: ks))) by (simpl; lia).
  change ("BR" :: ks ++ ["BR"]) with (("BR" :: ks) ++ ["BR"]).
  rewrite Hlast. simpl.
  replace (Z.of_nat (S (length ks)))
    with (Z.of_nat (length (1 :: seqZ 2 n)))
    by (simpl; rewrite length_seqZ; lia).
  change (1 :: seqZ 2 n ++ [-1]) with ((1 :: seqZ 2 n) ++ [-1]).
  by rewrite !Hlast'.
Qed.

Lemma get_past_end (line : string) (p : nat) :
  (String.length line ≤ p)%nat → String.get p line = None.
Proof.
  revert p. induction line as [|c line IH]; intros p Hp; simpl in *; [done|].
  destruct p; [lia|]. apply IH. lia.
Qed.

(** From consuming state [j+1] on, the loop returns whether the rest of
    the chain matches the line from the current position. *)
Lemma run_chain line rest :
  ∀ (j pos fuel : nat) c,
    drop j ks = rest → (j ≤ length ks)%nat →
    ((0 < j)%nat → c = true) →
    (2 * length rest + 1 ≤ fuel)%nat →
    ∃ st',
      REsearcher.run fuel self line
        (REsearcher.mkLocals [Z.of_nat j + 1; REsearcher.SCAN] pos c)
      = Ok (matches_at rest line pos, st').
Proof.
  induction rest as [|k rest IH]; intros j pos fuel c Hdrop Hj Hc Hfuel.
  - assert (j = length ks) as ->.
    { apply (f_equal length) in Hdrop. rewrite length_drop in Hdrop.
      simpl in Hdrop. lia. }
    destruct fuel as [|fuel]; [simpl in Hfuel; lia|].
    rewrite Hc by (destruct ks; [done|simpl; lia]).
    simpl. unfold REsearcher.step. simpl.
    destruct (Z.eqb_spec (n + 1) REsearcher.SCAN) as [He|_];
      [unfold REsearcher.SCAN in He; lia|].
    rewrite chain_last_end. simpl. eauto.
  - assert (ks !! j = Some k) as Hk.
    { pose proof (lookup_drop ks j 0) as H.
      by rewrite Hdrop, Nat.add_0_r in H. }
    assert (drop (S j) ks = rest) as Hdrop'.
    { replace (S j) with (j + 1)%nat by lia.
      by rewrite <- drop_drop, Hdrop. }
    pose proof (lookup_lt_Some _ _ _ Hk) as Hlt.
    destruct (chain_inner_not_end _ _ Hk) as [Hend Hbr].
    destruct fuel as [|[|fuel]]; [simpl in Hfuel; lia..|].
    cbn [REsearcher.run]. unfold REsearcher.step at 1.
    cbn [REsearcher.deq REsearcher.pos REsearcher.consumed_input].
    destruct (Z.eqb_spec (Z.of_nat j + 1) REsearcher.SCAN) as [He|_];
      [unfold REsearcher.SCAN in He; lia|].
    rewrite Hend. cbn [obind andb]. rewrite Hbr. cbn [obind].
    cbn [matches_at].
    destruct (Nat.leb_spec (String.length line) pos) as [Hpast|Hin].
    { rewrite get_past_end by done. simpl. eauto. }
    destruct (get_in_range line pos) as [ch Hch]; [done|]. rewrite Hch.
    rewrite chain_len.
    destruct (Z.ltb_spec (Z.of_nat j + 1) (n + 2)) as [_|]; [|lia].
    rewrite (chain_kind_inner _ _ Hk). cbn [obind].
    rewrite (chain_next_inner _ Hlt). cbn [obind].
    unfold kind_matches.
    assert (∃ st',
      REsearcher.run (S fuel) self line
        (REsearcher.mkLocals [REsearcher.SCAN; Z.of_nat j + 2] pos c)
      = Ok (matches_at rest line (S pos), st')) as [st' Hnext].
    { cbn [REsearcher.run]. unfold REsearcher.step at 1. simpl.
      destruct (Nat.ltb_spec pos (String.length line)); [|lia]. simpl.
      replace (Z.of_nat j + 2) with (Z.of_nat (S j) + 1) by lia.
      apply IH; [done|lia|done|simpl in Hfuel; lia]. }
    unfold REsearcher.WC.
    destruct (String.eqb k "WC"); cbn [orb andb obind].
    { exists st'. exact Hnext. }
    destruct (Nat.eqb (String.length k) 1 && String.eqb k (chr ch));
      cbn [orb andb obind]; [by exists st'|].
    simpl. eauto.
Qed.

Lemma chain_entry :
  REsearcher.is_end_br_state self 0 = Ok false
  ∧ REsearcher.is_branch self 0 = Ok true
  ∧ index (REsearcher.next1 self) 0 = Ok 1
  ∧ index (REsearcher.next2 self) 0 = Ok 1.
Proof.
  assert (index (REsearcher.state_type self) 0 = Ok "BR") as Hk.
  { destruct (index_in_range (REsearcher.state_type self) 0)
      as (v & -> & Hv); [simpl; lia|]. simpl in Hv. congruence. }
  assert (index (REsearcher.next1 self) 0 = Ok 1) as H1.
  { destruct (index_in_range (REsearcher.next1 self) 0)
      as (v & -> & Hv); [simpl; lia|]. simpl in Hv. congruence. }
  unfold REsearcher.is_end_br_state, REsearcher.is_branch.
  rewrite chain_len, Hk. cbn [obind]. change (REsearcher.next2 self)
    with (REsearcher.next1 self). rewrite H1. cbn [obind].
  destruct (Z.leb_spec (n + 2) 0); [lia|].
  destruct (Z.ltb_spec 0 (n + 2)); [|lia]. done.
Qed.

(** The closure of the entry state is the first consuming state. *)
Lemma chain_enter start :
  REsearcher.enter self start
  = Ok (REsearcher.mkLocals [1; REsearcher.SCAN] start false).
Proof.
  destruct chain_entry as (He0 & Hb0 & H1 & H2).
  assert (0 < length ks)%nat as Hpos by (destruct ks; [done|simpl; lia]).
  destruct (lookup_lt_is_Some_2 ks 0 Hpos) as [k Hk].
  destruct (chain_inner_not_end _ _ Hk) as [He1 Hb1].
  change (Z.of_nat 0 + 1) with 1 in He1, Hb1.
  unfold REsearcher.enter, REsearcher.add_state.
  cbn [Z.ltb Z.compare obind].
  replace (length (REsearcher.state_type self)) with (S (S (length ks)))
    by (simpl; rewrite length_app; simpl; lia).
  cbn [REsearcher.add_state_recursive Z.ltb Z.compare orb].
  rewrite bool_decide_eq_false_2 by set_solver.
  rewrite He0. cbn [obind]. rewrite Hb0. cbn [obind].
  rewrite H1. cbn [obind Z.ltb Z.compare orb].
  rewrite bool_decide_eq_false_2 by set_solver.
  rewrite He1. cbn [obind]. rewrite Hb1. cbn [obind].
  rewrite H2. cbn [obind Z.ltb Z.compare orb].
  rewrite bool_decide_eq_true_2 by set_solver. done.
Qed.

(** On a chain the simulation from a start offset tells whether the
    kinds match the line there. *)
Lemma match_from_position_chain line start fuel :
  (2 * length ks + 1 ≤ fuel)%nat →
  REsearcher.match_from_position fuel self line start
  = Ok (matches_at ks line start).
Proof.
  intros Hfuel. unfold REsearcher.match_from_position.
  rewrite chain_enter. cbn [obind].
  destruct (run_chain line ks 0 start fuel false) as [st' Hrun];
    [done|lia|lia|done|].
  change (Z.of_nat 0 + 1) with 1 in Hrun. by rewrite Hrun.
Qed.

Lemma search_from_chain line positions fuel :
  (2 * length ks + 1 ≤ fuel)%nat →
  REsearcher.search_from fuel self line positions
  = Ok (existsb (matches_at ks line) positions).
Proof.
  intros Hfuel. induction positions as [|p ps IH]; simpl; [done|].
  rewrite match_from_position_chain by done. simpl.
  by destruct (matches_at ks line p).
Qed.
End Chain.

(** ** Patterns of ordinary characters and dots *)

Lemma chain_states_types start ks :
  FSM.state_type <$> chain_states start ks = ks.
Proof.
  revert start. induction ks as [|k ks IH]; intros start; simpl; [done|].
  f_equal. apply IH.
Qed.

Lemma chain_states_next1 start ks :
  FSM.next1 <$> chain_states start ks = seqZ (start + 1) (Z.of_nat (length ks)).
Proof.
  revert start. induction ks as [|k ks IH]; intros start; [done|].
  cbn [chain_states length]. rewrite fmap_cons, IH.
  rewrite (seqZ_cons (start + 1)) by lia. simpl. do 2 f_equal; lia.
Qed.

Lemma chain_states_next2 start ks :
  FSM.next2 <$> chain_states start ks = seqZ (start + 1) (Z.of_nat (length ks)).
Proof.
  revert start. induction ks as [|k ks IH]; intros start; [done|].
  cbn [chain_states length]. rewrite fmap_cons, IH.
  rewrite (seqZ_cons (start + 1)) by lia. simpl. do 2 f_equal; lia.
Qed.

Lemma to_arrays_chain ks :
  FSM.to_arrays
    (FSM.mkState 0 "BR" 1 1
     :: chain_states 1 ks
     ++ [FSM.mkState (Z.of_nat (length ks) + 1) "BR" (-1) (-1)])
  = chain_arrays ks.
Proof.
  unfold FSM.to_arrays. rewrite sorted_least.
  2:{ apply Forall_app. split.
      - eapply Forall_impl; [apply chain_states_nums|]. simpl. intros. lia.
      - constructor; [simpl; lia|constructor]. }
  rewrite sorted_chain_states by (simpl; lia).
  rewrite !fmap_cons, !fmap_app.
  by rewrite chain_states_types, chain_states_next1, chain_states_next2.
Qed.

Lemma is_vocab_facts c :
  REcompiler.is_vocab c = true →
  REcompiler.starts_factor c = true
  ∧ Ascii.eqb c "\" = false ∧ Ascii.eqb c "?" = false
  ∧ Ascii.eqb c "+" = false ∧ Ascii.eqb c "*" = false
  ∧ Ascii.eqb c "|" = false ∧ Ascii.eqb c NUL = false.
Proof.
  intros Hv. unfold REcompiler.starts_factor. rewrite Hv.
  unfold REcompiler.is_vocab in Hv. simpl in Hv.
  apply andb_true_iff in Hv as [H Hnul%negb_true_iff].
  apply negb_true_iff in H.
  repeat (apply orb_false_elim in H as [? H]). auto 10.
Qed.

(** The lookahead after the ordinary characters read so far: the next
    ordinary character or the terminator, never a quantifier or a bar. *)
Lemma vocab_lookahead pre cs c :
  Forall (λ c, REcompiler.is_vocab c = true) cs →
  (pre ++ cs ++ [NUL]) !! length pre = Some c →
  Ascii.eqb c "?" = false ∧ Ascii.eqb c "+" = false
  ∧ Ascii.eqb c "*" = false ∧ Ascii.eqb c "|" = false.
Proof.
  intros Hcs Hc. rewrite lookup_app_r, Nat.sub_diag in Hc by done.
  destruct Hcs as [|c' cs Hc' _]; simpl in Hc; simplify_eq; [done|].
  apply is_vocab_facts in Hc'. naive_solver.
Qed.

(** [factor] on an ordinary character appends one state. *)
Lemma factor_vocab e pre c cs ks :
  REcompiler.is_vocab c = true →
  Forall (λ c, REcompiler.is_vocab c = true) cs →
  REcompiler.factor e
    (REcompiler.mk (pre ++ c :: cs ++ [NUL]) (length pre)
       (Z.of_nat (length ks) + 1)
       (FSM.mkState 0 "BR" 0 0 :: chain_states 1 ks))
  = Ok (Z.of_nat (length ks) + 1,
        REcompiler.mk (pre ++ c :: cs ++ [NUL]) (S (length pre))
          (Z.of_nat (length ks) + 1 + 1)
          (FSM.mkState 0 "BR" 0 0 :: chain_states 1 (ks ++ [kind_of c]))).
Proof.
  intros Hc Hcs. rewrite factor_eq, primary_eq.
  rewrite list_lookup_middle by done.
  destruct (is_vocab_facts c Hc) as (_ & -> & _). rewrite Hc.
  fold (kind_of c). rewrite set_state_fsm_chain.
  destruct ((pre ++ c :: cs ++ [NUL]) !! S (length pre)) as [c'|] eqn:Hc';
    [|done].
  replace (pre ++ c :: cs ++ [NUL]) with ((pre ++ [c]) ++ cs ++ [NUL]) in Hc'
    by (by rewrite <- app_assoc).
  replace (S (length pre)) with (length (pre ++ [c])) in Hc'
    by (rewrite length_app; simpl; lia).
  by destruct (vocab_lookahead _ _ _ Hcs Hc') as (-> & -> & -> & _).
Qed.

Lemma term_loop_vocab e cs :
  ∀ pre ks fuel,
    Forall (λ c, REcompiler.is_vocab c = true) cs →
    (length cs < fuel)%nat →
    REcompiler.term_loop (REcompiler.factor e) fuel
      (REcompiler.mk (pre ++ cs ++ [NUL]) (length pre)
         (Z.of_nat (length ks) + 1)
         (FSM.mkState 0 "BR" 0 0 :: chain_states 1 ks))
    = Ok (tt,
          REcompiler.mk (pre ++ cs ++ [NUL]) (length pre + length cs)
            (Z.of_nat (length ks + length cs) + 1)
            (FSM.mkState 0 "BR" 0 0
             :: chain_states 1 (ks ++ (kind_of <$> cs)))).
Proof.
  induction cs as [|c cs IH]; intros pre ks fuel Hcs Hfuel;
    (destruct fuel as [|fuel]; [simpl in Hfuel; lia|]);
    rewrite term_loop_eq; unfold REcompiler.peek; simpl.
  - rewrite list_lookup_middle by done. simpl.
    by rewrite !Nat.add_0_r, app_nil_r.
  - apply Forall_cons in Hcs as [Hc Hcs].
    rewrite list_lookup_middle by done.
    destruct (is_vocab_facts c Hc) as (-> & _).
    rewrite (factor_vocab e pre c cs ks) by done.
    replace (pre ++ c :: cs ++ [NUL]) with ((pre ++ [c]) ++ cs ++ [NUL])
      by (by rewrite <- app_assoc).
    replace (S (length pre)) with (length (pre ++ [c]))
      by (rewrite length_app; simpl; lia).
    replace (Z.of_nat (length ks) + 1 + 1)
      with (Z.of_nat (length (ks ++ [kind_of c])) + 1)
      by (rewrite length_app; simpl; lia).
    rewrite IH by (done || simpl in Hfuel; lia).
    rewrite !length_app, <- !app_assoc. simpl.
    do 3 f_equal; lia.
Qed.

Lemma expression_vocab fuel c cs :
  REcompiler.is_vocab c = true →
  Forall (λ c, REcompiler.is_vocab c = true) cs →
  (length cs < fuel)%nat →
  REcompiler.expression (S fuel)
    (REcompiler.mk (c :: cs ++ [NUL]) 0 1 [FSM.mkState 0 "BR" 0 0])
  = Ok (1, REcompiler.mk (c :: cs ++ [NUL]) (S (length cs))
             (Z.of_nat (S (length cs)) + 1)
             (FSM.mkState 0 "BR" 0 0
              :: chain_states 1 (kind_of <$> c :: cs))).
Proof.
  intros Hc Hcs Hfuel. rewrite expression_eq, term_eq.
  change (REcompiler.mk (c :: cs ++ [NUL]) 0 1 [FSM.mkState 0 "BR" 0 0])
    with (REcompiler.mk ([] ++ c :: cs ++ [NUL]) (length (@nil ascii))
            (Z.of_nat (length (@nil string)) + 1)
            (FSM.mkState 0 "BR" 0 0 :: chain_states 1 [])).
  rewrite factor_vocab by done.
  change (REcompiler.mk ([] ++ c :: cs ++ [NUL]) (S (length (@nil ascii)))
            (Z.of_nat (length (@nil string)) + 1 + 1)
            (FSM.mkState 0 "BR" 0 0 :: chain_states 1 ([] ++ [kind_of c])))
    with (REcompiler.mk ([c] ++ cs ++ [NUL]) (length [c])
            (Z.of_nat (length [kind_of c]) + 1)
            (FSM.mkState 0 "BR" 0 0 :: chain_states 1 [kind_of c])).
  rewrite term_loop_vocab by done.
  change ([c] ++ cs ++ [NUL]) with (c :: cs ++ [NUL]).
  cbn [length Nat.add app].
  replace ((c :: cs ++ [NUL]) !! S (length cs)) with (Some NUL).
  2:{ symmetry. apply (list_lookup_middle (c :: cs) [] NUL). done. }
  done.
Qed.

Lemma list_ascii_of_string_nil s : list_ascii_of_string s = [] → s = "".
Proof. by destruct s. Qed.

(** The arrays of a pattern of ordinary characters and dots: a chain with
    one state per character. *)
Lemma compile_vocab regexp :
  regexp ≠ "" →
  Forall (λ c, REcompiler.is_vocab c = true) (list_ascii_of_string regexp) →
  REcompiler.compile regexp
  = Ok (chain_arrays (kind_of <$> list_ascii_of_string regexp)).
Proof.
  intros Hne Hcs. unfold REcompiler.compile. rewrite init_Ok. cbn [obind].
  unfold initial. rewrite list_ascii_of_string_app.
  destruct (list_ascii_of_string regexp) as [|c cs] eqn:Hchars.
  { by apply list_ascii_of_string_nil in Hchars. }
  apply Forall_cons in Hcs as [Hc Hcs].
  change (list_ascii_of_string (chr NUL)) with [NUL].
  unfold REcompiler.fuel_of. cbn [REcompiler.chars].
  unfold REcompiler.compile_body, REcompiler.peek. unfold_M.
  rewrite <- app_comm_cons.
  rewrite expression_vocab by (done || (cbn [length]; rewrite length_app; simpl; lia)).
  unfold_M.
  replace ((c :: cs ++ [NUL]) !! S (length cs)) with (Some NUL).
  2:{ symmetry. apply (list_lookup_middle (c :: cs) [] NUL). done. }
  unfold_M. cbn [Ascii.eqb NUL Ascii.zero negb Bool.eqb andb].
  unfold_M. unfold FSM.add_state, FSM.StateType, FSM.update_state.
  rewrite <- (to_arrays_chain (kind_of <$> c :: cs)).
  unfold REcompiler.BR, REcompiler.END. simpl. rewrite length_fmap.
  do 5 f_equal; lia.
Qed.


Lemma kind_of_matches c x :
  kind_matches (kind_of c) x = Ascii.eqb c "." || Ascii.eqb c x.
Proof.
  unfold kind_matches, kind_of, chr.
  destruct (Ascii.eqb c ".") eqn:Hdot; [done|].
  cbn [String.eqb String.length Nat.eqb andb orb].
  by destruct (Ascii.eqb c x), (Ascii.eqb c "W").
Qed.

Lemma matches_at_kind_of cs line :
  ∀ pos, matches_at (kind_of <$> cs) line pos = literal_at cs line pos.
Proof.
  induction cs as [|c cs IH]; intros pos; [done|].
  cbn [fmap list_fmap matches_at literal_at].
  destruct (String.get pos line); [|done].
  by rewrite kind_of_matches, <- IH.
Qed.

Lemma kind_of_not_BR c : kind_of c ≠ "BR".
Proof. unfold kind_of, chr. by destruct (Ascii.eqb c "."). Qed.

Lemma kind_of_valid c : FSM.valid_state_type (kind_of c) = true.
Proof.
  unfold kind_of, chr, FSM.valid_state_type.
  destruct (Ascii.eqb c "."); [done|].
  cbn [String.length Nat.eqb negb andb]. by rewrite andb_false_r.
Qed.

(** X7: a non-empty pattern made only of ordinary characters and dots
    compiles, passes validation, and the search of a line returns whether
    the pattern occurs in it as a substring, a dot standing for any one
    character. *)
Theorem literal_pattern_search regexp line :
  regexp ≠ "" →
  Forall (λ c, REcompiler.is_vocab c = true) (list_ascii_of_string regexp) →
  returns (λ fuel, grep fuel regexp line) (occurs regexp line).
Proof.
  intros Hne Hcs. set (cs := list_ascii_of_string regexp).
  exists (2 * length (kind_of <$> cs) + 1)%nat.
  unfold grep. rewrite compile_vocab by done. fold cs.
  unfold chain_arrays. cbn [obind].
  rewrite new_accepts.
  - cbn [obind]. unfold REsearcher.search_pattern_in_line.
    change (REsearcher.mk _ _ _) with (chain_searcher (kind_of <$> cs)).
    rewrite (search_from_chain (kind_of <$> cs)).
    + unfold occurs. fold cs. f_equal.
      induction (seq 0 (String.length line)) as [|p ps IH]; [done|].
      simpl. by rewrite matches_at_kind_of, IH.
    + apply Forall_fmap, Forall_true. intros c. apply kind_of_not_BR.
    + intros Hnil%fmap_nil_inv. by apply list_ascii_of_string_nil in Hnil.
    + done.
  - simpl. rewrite !length_app, length_seqZ. simpl. lia.
  - simpl. rewrite !length_app, length_seqZ. simpl. lia.
  - apply Forall_cons. split; [done|]. apply Forall_app. split.
    + apply Forall_fmap, Forall_true. intros c. apply kind_of_valid.
    + by apply Forall_singleton.
Qed.

Lemma literal_pattern_search_witness :
  returns (λ fuel, grep fuel "a.c" "xxabcxx") (occurs "a.c" "xxabcxx")
  ∧ occurs "a.c" "xxabcxx" = true.
Proof.
  split; [|reflexivity].
  apply literal_pattern_search.
  - discriminate.
  - repeat constructor.
Defined.


(** ** A match survives text around the line *)

Lemma string_length_app (a b : string) :
  String.length (a ++ b) = (String.length a + String.length b)%nat.
Proof. induction a as [|c a IH]; simpl; [done|]. by rewrite IH. Qed.

Lemma string_get_Some (s : string) p :
  (p < String.length s)%nat → ∃ c, String.get p s = Some c.
Proof.
  revert p. induction s as [|c s IH]; intros p Hp; simpl in *; [lia|].
  destruct p as [|p]; [by eexists|]. apply IH. lia.
Qed.

Lemma string_get_context (pre line suf : string) p :
  (p < String.length line)%nat →
  String.get (String.length pre + p) (pre ++ line ++ suf) = String.get p line.
Proof.
  intros Hp. rewrite (Nat.add_comm _ p), <- append_correct2.
  symmetry. by apply append_correct1.
Qed.

Lemma add_state_recursive_app self x fuel :
  ∀ d state visited,
    REsearcher.add_state_recursive fuel self (d ++ x) state visited
    = let* (d', v') := REsearcher.add_state_recursive fuel self d state visited in
      Ok (d' ++ x, v').
Proof.
  induction fuel as [|fuel IH]; intros d state visited; [done|].
  cbn [REsearcher.add_state_recursive].
  destruct ((state <? 0) || bool_decide (state ∈ visited)); [done|].
  destruct (REsearcher.is_end_br_state self state) as [[|]| |]; try done.
  cbn [obind].
  destruct (REsearcher.is_branch self state) as [[|]| |]; try done.
  cbn [obind].
  destruct (index (REsearcher.next1 self) state) as [n1| |]; try done.
  cbn [obind]. rewrite IH.
  destruct (REsearcher.add_state_recursive fuel self d n1 _)
    as [[d1 v1]| |]; try done.
  cbn [obind].
  destruct (index (REsearcher.next2 self) state) as [n2| |]; try done.
  cbn [obind]. apply IH.
Qed.

Lemma add_state_app self d x state :
  REsearcher.add_state self (d ++ x) state
  = let* d' := REsearcher.add_state self d state in Ok (d' ++ x).
Proof.
  unfold REsearcher.add_state. destruct (state <? 0); [done|].
  rewrite add_state_recursive_app.
  by destruct (REsearcher.add_state_recursive _ self d state ∅)
    as [[d1 v1]| |].
Qed.


Section Context.
Variable self : REsearcher.t.
Variables pre line suf : string.

Local Abbreviation line' := (pre ++ line ++ suf)%string.

Lemma in_context_enter start st :
  REsearcher.enter self start = Ok st →
  ∃ st', REsearcher.enter self (String.length pre + start) = Ok st'
         ∧ in_context pre line st st'.
Proof.
  unfold REsearcher.enter.
  destruct (REsearcher.add_state self [REsearcher.SCAN] 0) as [d| |];
    [|done..].
  cbn [obind]. intros [= <-]. eexists. split; [done|].
  exists []. simpl. rewrite app_nil_r. repeat split; try done; lia.
Qed.

(** The loop returns [False] only on an empty deque or on a lone scan
    marker. *)
Lemma step_gives_up l st :
  REsearcher.step self l st = Ok (REsearcher.Return false) →
  REsearcher.deq st = [] ∨ REsearcher.deq st = [REsearcher.SCAN].
Proof.
  destruct st as [[|state rest] p cn]; [by left|].
  unfold REsearcher.step. simpl.
  destruct (Z.eqb_spec state REsearcher.SCAN) as [->|_].
  { destruct rest; [by right|]. by destruct (_ <? _)%nat. }
  destruct (REsearcher.is_end_br_state self state) as [e| |]; [|done..].
  simpl. destruct (e && cn); [done|].
  destruct (REsearcher.is_branch self state) as [[|]| |]; [| |done..]; simpl.
  { destruct (index (REsearcher.next1 self) state); [|done..]. simpl.
    destruct (REsearcher.add_state self rest _); [|done..]. simpl.
    destruct (index (REsearcher.next2 self) state); [|done..]. simpl.
    by destruct (REsearcher.add_state self _ _). }
  destruct (_ <=? _)%nat; [done|].
  destruct (String.get p l); [|done].
  destruct (state <? _); [|done].
  destruct (index (REsearcher.state_type self) state); [|done..]. simpl.
  destruct (String.eqb _ _).
  { by destruct (index (REsearcher.next1 self) state). }
  destruct (_ && _); [|done].
  by destruct (index (REsearcher.next1 self) state).
Qed.

(** It returns [True] on an accepting state, once input was consumed. *)
Lemma step_accepts l state rest p :
  (state =? REsearcher.SCAN) = false →
  REsearcher.is_end_br_state self state = Ok true →
  REsearcher.step self l (REsearcher.mkLocals (state :: rest) p true)
  = Ok (REsearcher.Return true).
Proof. intros Hs He. unfold REsearcher.step. simpl. by rewrite Hs, He. Qed.

Lemma step_accepts_inv l st :
  REsearcher.step self l st = Ok (REsearcher.Return true) →
  ∃ state rest,
    REsearcher.deq st = state :: rest
    ∧ (state =? REsearcher.SCAN) = false
    ∧ REsearcher.is_end_br_state self state = Ok true
    ∧ REsearcher.consumed_input st = true.
Proof.
  destruct st as [[|state rest] p cn]; [done|].
  unfold REsearcher.step. simpl.
  destruct (state =? REsearcher.SCAN) eqn:Hs.
  { destruct rest; [done|]. by destruct (_ <? _)%nat. }
  destruct (REsearcher.is_end_br_state self state) as [e| |] eqn:He;
    [|done..].
  simpl. destruct e, cn; simpl; [intros _; by exists state, rest|..].
  all: destruct (REsearcher.is_branch self state) as [[|]| |];
    [| |done..]; simpl.
  all: try (destruct (index (REsearcher.next1 self) state); [|done..]; simpl;
    destruct (REsearcher.add_state self rest _); [|done..]; simpl;
    destruct (index (REsearcher.next2 self) state); [|done..]; simpl;
    by destruct (REsearcher.add_state self _ _)).
  all: destruct (_ <=? _)%nat; [done|].
  all: destruct (String.get p l); [|done].
  all: destruct (state <? _); [|done].
  all: destruct (index (REsearcher.state_type self) state); [|done..]; simpl.
  all: destruct (String.eqb _ _);
    [by destruct (index (REsearcher.next1 self) state)|].
  all: destruct (_ && _); [|done].
  all: by destruct (index (REsearcher.next1 self) state).
Qed.

(** Two iterations that both go on keep the runs related. *)
Lemma step_Continue_in_context st st' s s' :
  in_context pre line st st' →
  REsearcher.step self line st = Ok (REsearcher.Continue s) →
  REsearcher.step self line' st' = Ok (REsearcher.Continue s') →
  in_context pre line s s'.
Proof.
  destruct st as [d p cn], st' as [d' p' cn'].
  intros (extra & Hd & Hc & Hp & Hsync). simpl in Hd, Hc, Hp, Hsync.
  subst d'. unfold REsearcher.step. cbn [REsearcher.deq REsearcher.pos
    REsearcher.consumed_input].
  destruct d as [|state rest]; [done|].
  rewrite <- app_comm_cons.
  rewrite !string_length_app.
  destruct (state =? REsearcher.SCAN).
  { destruct rest as [|r rest]; [done|].
    rewrite <- app_comm_cons.
    destruct (Nat.ltb_spec p (String.length line)) as [Hlt|Hge].
    - destruct (Hsync Hlt) as (-> & -> & ->).
      destruct (Nat.ltb_spec (String.length pre + p)
                  (String.length pre
                   + (String.length line + String.length suf))); [|lia].
      intros [= <-] [= <-]. exists []. simpl.
      rewrite !app_nil_r. repeat split; try done; lia.
    - intros [= <-].
      destruct (p' <? _)%nat; intros [= <-].
      + exists (extra ++ [REsearcher.SCAN]). simpl.
        rewrite <- app_assoc. repeat split; try done; lia.
      + exists extra. simpl. repeat split; try done; lia. }
  destruct (REsearcher.is_end_br_state self state) as [e| |]; [|done..].
  cbn [obind].
  destruct (e && cn); [done|]. destruct (e && cn'); [done|].
  destruct (REsearcher.is_branch self state) as [[|]| |]; [| |done..].
  { cbn [obind].
    destruct (index (REsearcher.next1 self) state) as [n1| |]; [|done..].
    cbn [obind]. rewrite add_state_app.
    destruct (REsearcher.add_state self rest n1) as [d1| |]; [|done..].
    cbn [obind].
    destruct (index (REsearcher.next2 self) state) as [n2| |]; [|done..].
    cbn [obind]. rewrite add_state_app.
    destruct (REsearcher.add_state self d1 n2) as [d2| |]; [|done..].
    cbn [obind]. intros [= <-] [= <-].
    exists extra. simpl. do 3 (split; [done|]). exact Hsync. }
  cbn [obind].
  destruct (Nat.leb_spec (String.length line) p) as [Hge|Hlt].
  { intros [= <-].
    destruct (_ <=? p')%nat;
      [intros [= <-]; exists extra; simpl; repeat split; try done; lia|].
    destruct (String.get p' line'); [|done].
    destruct (state <? _);
      [|intros [= <-]; exists extra; simpl; repeat split; try done; lia].
    destruct (index (REsearcher.state_type self) state) as [ty| |];
      [|done..].
    cbn [obind].
    destruct (String.eqb ty REsearcher.WC).
    { destruct (index (REsearcher.next1 self) state) as [n1| |]; [|done..].
      intros [= <-]. exists (extra ++ [n1]). simpl.
      rewrite <- app_assoc. repeat split; try done; lia. }
    destruct (_ && _);
      [|intros [= <-]; exists extra; simpl; repeat split; try done; lia].
    destruct (index (REsearcher.next1 self) state) as [n1| |]; [|done..].
    intros [= <-]. exists (extra ++ [n1]). simpl.
    rewrite <- app_assoc. repeat split; try done; lia. }
  destruct (Hsync Hlt) as (-> & -> & ->).
  destruct (Nat.leb_spec (String.length pre
              + (String.length line + String.length suf))
              (String.length pre + p)); [lia|].
  rewrite string_get_context by done. rewrite app_nil_r.
  assert (∀ d1 : list Z,
            in_context pre line (REsearcher.mkLocals d1 p cn)
              (REsearcher.mkLocals d1 (String.length pre + p) cn)) as Hsame.
  { intros d1. exists []. simpl. rewrite app_nil_r.
    repeat split; try done; lia. }
  destruct (String.get p line); [|done].
  destruct (state <? _); [|by intros [= <-] [= <-]].
  destruct (index (REsearcher.state_type self) state) as [ty| |]; [|done..].
  cbn [obind].
  destruct (String.eqb ty REsearcher.WC).
  { destruct (index (REsearcher.next1 self) state) as [n1| |]; [|done..].
    by intros [= <-] [= <-]. }
  destruct (_ && _); [|by intros [= <-] [= <-]].
  destruct (index (REsearcher.next1 self) state) as [n1| |]; [|done..].
  by intros [= <-] [= <-].
Qed.

(** As long as the run on [line] has not returned [False], the run on the
    longer line has not either, and it returns [True] no later. *)
Lemma run_in_context fuel :
  ∀ fuel' st st' r b' r',
    in_context pre line st st' →
    REsearcher.run fuel self line st = Ok (true, r) →
    REsearcher.run fuel' self line' st' = Ok (b', r') →
    b' = true.
Proof.
  induction fuel as [|fuel IH]; intros fuel' st st' r b' r' Hctx; [done|].
  destruct fuel' as [|fuel']; [done|]. simpl.
  intros (c & Hstep & Hrun)%obind_Ok (c' & Hstep' & Hrun')%obind_Ok.
  destruct c as [s|b].
  - destruct c' as [s'|b''].
    + eapply IH; [|exact Hrun|exact Hrun'].
      by eapply step_Continue_in_context.
    + assert (b'' = b') as -> by congruence. destruct b'; [done|].
      apply step_gives_up in Hstep'.
      destruct Hctx as (extra & Hd & _).
      destruct st as [[|x d] p cn]; [done|]. simpl in Hd.
      destruct Hstep' as [Hnil|Hone]; [by rewrite Hnil in Hd|].
      rewrite Hone in Hd. injection Hd as <- Hd.
      symmetry in Hd. apply app_eq_nil in Hd as [-> _].
      by unfold REsearcher.step in Hstep.
  - assert (b = true) as -> by congruence.
    apply step_accepts_inv in Hstep as (state & rest & Hd & Hs & He & Hcn).
    destruct Hctx as (extra & Hd' & Hc & _).
    destruct st' as [d' p' cn']. simpl in Hd', Hc.
    rewrite Hd in Hd'. subst d'. rewrite (Hc Hcn) in Hstep'.
    rewrite <- app_comm_cons, step_accepts in Hstep' by done.
    injection Hstep' as <-. congruence.
Qed.

Lemma match_from_position_in_context fuel fuel' start b' :
  REsearcher.match_from_position fuel self line start = Ok true →
  REsearcher.match_from_position fuel' self line'
    (String.length pre + start) = Ok b' →
  b' = true.
Proof.
  unfold REsearcher.match_from_position.
  intros (st & Hst & ([b r] & Hrun & [= ->])%obind_Ok)%obind_Ok.
  destruct (in_context_enter start st Hst) as (st' & -> & Hctx).
  cbn [obind]. intros ([b r'] & Hrun' & [= ->])%obind_Ok.
  by eapply run_in_context.
Qed.
End Context.


Lemma search_from_true fuel self line positions :
  REsearcher.search_from fuel self line positions = Ok true →
  ∃ p, p ∈ positions
       ∧ REsearcher.match_from_position fuel self line p = Ok true.
Proof.
  induction positions as [|q qs IH]; simpl; [done|].
  intros ([|] & Hq & Hrest)%obind_Ok.
  - exists q. split; [left|done].
  - destruct (IH Hrest) as (p & Hp & Hm). exists p. split; [by right|done].
Qed.

Lemma search_from_hit fuel fuel' self line positions p b :
  REsearcher.search_from fuel self line positions = Ok b →
  p ∈ positions →
  REsearcher.match_from_position fuel' self line p = Ok true →
  b = true.
Proof.
  intros Hs Hp Hm. induction positions as [|q qs IH]; simpl in Hs.
  { by apply elem_of_nil in Hp. }
  apply obind_Ok in Hs as ([|] & Hq & Hrest); [congruence|].
  apply elem_of_cons in Hp as [->|Hp]; [|by apply IH].
  pose proof (match_from_position_mono fuel (fuel `max` fuel') self line q
                ltac:(lia)) as H1.
  pose proof (match_from_position_mono fuel' (fuel `max` fuel') self line q
                ltac:(lia)) as H2.
  rewrite Hq in H1. rewrite Hm in H2.
  apply below_Ok in H1. apply below_Ok in H2. congruence.
Qed.

(** On well-formed arrays a line that matches still matches with text
    before and after it. *)
Lemma search_in_context self pre line suf :
  well_formed self →
  returns (λ fuel, REsearcher.search_pattern_in_line fuel self line) true →
  returns (λ fuel,
             REsearcher.search_pattern_in_line fuel self (pre ++ line ++ suf))
    true.
Proof.
  intros Hwf [fuel Hs].
  apply search_from_true in Hs as (p & Hp & Hm).
  apply elem_of_seq in Hp.
  destruct (search_terminates self (pre ++ line ++ suf) Hwf) as (b & fuel' & Hb).
  destruct (match_from_position_terminates self Hwf (pre ++ line ++ suf)
              (String.length pre + p)) as (fuel2 & b2 & Hm2).
  assert (b2 = true) as ->
    by (by eapply match_from_position_in_context).
  exists fuel'. rewrite Hb. f_equal.
  eapply search_from_hit; [exact Hb| |exact Hm2].
  apply elem_of_seq. rewrite !string_length_app. lia.
Qed.

(** X8: the search is a search for the pattern anywhere in the line, so a
    line that matches still matches when text is put before it and after
    it. *)
Theorem match_survives_context regexp pre line suf :
  returns (λ fuel, grep fuel regexp line) true →
  returns (λ fuel, grep fuel regexp (pre ++ line ++ suf)) true.
Proof.
  intros [fuel Hg]. unfold grep in Hg.
  apply obind_Ok in Hg as ([[kinds n1] n2] & Hc & Hg).
  apply obind_Ok in Hg as (searcher & Hnew & Hs).
  pose proof (new_Ok _ _ _ _ Hnew) as ->.
  destruct (search_in_context (REsearcher.mk kinds n1 n2) pre line suf)
    as [fuel' Hs'].
  { by eapply compile_well_formed. }
  { by exists fuel. }
  exists fuel'. unfold grep. rewrite Hc. cbn [obind]. rewrite Hnew. done.
Qed.

Lemma match_survives_context_witness :
  returns (λ fuel, grep fuel "(a|b)+c" "abc") true
  ∧ returns (λ fuel, grep fuel "(a|b)+c" ("x: " ++ "abc" ++ ", y")) true.
Proof.
  assert (returns (λ fuel, grep fuel "(a|b)+c" "abc") true) as H.
  { exists 40%nat. vm_compute. reflexivity. }
  split; [exact H|]. apply match_survives_context. exact H.
Defined.


(** ** Patterns rejected at their first character *)

(** X9: a pattern that is empty, or begins with a character that cannot
    begin a factor (a closing parenthesis, a quantifier, a bar or NUL),
    is rejected: [compile] exits with the message "Unexpected character"
    naming that character (the terminator NUL for the empty pattern). *)
Theorem compile_rejects_first_char regexp :
  REcompiler.starts_factor (first_char regexp) = false →
  REcompiler.compile regexp
  = Raise (SystemExit (unexpected (first_char regexp))).
Proof.
  intros Hc. unfold REcompiler.compile. rewrite init_Ok. cbn [obind].
  unfold REcompiler.compile_body. unfold_M.
  unfold REcompiler.fuel_of. rewrite expression_eq, term_eq, factor_eq.
  rewrite primary_eq. unfold initial.
  assert (list_ascii_of_string (regexp ++ chr NUL) !! 0%nat
          = Some (first_char regexp)) as ->.
  { by destruct regexp. }
  unfold REcompiler.starts_factor in Hc.
  apply orb_false_elim in Hc as [Hc Hesc].
  apply orb_false_elim in Hc as [Hvocab Hparen].
  rewrite Hesc, Hvocab, Hparen.
  unfold REcompiler.error, REcompiler.peek. unfold_M.
  assert (list_ascii_of_string (regexp ++ chr NUL) !! 0%nat
          = Some (first_char regexp)) as ->.
  { by destruct regexp. }
  done.
Qed.

Lemma compile_rejects_first_char_witness :
  REcompiler.compile "*a" = Raise (SystemExit (unexpected "*"))
  ∧ REcompiler.compile "" = Raise (SystemExit (unexpected NUL)).
Proof.
  split.
  - apply (compile_rejects_first_char "*a"). reflexivity.
  - apply (compile_rejects_first_char ""). reflexivity.
Defined.


(** ** Adding, updating and looking up states *)

Lemma get_state_app l1 l2 m :
  FSM.get_state (l1 ++ l2) m
  = match FSM.get_state l1 m with
    | Some s => Some s
    | None => FSM.get_state l2 m
    end.
Proof.
  induction l1 as [|s l1 IH]; simpl; [done|].
  by destruct (FSM.state_num s =? m).
Qed.

Lemma get_state_num states m s :
  FSM.get_state states m = Some s → FSM.state_num s = m.
Proof.
  induction states as [|x l IH]; simpl; [done|].
  destruct (Z.eqb_spec (FSM.state_num x) m); [|done]. by intros [= <-].
Qed.

Lemma get_state_mutate f num states m :
  (∀ s, FSM.state_num (f s) = FSM.state_num s) →
  FSM.get_state (FSM.mutate f num states) m
  = (λ s, if m =? num then f s else s) <$> FSM.get_state states m.
Proof.
  intros Hf. induction states as [|x l IH]; simpl; [done|].
  destruct (Z.eqb_spec (FSM.state_num x) num) as [Hx|Hx]; simpl.
  - rewrite Hf. destruct (Z.eqb_spec (FSM.state_num x) m) as [Hm|Hm]; simpl.
    + destruct (Z.eqb_spec m num); [done|lia].
    + clear IH. induction l as [|y l IH]; simpl; [done|].
      destruct (Z.eqb_spec (FSM.state_num y) m); simpl; [|done].
      destruct (Z.eqb_spec m num); [lia|done].
  - destruct (Z.eqb_spec (FSM.state_num x) m) as [Hm|Hm]; simpl; [|done].
    destruct (Z.eqb_spec m num); [lia|done].
Qed.

(** X10: [add_state] with a valid kind appends, and [get_state] then finds,
    for every number, what it found before; only a number that was not
    there yet is found anew, and it is the added number with the added
    state.  A state added under a number already present is never
    found. *)
Theorem add_state_get_state states num ty n1 n2 :
  FSM.valid_state_type ty = true →
  ∃ states',
    FSM.add_state states num ty n1 n2 = Ok states'
    ∧ length states' = S (length states)
    ∧ ∀ m, FSM.get_state states' m
           = match FSM.get_state states m with
             | Some s => Some s
             | None =>
                 if m =? num then Some (FSM.mkState num ty n1 n2) else None
             end.
Proof.
  intros Hv. unfold FSM.add_state, FSM.StateType. rewrite Hv. simpl.
  eexists. split; [done|]. split.
  { rewrite length_app. simpl. lia. }
  intros m. rewrite get_state_app. simpl. by rewrite (Z.eqb_sym num m).
Qed.

Lemma add_state_get_state_witness :
  ∃ states',
    FSM.add_state [FSM.mkState 0 "BR" 1 1; FSM.mkState 1 "a" 2 2] 1 "b" 5 5
    = Ok states'
    ∧ length states' = 3%nat
    ∧ ∀ m, FSM.get_state states' m
           = match FSM.get_state
                     [FSM.mkState 0 "BR" 1 1; FSM.mkState 1 "a" 2 2] m with
             | Some s => Some s
             | None =>
                 if m =? 1 then Some (FSM.mkState 1 "b" 5 5) else None
             end.
Proof.
  apply (add_state_get_state
           [FSM.mkState 0 "BR" 1 1; FSM.mkState 1 "a" 2 2] 1 "b" 5 5).
  reflexivity.
Defined.

(** X11: [update_state] changes what [get_state] finds under the updated
    number only: the successors given are replaced, the number, the kind
    and a successor not given are kept; under a number that is not there
    nothing changes. *)
Theorem update_state_get_state states num n1 n2 m :
  FSM.get_state (FSM.update_state states num n1 n2) m
  = (λ s, if m =? num
          then FSM.mkState (FSM.state_num s) (FSM.state_type s)
                 (default (FSM.next1 s) n1) (default (FSM.next2 s) n2)
          else s) <$> FSM.get_state states m.
Proof.
  unfold FSM.update_state. rewrite get_state_mutate.
  - destruct (FSM.get_state states m) as [s|]; [|done]. simpl.
    destruct (m =? num); [|done]. by destruct n1, n2, s.
  - intros s. by destruct n1, n2.
Qed.

(** An update under a number that is not there leaves the list as it
    is. *)
Lemma update_state_missing states num n1 n2 :
  FSM.get_state states num = None →
  FSM.update_state states num n1 n2 = states.
Proof.
  unfold FSM.update_state. induction states as [|s l IH]; simpl; [done|].
  destruct (FSM.state_num s =? num); [done|]. intros H. by rewrite IH.
Qed.

(** X12: [set_state] with a valid kind leaves the parser's position and
    counter alone and makes [get_state] find the given kind and successors
    under the given number, whether the number was there or not; what
    [get_state] found under any other number is still found. *)
Theorem set_state_get_state state_id ty n1 n2 self :
  FSM.valid_state_type ty = true →
  ∃ states',
    REcompiler.set_state state_id ty n1 n2 self
    = Ok (tt, REcompiler.mk (REcompiler.chars self) (REcompiler.pos self)
                (REcompiler.state_num self) states')
    ∧ FSM.get_state states' state_id
      = Some (FSM.mkState state_id ty n1 n2)
    ∧ ∀ m s, m ≠ state_id →
             FSM.get_state (REcompiler.fsm self) m = Some s →
             FSM.get_state states' m = Some s.
Proof.
  intros Hv. rewrite set_state_Ok by done. eexists. split; [done|].
  unfold set_state_fsm.
  destruct (FSM.get_state (REcompiler.fsm self) state_id) as [s0|] eqn:Hget.
  - split.
    + rewrite get_state_mutate by done. rewrite Hget. simpl.
      rewrite Z.eqb_refl. by rewrite (get_state_num _ _ _ Hget).
    + intros m s Hm Hs. rewrite get_state_mutate by done. rewrite Hs. simpl.
      by destruct (Z.eqb_spec m state_id).
  - split.
    + rewrite !get_state_app, Hget. simpl. by rewrite Z.eqb_refl.
    + intros m s Hm Hs. by rewrite !get_state_app, Hs.
Qed.

Lemma set_state_get_state_witness :
  ∃ states',
    REcompiler.set_state 4 "WC" 5 5
      (REcompiler.mk ["."%char; NUL] 0 4 [FSM.mkState 0 "BR" 0 0])
    = Ok (tt, REcompiler.mk ["."%char; NUL] 0 4 states')
    ∧ FSM.get_state states' 4 = Some (FSM.mkState 4 "WC" 5 5)
    ∧ ∀ m s, m ≠ 4 →
             FSM.get_state [FSM.mkState 0 "BR" 0 0] m = Some s →
             FSM.get_state states' m = Some s.
Proof.
  apply (set_state_get_state 4 "WC" 5 5
           (REcompiler.mk ["."%char; NUL] 0 4 [FSM.mkState 0 "BR" 0 0])).
  reflexivity.
Defined.


(** ** The simulation finds exactly the accepting paths *)

Section Paths.
Variable self : REsearcher.t.
Hypothesis Hwf : well_formed self.
Variable line : string.

Local Abbreviation N := (REsearcher.len (REsearcher.state_type self)).

Lemma state_at_Some q k a b :
  state_at self q = Some (k, a, b) →
  0 ≤ q < N
  ∧ index (REsearcher.state_type self) q = Ok k
  ∧ index (REsearcher.next1 self) q = Ok a
  ∧ index (REsearcher.next2 self) q = Ok b.
Proof.
  unfold state_at. destruct (Z.ltb_spec q 0) as [|Hq]; [done|].
  destruct (REsearcher.state_type self !! Z.to_nat q) as [k'|] eqn:Hk;
    [|done].
  destruct (REsearcher.next1 self !! Z.to_nat q) as [a'|] eqn:Ha; [|done].
  destruct (REsearcher.next2 self !! Z.to_nat q) as [b'|] eqn:Hb; [|done].
  intros [= -> -> ->].
  assert (0 ≤ q < N) as Hr.
  { apply lookup_lt_Some in Hk. unfold REsearcher.len. lia. }
  destruct Hwf as (H1 & H2 & _).
  destruct (index_in_range (REsearcher.state_type self) q) as (? & -> & ?);
    [done|].
  destruct (index_in_range (REsearcher.next1 self) q) as (? & -> & ?);
    [unfold REsearcher.len in Hr; lia|].
  destruct (index_in_range (REsearcher.next2 self) q) as (? & -> & ?);
    [unfold REsearcher.len in Hr; lia|].
  split; [done|]. repeat split; congruence.
Qed.

Lemma state_at_None q : 0 ≤ q → state_at self q = None → N ≤ q.
Proof.
  intros Hq. unfold state_at. destruct (Z.ltb_spec q 0); [lia|].
  destruct (Z.le_gt_cases N q) as [|Hlt]; [done|].
  destruct Hwf as (H1 & H2 & _). unfold REsearcher.len in Hlt.
  destruct (lookup_lt_is_Some_2 (REsearcher.state_type self) (Z.to_nat q))
    as [k ->]; [lia|].
  destruct (lookup_lt_is_Some_2 (REsearcher.next1 self) (Z.to_nat q))
    as [a ->]; [lia|].
  destruct (lookup_lt_is_Some_2 (REsearcher.next2 self) (Z.to_nat q))
    as [b ->]; [lia|].
  done.
Qed.

(** What the loop reads of a state, from what the arrays hold. *)
Lemma read_state q k a b :
  state_at self q = Some (k, a, b) →
  REsearcher.is_end_br_state self q
  = Ok (String.eqb k "BR" && (a =? -1) && (b =? -1))
  ∧ REsearcher.is_branch self q = Ok (String.eqb k "BR").
Proof.
  intros (Hq & Hk & Ha & Hb)%state_at_Some.
  unfold REsearcher.is_end_br_state, REsearcher.is_branch.
  destruct (Z.ltb_spec q 0); [lia|].
  destruct (Z.leb_spec N q); [lia|].
  destruct (Z.ltb_spec q N); [|lia]. simpl.
  rewrite Hk. simpl. unfold REsearcher.BR, REsearcher.END.
  destruct (String.eqb k "BR"); [|done].
  rewrite Ha. simpl. destruct (a =? -1); [|done]. by rewrite Hb.
Qed.

Lemma read_outside q :
  0 ≤ q → state_at self q = None →
  REsearcher.is_end_br_state self q = Ok false
  ∧ REsearcher.is_branch self q = Ok false.
Proof.
  intros Hq Hnone%state_at_None; [|done].
  unfold REsearcher.is_end_br_state, REsearcher.is_branch.
  destruct (Z.ltb_spec q 0); [lia|].
  destruct (Z.leb_spec N q); [|lia].
  by destruct (Z.ltb_spec q N); [lia|].
Qed.

Lemma expandable_state_at q a b :
  state_at self q = Some ("BR", a, b) → a ≠ -1 ∨ b ≠ -1 →
  expandable self q = true.
Proof.
  intros Hq Hne. destruct (read_state _ _ _ _ Hq) as [He Hb].
  apply state_at_Some in Hq as (Hr & _).
  unfold expandable. rewrite He, Hb. simpl.
  destruct (Z.eqb_spec a (-1)), (Z.eqb_spec b (-1)); simpl;
    try (apply negb_true_iff, Z.eqb_neq; unfold REsearcher.SCAN; lia).
  lia.
Qed.

Lemma expandable_inv q :
  0 ≤ q → expandable self q = true →
  ∃ a b, state_at self q = Some ("BR", a, b) ∧ (a ≠ -1 ∨ b ≠ -1).
Proof.
  intros Hq He. destruct (state_at self q) as [[[k a] b]|] eqn:Hs.
  - destruct (read_state _ _ _ _ Hs) as [He' Hb']. unfold expandable in He.
    rewrite He', Hb' in He.
    destruct (String.eqb_spec k "BR") as [->|]; simpl in He;
      [|by destruct (_ && _)].
    exists a, b. split; [done|].
    destruct (Z.eqb_spec a (-1)), (Z.eqb_spec b (-1)); simpl in He;
      try done; lia.
  - destruct (read_outside q Hq Hs) as [He' Hb']. unfold expandable in He.
    by rewrite He', Hb' in He.
Qed.

Lemma eps_nonneg q l : eps self q l → 0 ≤ q.
Proof. by intros [? [? _]|]. Qed.

Lemma accepts_nonneg c q i : accepts_from self line c q i → 0 ≤ q.
Proof.
  intros [? ? H|? ? ? ? ? ? H|? ? ? ? ? ? ? H];
    by apply state_at_Some in H as [[? _] _].
Qed.

(** A path from a state of the closure is a path from the state. *)
Lemma eps_accepts q l c i :
  eps self q l → accepts_from self line c l i → accepts_from self line c q i.
Proof.
  induction 1 as [|q a b q' l Hq He Ha Hb Hq' _ IH]; [done|].
  intros Hl. destruct (expandable_inv q Hq He) as (a' & b' & Hs & Hne).
  pose proof (state_at_Some _ _ _ _ Hs) as (_ & _ & Ha' & Hb').
  assert (a' = a) as -> by congruence. assert (b' = b) as -> by congruence.
  eapply accepts_branch; eauto.
Qed.

(** A path from a state passes through a state of its closure. *)
Lemma accepts_eps c q i :
  accepts_from self line c q i →
  ∃ l, eps self q l ∧ accepts_from self line c l i.
Proof.
  induction 1 as [q i Hs|c q i a b q' Hs Hne Hq' Hacc (l & Hl & IH)
                 |c q i k a b x Hs Hk Hx Hm Hacc _].
  - exists q. split; [|by apply accepts_end].
    pose proof (read_state _ _ _ _ Hs) as [He _].
    apply state_at_Some in Hs as (Hr & _).
    apply eps_leaf, expandable_leaf; [lia|by left].
  - exists l. split; [|done].
    pose proof (expandable_state_at _ _ _ Hs Hne) as He.
    pose proof (state_at_Some _ _ _ _ Hs) as (Hr & _ & Ha & Hb).
    eapply eps_step; eauto. lia.
  - exists q. split; [|by eapply accepts_char].
    pose proof (read_state _ _ _ _ Hs) as [_ Hb].
    apply state_at_Some in Hs as (Hr & _).
    apply eps_leaf, expandable_leaf; [lia|right].
    rewrite Hb. f_equal. by apply String.eqb_neq.
Qed.

(** The closure marks what it reaches, pushes the leaves among it, and
    pushes nothing else. *)
Lemma add_state_recursive_closed fuel :
  ∀ deq x visited d' visited',
    REsearcher.add_state_recursive fuel self deq x visited
    = Ok (d', visited') →
    ∃ pushed,
      d' = pushed ++ deq
      ∧ visited ⊆ visited'
      ∧ (0 ≤ x → x ∈ visited')
      ∧ (∀ l, l ∈ pushed → eps self x l)
      ∧ closed self visited visited' pushed.
Proof.
  induction fuel as [|fuel IH]; intros deq x V d' V'; [done|].
  simpl. destruct (Z.ltb_spec x 0) as [|Hx]; simpl.
  { intros [= <- <-]. exists []. split; [done|]. split; [done|].
    split; [lia|]. split; [by intros l ?%elem_of_nil|]. by intros y ? ?. }
  destruct (bool_decide_reflect (x ∈ V)) as [Hold|Hnew].
  { intros [= <- <-]. exists []. split; [done|]. split; [done|].
    split; [done|]. split; [by intros l ?%elem_of_nil|]. by intros y ? ?. }
  assert (leaf self x → closed self V ({[x]} ∪ V) [x]) as Hleaf.
  { intros [_ Hl] y Hy Hny.
    assert (y = x) as -> by set_solver.
    split; [done|]. split; [intros _; by left|]. by rewrite Hl. }
  destruct (classify self Hwf x Hx)
    as [(Hge & He & Hbr)|[(Hlt & He & Hbr & _)
       |[(Hlt & He & Hbr & a & b & Ha & Hb)|(Hlt & He & Hbr & _)]]];
    rewrite He; simpl; rewrite ?Hbr; simpl.
  - intros [= <- <-].
    assert (leaf self x) as Hl by (apply expandable_leaf; auto).
    exists [x]. split; [done|]. split; [set_solver|]. split; [set_solver|].
    split; [|by apply Hleaf].
    intros l ->%list_elem_of_singleton. by apply eps_leaf.
  - intros [= <- <-].
    assert (leaf self x) as Hl by (apply expandable_leaf; auto).
    exists [x]. split; [done|]. split; [set_solver|]. split; [set_solver|].
    split; [|by apply Hleaf].
    intros l ->%list_elem_of_singleton. by apply eps_leaf.
  - assert (expandable self x = true) as Hexp.
    { unfold expandable. rewrite He, Hbr.
      apply negb_true_iff, Z.eqb_neq. unfold REsearcher.SCAN. lia. }
    rewrite Ha. simpl.
    destruct (REsearcher.add_state_recursive fuel self deq a ({[x]} ∪ V))
      as [[d1 V1]| |] eqn:H1; [|done..]. simpl.
    destruct (IH _ _ _ _ _ H1) as (P1 & -> & Hsub1 & Hin1 & Heps1 & Hc1).
    rewrite Hb. simpl. intros H2.
    destruct (IH _ _ _ _ _ H2) as (P2 & -> & Hsub2 & Hin2 & Heps2 & Hc2).
    exists (P2 ++ P1). split; [by rewrite app_assoc|].
    split; [set_solver|]. split; [set_solver|]. split.
    { intros l [Hl|Hl]%elem_of_app.
      - apply (eps_step self x a b b); auto.
      - apply (eps_step self x a b a); auto. }
    intros y Hy Hny. destruct (decide (y = x)) as [->|Hyx].
    { split; [done|]. split; [by rewrite Hexp|]. intros _ a' b' Ha' Hb'.
      assert (a' = a) as -> by congruence.
      assert (b' = b) as -> by congruence.
      split; [intros H; apply Hsub2; auto|auto]. }
    destruct (decide (y ∈ V1)) as [Hy1|Hy1].
    + destruct (Hc1 y Hy1) as (Hy0 & Hyl & Hyb); [set_solver|].
      split; [done|]. split.
      * intros Hl. apply elem_of_app. right. auto.
      * intros Hl a' b' Ha' Hb'. destruct (Hyb Hl a' b' Ha' Hb').
        split; intros; apply Hsub2; auto.
    + destruct (Hc2 y Hy Hy1) as (Hy0 & Hyl & Hyb).
      split; [done|]. split; [|done].
      intros Hl. apply elem_of_app. left. auto.
  - intros [= <- <-].
    assert (leaf self x) as Hl by (apply expandable_leaf; auto).
    exists [x]. split; [done|]. split; [set_solver|]. split; [set_solver|].
    split; [|by apply Hleaf].
    intros l ->%list_elem_of_singleton. by apply eps_leaf.
Qed.

(** [add_state] pushes exactly the closure of the state. *)
Lemma add_state_eps deq x :
  ∃ pushed,
    REsearcher.add_state self deq x = Ok (pushed ++ deq)
    ∧ Forall (λ l, 0 ≤ l) pushed
    ∧ ∀ l, l ∈ pushed ↔ eps self x l.
Proof.
  destruct (add_state_spec self Hwf deq x) as (pushed & Hadd & Hleaf).
  exists pushed. split; [done|]. split.
  { eapply Forall_impl; [exact Hleaf|]. by intros l [? _]. }
  unfold REsearcher.add_state in Hadd.
  destruct (Z.ltb_spec x 0) as [Hneg|Hx].
  { assert (pushed = []) as ->.
    { injection Hadd as Hadd. apply (app_inv_tail deq).
      by rewrite <- Hadd. }
    intros l. split; [by intros ?%elem_of_nil|].
    intros ?%eps_nonneg. lia. }
  apply obind_Ok in Hadd as ([d' V'] & Hrec & Hadd).
  destruct (add_state_recursive_closed _ _ _ _ _ _ Hrec)
    as (P & -> & _ & Hin & Heps & Hclosed).
  assert (P = pushed) as ->.
  { injection Hadd as Hadd. by apply (app_inv_tail deq). }
  intros l. split; [apply Heps|].
  specialize (Hin Hx). clear Hrec Hadd Heps Hleaf Hx.
  induction 1 as [q [Hq Hl]|q a b q' l Hq He Ha Hb Hq' Heps IH].
  - destruct (Hclosed q Hin) as (_ & Hpush & _); [set_solver|]. auto.
  - apply IH. destruct (Hclosed q Hin) as (_ & _ & Hsucc); [set_solver|].
    destruct (Hsucc He a b Ha Hb) as [Hina Hinb].
    apply eps_nonneg in Heps. destruct Hq' as [-> | ->]; auto.
Qed.

(** Paths from the pushed states are the paths from the state. *)
Lemma add_state_accepts deq x :
  ∃ pushed,
    REsearcher.add_state self deq x = Ok (pushed ++ deq)
    ∧ Forall (λ l, 0 ≤ l) pushed
    ∧ ∀ c i, (∃ l, l ∈ pushed ∧ accepts_from self line c l i)
             ↔ accepts_from self line c x i.
Proof.
  destruct (add_state_eps deq x) as (pushed & Hadd & Hpos & Heps).
  exists pushed. split; [done|]. split; [done|]. intros c i. split.
  - intros (l & Hl & Hacc). apply Heps in Hl. by eapply eps_accepts.
  - intros (l & Hl & Hacc)%accepts_eps. exists l. split; [|done].
    by apply Heps.
Qed.

(** A path from a state, by what the arrays hold of the state. *)
Lemma accepts_end_state c q i :
  state_at self q = Some ("BR", -1, -1) →
  accepts_from self line c q i ↔ c = true.
Proof.
  intros Hs. split; [|intros ->; by apply accepts_end].
  inversion 1; simplify_eq; (done || lia).
Qed.

Lemma accepts_branch_state c q i a b :
  state_at self q = Some ("BR", a, b) → a ≠ -1 ∨ b ≠ -1 →
  accepts_from self line c q i
  ↔ accepts_from self line c a i ∨ accepts_from self line c b i.
Proof.
  intros Hs Hne. split.
  - inversion 1 as [|? ? ? ? ? ? ? ? [-> | ->]|]; simplify_eq; auto; lia.
  - intros [Ha|Hb].
    + apply (accepts_branch self line c q i a b a); auto.
    + apply (accepts_branch self line c q i a b b); auto.
Qed.

Lemma accepts_char_state c q i k a b :
  state_at self q = Some (k, a, b) → k ≠ "BR" →
  accepts_from self line c q i
  ↔ ∃ x, String.get i line = Some x ∧ kind_matches k x = true
         ∧ accepts_from self line true a (S i).
Proof.
  intros Hs Hk. split.
  - inversion 1; simplify_eq; eauto.
  - intros (x & Hx & Hm & Hacc). eapply accepts_char; eauto.
Qed.

Lemma accepts_outside c q i :
  state_at self q = None → ¬ accepts_from self line c q i.
Proof. intros Hs. inversion 1; simplify_eq. Qed.

Lemma state_at_next q k a b :
  state_at self q = Some (k, a, b) → k ≠ "BR" → 0 ≤ a.
Proof.
  unfold state_at. destruct (q <? 0); [done|].
  destruct (REsearcher.state_type self !! Z.to_nat q) as [k'|] eqn:Hk;
    [|done].
  destruct (REsearcher.next1 self !! Z.to_nat q) as [a'|] eqn:Ha; [|done].
  destruct (REsearcher.next2 self !! Z.to_nat q) as [b'|] eqn:Hb; [|done].
  intros [= -> -> ->] Hne. destruct Hwf as (_ & _ & Hnext). eauto.
Qed.

(** Replacing the head of the current generation by states that carry
    the same paths. *)
Lemma promising_replace pushed q cur nxt p c :
  ((∃ l, l ∈ pushed ∧ accepts_from self line c l p)
   ↔ accepts_from self line c q p) →
  promising self line (pushed ++ cur) nxt p c
  ↔ promising self line (q :: cur) nxt p c.
Proof.
  intros Hq. unfold promising. split.
  - intros [(l & [Hl|Hl]%elem_of_app & Hacc)|Hn]; [| |by right].
    + left. exists q. split; [by left|]. apply Hq. eauto.
    + left. exists l. split; [by right|done].
  - intros [(l & [->|Hl]%elem_of_cons & Hacc)|Hn]; [| |by right].
    + apply Hq in Hacc as (l & Hl & Hacc). left. exists l.
      split; [|done]. apply elem_of_app. by left.
    + left. exists l. split; [|done]. apply elem_of_app. by right.
Qed.

Lemma promising_drop q cur nxt p c :
  ¬ accepts_from self line c q p →
  promising self line cur nxt p c ↔ promising self line (q :: cur) nxt p c.
Proof.
  intros Hq. apply (promising_replace [] q). split; [|done].
  by intros (l & ?%elem_of_nil & _).
Qed.

(** Passing from a consuming state to its successor in the next
    generation. *)
Lemma promising_consume q a cur nxt p c :
  (accepts_from self line c q p ↔ accepts_from self line true a (S p)) →
  promising self line cur (nxt ++ [a]) p c
  ↔ promising self line (q :: cur) nxt p c.
Proof.
  intros Hq. unfold promising. split.
  - intros [(l & Hl & Hacc)|(l & [Hl|Hl]%elem_of_app & Hacc)].
    + left. exists l. split; [by right|done].
    + right. eauto.
    + apply list_elem_of_singleton in Hl as ->. left. exists q.
      split; [by left|]. by apply Hq.
  - intros [(l & [->|Hl]%elem_of_cons & Hacc)|(l & Hl & Hacc)].
    + right. exists a. split; [|by apply Hq].
      apply elem_of_app. right. by left.
    + left. eauto.
    + right. exists l. split; [|done]. apply elem_of_app. by left.
Qed.

Lemma get_Some_lt (s : string) p x :
  String.get p s = Some x → (p < String.length s)%nat.
Proof.
  revert p. induction s as [|c s IH]; intros p; simpl; [done|].
  destruct p as [|p]; [lia|]. intros ?%IH. lia.
Qed.

(** One iteration either returns, and then [True] exactly when a state of
    the deque lies on an accepting path, or goes on with a deque that
    carries such a state exactly when the old one did. *)
Lemma step_promising st cur nxt :
  generations line st cur nxt →
  ∃ r, REsearcher.step self line st = Ok r
       ∧ match r with
         | REsearcher.Return b =>
             b = true
             ↔ promising self line cur nxt (REsearcher.pos st)
                 (REsearcher.consumed_input st)
         | REsearcher.Continue st' =>
             ∃ cur' nxt',
               generations line st' cur' nxt'
               ∧ (promising self line cur' nxt' (REsearcher.pos st')
                    (REsearcher.consumed_input st')
                  ↔ promising self line cur nxt (REsearcher.pos st)
                      (REsearcher.consumed_input st))
         end.
Proof.
  destruct st as [d p c]. intros (Hd & Hcur & Hnxt & Hlen).
  simpl in Hd, Hlen. subst d. cbn [REsearcher.pos REsearcher.consumed_input].
  unfold REsearcher.step. cbn [REsearcher.deq REsearcher.pos
    REsearcher.consumed_input].
  destruct cur as [|q cur].
  { simpl. destruct nxt as [|y nxt].
    - eexists. split; [done|]. split; [done|].
      by intros [(q & ?%elem_of_nil & _)|(q & ?%elem_of_nil & _)].
    - specialize (Hlen ltac:(done)).
      destruct (Nat.ltb_spec p (String.length line)) as [_|]; [|lia].
      eexists. split; [done|]. exists (y :: nxt), [].
      split.
      { split; [done|]. split; [done|]. split; [done|]. done. }
      unfold promising. simpl. split.
      + intros [?|(q & ?%elem_of_nil & _)]; [by right|done].
      + intros [(q & ?%elem_of_nil & _)|?]; [done|by left]. }
  apply Forall_cons in Hcur as [Hq Hcur]. rewrite <- app_comm_cons.
  destruct (Z.eqb_spec q REsearcher.SCAN) as [Heq|_].
  { unfold REsearcher.SCAN in Heq. lia. }
  set (rest := cur ++ REsearcher.SCAN :: nxt).
  assert (∀ c', generations line (REsearcher.mkLocals rest p c') cur nxt)
    as Hgen.
  { intros c'. by repeat split. }
  destruct (state_at self q) as [[[k a] b]|] eqn:Hs.
  2:{ destruct (read_outside q Hq Hs) as [-> ->]. cbn [obind andb].
      pose proof (state_at_None q Hq Hs) as Hout.
      assert (∃ r, (if (String.length line <=? p)%nat
                    then Ok (REsearcher.Continue (REsearcher.mkLocals rest p c))
                    else match String.get p line with
                         | Some _ =>
                             if q <? N
                             then _
                             else Ok (REsearcher.Continue
                                        (REsearcher.mkLocals rest p c))
                         | None => Raise IndexError
                         end)
                   = Ok r
                   ∧ r = REsearcher.Continue (REsearcher.mkLocals rest p c))
        as (r & -> & ->).
      { destruct (Nat.leb_spec (String.length line) p); [by eexists|].
        destruct (get_in_range line p) as [x ->]; [done|].
        destruct (Z.ltb_spec q N); [lia|]. by eexists. }
      eexists. split; [done|]. exists cur, nxt. split; [apply Hgen|].
      apply promising_drop. by apply accepts_outside. }
  destruct (read_state _ _ _ _ Hs) as [-> ->].
  pose proof (state_at_Some _ _ _ _ Hs) as (Hr & Hik & Hia & Hib).
  cbn [obind].
  destruct (String.eqb_spec k "BR") as [->|Hk].
  - rewrite Hia. cbn [obind andb].
    destruct (add_state_accepts rest a) as (P1 & -> & Hp1 & Hacc1).
    cbn [obind]. rewrite Hib. cbn [obind].
    destruct (add_state_accepts (P1 ++ rest) b) as (P2 & -> & Hp2 & Hacc2).
    cbn [obind].
    destruct (decide (a = -1 ∧ b = -1)) as [[-> ->]|Hne].
    + simpl. destruct c; simpl.
      * eexists. split; [done|]. simpl. split; [|done]. intros _. left.
        exists q. split; [by left|]. by apply accepts_end.
      * eexists. split; [done|]. exists (P2 ++ P1 ++ cur), nxt. split.
        { split; [unfold rest; simpl; by rewrite <- !app_assoc|].
          split; [|done].
          by rewrite !Forall_app. }
        rewrite app_assoc. apply promising_replace.
        rewrite (accepts_end_state _ _ _ Hs). split; [|done].
        intros (l & [Hl|Hl]%elem_of_app & Hacc).
        -- assert (accepts_from self line false (-1) p) as Hbad
             by (apply Hacc2; eauto).
           apply accepts_nonneg in Hbad. lia.
        -- assert (accepts_from self line false (-1) p) as Hbad
             by (apply Hacc1; eauto).
           apply accepts_nonneg in Hbad. lia.
    + assert (a ≠ -1 ∨ b ≠ -1) as Hne' by lia.
      assert (((a =? -1) && (b =? -1)) = false) as ->.
      { destruct (Z.eqb_spec a (-1)), (Z.eqb_spec b (-1)); try done. lia. }
      cbn [andb]. eexists. split; [done|].
      exists (P2 ++ P1 ++ cur), nxt. split.
      { split; [unfold rest; simpl; by rewrite <- !app_assoc|].
          split; [|done].
        by rewrite !Forall_app. }
      rewrite app_assoc. apply promising_replace.
      rewrite (accepts_branch_state _ _ _ _ _ Hs Hne'). split.
      * intros (l & [Hl|Hl]%elem_of_app & Hacc).
        -- right. apply Hacc2. eauto.
        -- left. apply Hacc1. eauto.
      * intros [(l & Hl & Hacc)%Hacc1|(l & Hl & Hacc)%Hacc2];
          exists l; (split; [|done]); apply elem_of_app; auto.
  - cbn [andb].
    destruct (Nat.leb_spec (String.length line) p) as [Hge|Hlt].
    { eexists. split; [done|]. exists cur, nxt. split; [apply Hgen|].
      apply promising_drop. rewrite (accepts_char_state _ _ _ _ _ _ Hs Hk).
      intros (x & Hx%get_Some_lt & _). lia. }
    destruct (get_in_range line p Hlt) as [x Hx]. rewrite Hx.
    destruct (Z.ltb_spec q N) as [_|]; [|lia].
    rewrite Hik. cbn [obind]. rewrite Hia. cbn [obind].
    assert (∃ r, (if String.eqb k REsearcher.WC
                  then Ok (REsearcher.Continue
                             (REsearcher.mkLocals (rest ++ [a]) p c))
                  else if Nat.eqb (String.length k) 1
                          && String.eqb k (chr x)
                       then Ok (REsearcher.Continue
                                  (REsearcher.mkLocals (rest ++ [a]) p c))
                       else Ok (REsearcher.Continue
                                  (REsearcher.mkLocals rest p c)))
                 = Ok r
                 ∧ r = REsearcher.Continue
                         (REsearcher.mkLocals
                            (if kind_matches k x then rest ++ [a] else rest)
                            p c))
      as (r & -> & ->).
    { unfold kind_matches, REsearcher.WC.
      destruct (String.eqb k "WC"); [by eexists|].
      destruct (_ && _); by eexists. }
    eexists. split; [done|].
    destruct (kind_matches k x) eqn:Hm.
    + exists cur, (nxt ++ [a]). split.
      { split; [unfold rest; by rewrite <- app_assoc|]. split; [done|].
        split; [|done]. apply Forall_app. split; [done|].
        apply Forall_singleton. by eapply state_at_next. }
      apply promising_consume.
      rewrite (accepts_char_state _ _ _ _ _ _ Hs Hk). split.
      * intros (x' & Hx' & _ & Hacc). done.
      * intros Hacc. exists x. by repeat split.
    + exists cur, nxt. split; [apply Hgen|].
      apply promising_drop. rewrite (accepts_char_state _ _ _ _ _ _ Hs Hk).
      intros (x' & Hx' & Hm' & _). congruence.
Qed.

Lemma generations_loop_inv st cur nxt :
  generations line st cur nxt → loop_inv line st.
Proof.
  intros (Hd & Hcur & Hnxt & _). split.
  - rewrite Hd. apply Forall_app. split.
    + eapply Forall_impl; [exact Hcur|]. simpl. lia.
    + constructor; [done|]. eapply Forall_impl; [exact Hnxt|]. simpl. lia.
  - intros _. rewrite Hd. apply elem_of_app. right. by left.
Qed.

(** The loop returns [True] exactly when a state of the deque lies on an
    accepting path. *)
Lemma run_promising fuel :
  ∀ st cur nxt b st',
    generations line st cur nxt →
    REsearcher.run fuel self line st = Ok (b, st') →
    b = true
    ↔ promising self line cur nxt (REsearcher.pos st)
        (REsearcher.consumed_input st).
Proof.
  induction fuel as [|fuel IH]; intros st cur nxt b st' Hgen; [done|].
  simpl. destruct (step_promising st cur nxt Hgen) as (r & -> & Hr).
  cbn [obind]. destruct r as [st1|b1].
  - destruct Hr as (cur1 & nxt1 & Hgen1 & Hiff). intros Hrun.
    rewrite <- Hiff. by eapply IH.
  - intros [= -> _]. exact Hr.
Qed.

(** From a start offset the simulation returns, and it returns [True]
    exactly when an accepting path leaves state 0 there. *)
Lemma match_from_position_paths start :
  ∃ b fuel,
    REsearcher.match_from_position fuel self line start = Ok b
    ∧ (b = true ↔ accepts_from self line false 0 start).
Proof.
  unfold REsearcher.match_from_position, REsearcher.enter.
  destruct (add_state_accepts [REsearcher.SCAN] 0)
    as (pushed & Hadd & Hpos & Hacc).
  rewrite Hadd. cbn [obind].
  set (st := REsearcher.mkLocals (pushed ++ [REsearcher.SCAN]) start false).
  assert (generations line st pushed []) as Hgen.
  { by repeat split. }
  destruct (run_terminates self Hwf line st) as (fuel & b & st' & Hrun).
  { by eapply generations_loop_inv. }
  exists b, fuel. rewrite Hrun. split; [done|].
  rewrite (run_promising fuel st pushed [] b st' Hgen Hrun). simpl.
  rewrite <- Hacc. unfold promising. split; [|by left].
  by intros [?|(q & ?%elem_of_nil & _)].
Qed.
End Paths.


Lemma match_from_position_deterministic fuel fuel' self line start b b' :
  REsearcher.match_from_position fuel self line start = Ok b →
  REsearcher.match_from_position fuel' self line start = Ok b' →
  b = b'.
Proof.
  intros H H'.
  pose proof (match_from_position_mono fuel (fuel `max` fuel') self line
                start ltac:(lia)) as H1.
  pose proof (match_from_position_mono fuel' (fuel `max` fuel') self line
                start ltac:(lia)) as H2.
  rewrite H in H1. rewrite H' in H2.
  apply below_Ok in H1. apply below_Ok in H2. congruence.
Qed.

(** X13: on well-formed arrays the simulation from a start offset returns,
    and it returns [True] exactly when the automaton has an accepting path
    from state 0 at that offset: through branch states to either
    successor, through consuming states over the characters of the line
    they match, to the accepting state, with at least one character
    consumed. *)
Theorem simulation_finds_paths self line start :
  well_formed self →
  ∃ b, returns (λ fuel, REsearcher.match_from_position fuel self line start) b
       ∧ (b = true ↔ accepts_from self line false 0 start).
Proof.
  intros Hwf.
  destruct (match_from_position_paths self Hwf line start)
    as (b & fuel & Hrun & Hiff).
  exists b. split; [by exists fuel|done].
Qed.

Lemma simulation_finds_paths_witness :
  ∃ b, returns (λ fuel, REsearcher.match_from_position fuel
                          (REsearcher.mk ["BR"; "a"; "BR"; "BR"]
                             [2; 2; 3; -1] [2; 2; 1; -1])
                          "aab" 1%nat) b
       ∧ (b = true
          ↔ accepts_from (REsearcher.mk ["BR"; "a"; "BR"; "BR"]
                            [2; 2; 3; -1] [2; 2; 1; -1])
              "aab" false 0 1%nat).
Proof.
  apply simulation_finds_paths.
  apply (compile_well_formed "a*"). reflexivity.
Defined.

(** The search of a line on well-formed arrays: [True] exactly when an
    accepting path leaves state 0 at some offset of the line. *)
Lemma search_paths self line :
  well_formed self →
  ∃ b fuel,
    REsearcher.search_pattern_in_line fuel self line = Ok b
    ∧ (b = true
       ↔ ∃ p, (p < String.length line)%nat
              ∧ accepts_from self line false 0 p).
Proof.
  intros Hwf.
  destruct (search_terminates self line Hwf) as (b & fuel & Hs).
  exists b, fuel. split; [done|]. split.
  - intros ->. apply search_from_true in Hs as (p & Hp & Hm).
    apply elem_of_seq in Hp. exists p. split; [lia|].
    destruct (match_from_position_paths self Hwf line p)
      as (b' & fuel' & Hm' & Hiff).
    apply Hiff. symmetry. by eapply match_from_position_deterministic.
  - intros (p & Hp & Hacc).
    destruct (match_from_position_paths self Hwf line p)
      as (b' & fuel' & Hm' & Hiff).
    apply Hiff in Hacc as ->.
    eapply search_from_hit; [exact Hs| |exact Hm'].
    apply elem_of_seq. lia.
Qed.

(** X14: for a pattern that compiles, compiling, building the searcher
    and searching a line returns, and returns [True] exactly when the
    compiled automaton has an accepting path from state 0 at some offset
    of the line. *)
Theorem grep_finds_paths regexp kinds n1 n2 line :
  REcompiler.compile regexp = Ok (kinds, n1, n2) →
  ∃ b, returns (λ fuel, grep fuel regexp line) b
       ∧ (b = true
          ↔ ∃ p, (p < String.length line)%nat
                 ∧ accepts_from (REsearcher.mk kinds n1 n2) line false 0 p).
Proof.
  intros Hc.
  destruct (search_paths (REsearcher.mk kinds n1 n2) line)
    as (b & fuel & Hs & Hiff); [by eapply compile_well_formed|].
  exists b. split; [|done].
  exists fuel. unfold grep. rewrite Hc. cbn [obind].
  by rewrite (compile_new _ _ _ _ Hc).
Qed.

Lemma grep_finds_paths_witness :
  ∃ b, returns (λ fuel, grep fuel "a*" "bab") b
       ∧ (b = true
          ↔ ∃ p, (p < String.length "bab")%nat
                 ∧ accepts_from (REsearcher.mk ["BR"; "a"; "BR"; "BR"]
                                   [2; 2; 3; -1] [2; 2; 1; -1])
                     "bab" false 0 p).
Proof. apply (grep_finds_paths "a*"). reflexivity. Defined.


(** ** The parser stays inside the pattern *)

Lemma bounded_next cs p c sn sn' f f' :
  bounded (REcompiler.mk cs p sn f) →
  cs !! p = Some c → c ≠ NUL →
  bounded (REcompiler.mk cs (S p) sn' f').
Proof.
  intros [(body & Hbody) _] Hc Hne. simpl in Hbody. subst cs.
  split; [by exists body|]. left. simpl.
  pose proof (lookup_lt_Some _ _ _ Hc) as Hlt.
  rewrite length_app in *. simpl in *.
  destruct (decide (p = length body)) as [->|]; [|lia].
  rewrite list_lookup_middle in Hc by done. congruence.
Qed.

Lemma bounded_fsm cs p sn sn' f f' :
  bounded (REcompiler.mk cs p sn f) → bounded (REcompiler.mk cs p sn' f').
Proof. by intros [? ?]. Qed.

Lemma is_vocab_not_NUL c : REcompiler.is_vocab c = true → c ≠ NUL.
Proof.
  unfold REcompiler.is_vocab. intros [_ H]%andb_true_iff ->.
  by rewrite Ascii.eqb_refl in H.
Qed.

Lemma error_guarded {A} message self :
  match @REcompiler.error A message self with
  | Ok (_, self') => bounded self'
  | Raise e => e ≠ IndexError ∧ e ≠ ValueError
  | OutOfFuel => True
  end.
Proof. by destruct (@error_Raise A message self) as [m ->]. Qed.

Lemma primary_guarded e : guarded e → guarded (REcompiler.primary e).
Proof.
  intros He [cs p sn f] Hb. rewrite primary_eq.
  destruct (cs !! p) as [c|] eqn:Hc; [|apply error_guarded].
  destruct (Ascii.eqb_spec c "\") as [->|_].
  { destruct (cs !! S p) as [c'|] eqn:Hc'; [|apply error_guarded].
    destruct Hb as [Hbody _]. split; [done|]. simpl.
    apply lookup_lt_Some in Hc'.
    destruct (decide (S (S p) = length cs)) as [Heq|]; [|left; lia].
    right. split; [done|]. by rewrite Nat.sub_0_r. }
  destruct (REcompiler.is_vocab c) eqn:Hv.
  { eapply bounded_next; [exact Hb|exact Hc|]. by apply is_vocab_not_NUL. }
  destruct (Ascii.eqb_spec c "(") as [->|_]; [|apply error_guarded].
  assert (bounded (REcompiler.mk cs (S p) sn f)) as Hb1.
  { by eapply bounded_next; [exact Hb|exact Hc|]. }
  specialize (He _ Hb1).
  destruct (e _) as [[r [cs1 p1 sn1 f1]]| |]; [|done..].
  unfold REcompiler.peek. simpl.
  destruct (cs1 !! p1) as [c'|] eqn:Hc'; [|apply error_guarded].
  destruct (Ascii.eqb_spec c' ")") as [->|_]; [|apply error_guarded].
  by eapply bounded_next; [exact He|exact Hc'|].
Qed.

Lemma factor_guarded e : guarded e → guarded (REcompiler.factor e).
Proof.
  intros He self Hb. rewrite factor_eq.
  pose proof (primary_guarded e He self Hb) as Hp.
  destruct (REcompiler.primary e self) as [[ps [cs p sn f]]| |]; [|done..].
  destruct (cs !! p) as [c|] eqn:Hc; [|done].
  destruct (Ascii.eqb_spec c "?") as [->|_].
  { by eapply bounded_next; [exact Hp|exact Hc|]. }
  destruct (Ascii.eqb_spec c "+") as [->|_].
  { by eapply bounded_next; [exact Hp|exact Hc|]. }
  destruct (Ascii.eqb_spec c "*") as [->|_]; [|done].
  by eapply bounded_next; [exact Hp|exact Hc|].
Qed.

Lemma term_loop_guarded f fuel :
  guarded f → guarded (REcompiler.term_loop f fuel).
Proof.
  intros Hf. induction fuel as [|fuel IH]; intros self Hb; [done|].
  rewrite term_loop_eq.
  destruct (REcompiler.peek self) as [c|]; [|done].
  destruct (REcompiler.starts_factor c); [|done].
  specialize (Hf self Hb).
  destruct (f self) as [[r self1]| |]; [|done..]. by apply IH.
Qed.

Lemma term_guarded e fuel : guarded e → guarded (REcompiler.term e fuel).
Proof.
  intros He self Hb. rewrite term_eq.
  pose proof (factor_guarded e He self Hb) as Hf.
  destruct (REcompiler.factor e self) as [[r1 self1]| |]; [|done..].
  pose proof (term_loop_guarded _ fuel (factor_guarded e He) self1 Hf) as Hl.
  by destruct (REcompiler.term_loop _ _ _) as [[u self2]| |].
Qed.

Lemma expression_guarded fuel : guarded (REcompiler.expression fuel).
Proof.
  induction fuel as [|fuel IH]; intros self Hb; [done|].
  rewrite expression_eq.
  pose proof (term_guarded _ fuel IH self Hb) as Ht.
  destruct (REcompiler.term _ _ _) as [[t1 [cs p sn f]]| |]; [|done..].
  destruct (cs !! p) as [c|] eqn:Hc; [|done].
  destruct (Ascii.eqb_spec c "|") as [->|_]; [|done].
  assert (bounded (REcompiler.mk cs (S p) (sn + 1)
                     (FSM.mutate (REcompiler.converge sn)
                        (REcompiler.state_num self - 1) f))) as Hb1.
  { by eapply bounded_next; [exact Ht|exact Hc|]. }
  specialize (IH _ Hb1).
  destruct (REcompiler.expression fuel _)
    as [[t2 [cs2 p2 sn2 f2]]| |]; [|done..].
  by eapply bounded_fsm.
Qed.

Lemma string_of_list_ascii_app (l1 l2 : list ascii) :
  string_of_list_ascii (l1 ++ l2)
  = (string_of_list_ascii l1 ++ string_of_list_ascii l2)%string.
Proof. induction l1 as [|c l1 IH]; simpl; [done|by rewrite IH]. Qed.

Lemma ends_with_backslash regexp :
  list_ascii_of_string regexp
    !! (length (list_ascii_of_string regexp) - 1)%nat = Some "\"%char →
  ∃ s, regexp = (s ++ "\")%string.
Proof.
  intros Hlast.
  destruct (list_ascii_of_string regexp) as [|c l] eqn:Hl using rev_ind;
    [done|].
  rewrite length_app in Hlast. simpl in Hlast.
  rewrite Nat.add_sub, list_lookup_middle in Hlast by done.
  injection Hlast as ->. exists (string_of_list_ascii l).
  rewrite <- (string_of_list_ascii_of_string regexp), Hl.
  by rewrite string_of_list_ascii_app.
Qed.

(** X15: when [compile] raises [IndexError], the pattern ends with a
    backslash: the escape took the terminator as its character and the
    check after parsing reads past the end; no other pattern makes the
    parser leave the pattern.  And [compile] never raises [ValueError]:
    every kind it gives a state is valid.  (Exceptions of the interpreter
    itself, such as the recursion limit on deeply nested patterns, are
    outside this model.) *)
Theorem compile_index_error regexp e :
  REcompiler.compile regexp = Raise e →
  e ≠ ValueError
  ∧ (e = IndexError → ∃ s, regexp = (s ++ "\")%string).
Proof.
  unfold REcompiler.compile. rewrite init_Ok. cbn [obind].
  assert (bounded (initial regexp)) as Hb.
  { unfold initial. split; simpl.
    - exists (list_ascii_of_string regexp).
      by rewrite list_ascii_of_string_app.
    - left. rewrite list_ascii_of_string_app, length_app. simpl. lia. }
  pose proof (expression_guarded (REcompiler.fuel_of (initial regexp))
                (initial regexp) Hb) as He.
  unfold REcompiler.compile_body, REcompiler.peek. unfold_M.
  destruct (REcompiler.expression _ _) as [[r [cs p sn f]]|e'|] eqn:Hexp;
    [| |done].
  2:{ destruct He as [Hi Hv]. intros [= <-]. by split. }
  pose proof (expression_advancing _ _ _ _ Hexp) as [Hcs _].
  simpl in Hcs. unfold_M.
  destruct (cs !! p) as [c|] eqn:Hc.
  - unfold_M. destruct (Ascii.eqb c NUL); simpl; [done|].
    intros [= <-]. by split.
  - unfold_M. intros [= <-]. split; [done|]. intros _.
    apply lookup_ge_None in Hc.
    destruct He as [_ [Hlt|[Hp Hlast]]];
      cbn [REcompiler.pos REcompiler.chars] in *; [lia|].
    apply ends_with_backslash.
    rewrite Hcs, list_ascii_of_string_app in Hlast, Hp.
    change (list_ascii_of_string (chr NUL)) with [NUL] in Hlast, Hp.
    rewrite length_app in Hp. cbn [length] in Hp.
    destruct (list_ascii_of_string regexp) as [|c0 l] eqn:Hl.
    { subst p. by simpl in Hlast. }
    subst p. rewrite lookup_app_l in Hlast by (simpl; lia).
    rewrite <- Hlast. f_equal. simpl. lia.
Qed.

Lemma compile_index_error_witness :
  IndexError ≠ ValueError
  ∧ (IndexError = IndexError → ∃ s, "ab\" = (s ++ "\")%string).
Proof. apply (compile_index_error "ab\"). reflexivity. Defined.


(** ** The arrays do not depend on the order of insertion *)

Lemma state_num_inj (states : list FSM.FSMState) x y :
  NoDup (FSM.state_num <$> states) →
  x ∈ states → y ∈ states → FSM.state_num x = FSM.state_num y → x = y.
Proof.
  induction states as [|s l IH]; [by intros _ ?%elem_of_nil|].
  rewrite fmap_cons. intros [Hs Hl]%NoDup_cons.
  intros [->|Hx]%elem_of_cons [->|Hy]%elem_of_cons Heq; auto.
  - destruct Hs. rewrite Heq. by apply list_elem_of_fmap_2.
  - destruct Hs. rewrite <- Heq. by apply list_elem_of_fmap_2.
Qed.

(** X16: when no two states carry the same number, [to_arrays] returns
    the same three arrays for every order in which the states were
    added. *)
Theorem to_arrays_order_independent states states' :
  states ≡ₚ states' →
  NoDup (FSM.state_num <$> states) →
  FSM.to_arrays states = FSM.to_arrays states'.
Proof.
  intros Hperm Hnodup. unfold FSM.to_arrays.
  assert (Transitive num_le) as Htrans.
  { intros x y z. unfold num_le. lia. }
  assert (FSM.sorted states = FSM.sorted states') as ->; [|done].
  apply (Sorted_unique_strong num_le); [|apply Sorted_sorted..|].
  - intros x y Hx Hy Hxy Hyx.
    rewrite sorted_perm in Hx. rewrite sorted_perm, <- Hperm in Hy.
    apply (state_num_inj states); auto. unfold num_le in *. lia.
  - by rewrite !sorted_perm.
Qed.

Lemma to_arrays_order_independent_witness :
  FSM.to_arrays [FSM.mkState 0 "BR" 1 1; FSM.mkState 2 "BR" (-1) (-1);
                 FSM.mkState 1 "a" 2 2]
  = FSM.to_arrays [FSM.mkState 1 "a" 2 2; FSM.mkState 0 "BR" 1 1;
                   FSM.mkState 2 "BR" (-1) (-1)].
Proof.
  apply to_arrays_order_independent.
  - symmetry.
    apply (Permutation_cons_append
             [FSM.mkState 0 "BR" 1 1; FSM.mkState 2 "BR" (-1) (-1)]).
  - simpl. repeat (apply NoDup_cons; split; [set_solver|]). apply NoDup_nil_2.
Defined.


(** ** The command line *)

Lemma search_lines_mono fuel fuel' self lines :
  (fuel ≤ fuel')%nat →
  ∀ acc, below (REsearcher.search_lines fuel self lines acc)
               (REsearcher.search_lines fuel' self lines acc).
Proof.
  intros Hle. induction lines as [|l ls IH]; intros acc; simpl;
    [apply below_refl|].
  apply below_obind; [by apply search_from_mono|]. intros b. apply IH.
Qed.

(** On well-formed arrays the loop over the lines returns, having added
    the lines that match, stripped of their line ends, in their order. *)
Lemma search_lines_selected self lines :
  well_formed self →
  ∀ acc, ∃ fuel out,
    REsearcher.search_lines fuel self lines acc = Ok (acc ++ out)
    ∧ selected (found_in self) (rstrip "010" <$> lines) out.
Proof.
  intros Hwf. induction lines as [|l ls IH]; intros acc.
  { exists 0%nat, []. rewrite app_nil_r. split; [done|constructor]. }
  destruct (search_terminates self (rstrip "010" l) Hwf) as (b & fuel1 & Hb).
  destruct (IH (if b then acc ++ [rstrip "010" l] else acc))
    as (fuel2 & out & Hrest & Hsel).
  exists (fuel1 `max` fuel2)%nat,
         (if b then rstrip "010" l :: out else out).
  split.
  - simpl.
    pose proof (search_from_mono fuel1 (fuel1 `max` fuel2) self
                  (rstrip "010" l)
                  (seq 0 (String.length (rstrip "010" l))) ltac:(lia)) as H1.
    unfold REsearcher.search_pattern_in_line in *.
    rewrite Hb in H1. apply below_Ok in H1. rewrite H1. cbn [obind].
    pose proof (search_lines_mono fuel2 (fuel1 `max` fuel2) self ls
                  ltac:(lia) (if b then acc ++ [rstrip "010" l] else acc))
      as H2.
    rewrite Hrest in H2. apply below_Ok in H2. rewrite H2.
    destruct b; [by rewrite <- app_assoc|done].
  - rewrite fmap_cons. destruct b.
    + apply selected_keep; [by exists fuel1|done].
    + apply selected_skip; [by exists fuel1|done].
Qed.

Lemma compile_body_Ok regexp a :
  REcompiler.compile regexp = Ok a →
  ∃ self', REcompiler.compile_body (REcompiler.fuel_of (initial regexp))
             (initial regexp) = Ok (a, self').
Proof.
  unfold REcompiler.compile. rewrite init_Ok. cbn [obind].
  destruct (REcompiler.compile_body _ _) as [[a' self']| |]; [|done..].
  intros [= ->]. by exists self'.
Qed.

(** X17: called with a pattern and a file that can be read, [main] ends
    normally for every pattern that compiles, and the lines it prints are
    the lines of the file, without their line ends, on which the search
    returns [True], in the order of the file; a line on which it returns
    [False] is left out. *)
Theorem main_prints_matching_lines prog regexp filename more files
    kinds n1 n2 lines :
  REcompiler.compile regexp = Ok (kinds, n1, n2) →
  files filename = inr lines →
  ∃ out,
    returns (λ fuel, main fuel (prog :: regexp :: filename :: more) files)
      out
    ∧ selected (found_in (REsearcher.mk kinds n1 n2))
        (rstrip "010" <$> lines) out.
Proof.
  intros Hc Hfile.
  destruct (search_lines_selected (REsearcher.mk kinds n1 n2) lines)
    with (acc := @nil string) as (fuel & out & Hs & Hsel);
    [by eapply compile_well_formed|].
  exists out. split; [|done]. exists fuel. unfold main.
  rewrite init_Ok. cbn [obind].
  destruct (compile_body_Ok _ _ Hc) as [self' ->].
  rewrite (compile_new _ _ _ _ Hc). cbn [obind].
  unfold REsearcher.search_file. by rewrite Hfile, Hs.
Qed.

Lemma main_prints_matching_lines_witness :
  ∃ out,
    returns (λ fuel,
               main fuel ["pygrep.py"; "a+b"; "notes.txt"]
                 (λ _, inr [("xaab" ++ newline)%string; newline; "ba"])) out
    ∧ selected (found_in (REsearcher.mk ["BR"; "a"; "BR"; "b"; "BR"]
                            [1; 2; 1; 4; -1] [1; 2; 3; 4; -1]))
        (rstrip "010" <$> [("xaab" ++ newline)%string; newline; "ba"]) out.
Proof.
  apply (main_prints_matching_lines "pygrep.py" "a+b" "notes.txt" []
           (λ _, inr [("xaab" ++ newline)%string; newline; "ba"])).
  - reflexivity.
  - reflexivity.
Defined.

(** X18: [main] always ends, and in one of two ways: normally, with the
    lines it printed, or by an exit with a message on the error stream.
    No exception of the compiler or the searcher escapes, the [IndexError]
    of a dangling backslash included, and no search goes on for ever. *)
Theorem main_exits argv files :
  ∃ fuel,
    (∃ out, main fuel argv files = Ok out)
    ∨ (∃ message, main fuel argv files = Raise (SystemExit message)).
Proof.
  destruct argv as [|prog [|regexp rest]];
    [exists 0%nat; right; by eexists..|].
  pose proof (compile_fuelled regexp) as Hfuel.
  destruct (REcompiler.compile regexp) as [[[kinds n1] n2]|e|] eqn:Hc;
    [| |done]; clear Hfuel.
  - destruct (compile_body_Ok _ _ Hc) as [self' Hbody].
    destruct rest as [|filename more].
    { exists 0%nat. left. unfold main. rewrite init_Ok. cbn [obind].
      rewrite Hbody. by eexists. }
    destruct (files filename) as [message|lines] eqn:Hfile.
    + exists 0%nat. right. unfold main. rewrite init_Ok. cbn [obind].
      rewrite Hbody, (compile_new _ _ _ _ Hc). cbn [obind].
      unfold REsearcher.search_file. rewrite Hfile. by eexists.
    + destruct (search_lines_selected (REsearcher.mk kinds n1 n2) lines)
        with (acc := @nil string) as (fuel & out & Hs & _);
        [by eapply compile_well_formed|].
      exists fuel. left. exists out. unfold main.
      rewrite init_Ok. cbn [obind].
      rewrite Hbody, (compile_new _ _ _ _ Hc). cbn [obind].
      unfold REsearcher.search_file. by rewrite Hfile, Hs.
  - exists 0%nat. right. unfold main. rewrite init_Ok. cbn [obind].
    unfold REcompiler.compile in Hc. rewrite init_Ok in Hc.
    cbn [obind] in Hc.
    destruct (REcompiler.compile_body _ _) as [[a' self']|e'|]; [done| |done].
    injection Hc as ->. destruct e; by eexists.
Qed.


(** ** What a plain pattern matches *)

Lemma is_vocab_kinds c rest :
  REcompiler.is_vocab c = true →
  kinds_from false (c :: rest) = kind_of c :: kinds_from false rest.
Proof.
  unfold REcompiler.is_vocab. simpl.
  intros [H _]%andb_true_iff.
  apply negb_true_iff in H.
  repeat (apply orb_false_elim in H as [? H]).
  repeat match goal with
         | E : Ascii.eqb _ _ = false |- _ => rewrite E; clear E
         end.
  done.
Qed.

Lemma primary_spelling e : spelling e → spelling (REcompiler.primary e).
Proof.
  intros He [cs p sn f] r self' ks Hf Hsn Hplain H.
  simpl in Hf, Hsn. subst f sn. rewrite primary_eq in H.
  destruct (cs !! p) as [c|] eqn:Hc; [|by apply error_not_Ok in H].
  pose proof (drop_S _ _ _ Hc) as Hdrop.
  unfold unread in *. simpl in Hplain |- *. rewrite Hdrop in Hplain |- *.
  destruct (Ascii.eqb_spec c "\") as [->|Hbs].
  { destruct (cs !! S p) as [c'|] eqn:Hc'; [|by apply error_not_Ok in H].
    pose proof (drop_S _ _ _ Hc') as Hdrop'. rewrite Hdrop' in Hplain |- *.
    simplify_eq. simpl in Hplain |- *. exists [chr c'].
    rewrite set_state_fsm_chain, length_app. simpl.
    repeat split; try done; lia. }
  destruct (REcompiler.is_vocab c) eqn:Hv.
  { simplify_eq. rewrite is_vocab_kinds by done.
    simpl in Hplain |- *. apply Ascii.eqb_neq in Hbs. rewrite Hbs in Hplain.
    apply andb_true_iff in Hplain as [_ Hplain].
    exists [kind_of c].
    change (if Ascii.eqb c "." then REcompiler.WC else chr c)
      with (kind_of c).
    rewrite set_state_fsm_chain, length_app. simpl.
    repeat split; try done; lia. }
  destruct (Ascii.eqb_spec c "(") as [->|]; [|by apply error_not_Ok in H].
  simpl in Hplain |- *.
  destruct (e _) as [[r1 self1]| |] eqn:He1; try done.
  apply (He _ _ _ ks) in He1 as (ks1 & Hf1 & Hsn1 & Hcs1 & Hplain1 & Hk1);
    [|done..].
  unfold unread in *. simpl in *.
  destruct (REcompiler.peek self1) as [c'|] eqn:Hc1;
    [|by apply error_not_Ok in H].
  destruct (Ascii.eqb_spec c' ")") as [->|]; [|by apply error_not_Ok in H].
  unfold REcompiler.peek in Hc1.
  pose proof (drop_S _ _ _ Hc1) as Hdrop1.
  rewrite Hdrop1 in Hplain1, Hk1. simpl in Hplain1, Hk1.
  simplify_eq. simpl. exists ks1. by repeat split.
Qed.

Lemma factor_spelling e : spelling e → spelling (REcompiler.factor e).
Proof.
  intros He self r self' ks Hf Hsn Hplain H. rewrite factor_eq in H.
  destruct (REcompiler.primary e self) as [[ps [cs p sn f]]| |] eqn:Hp;
    try done.
  apply (primary_spelling e He _ _ _ ks) in Hp
    as (ks1 & Hf1 & Hsn1 & Hcs1 & Hplain1 & Hk1); [|done..].
  destruct (cs !! p) as [c|] eqn:Hc; [|simplify_eq; by exists ks1].
  destruct (plain_lookahead _ c Hplain1 Hc) as (-> & -> & -> & _) in H.
  simplify_eq. by exists ks1.
Qed.

Lemma term_loop_spelling f fuel :
  spelling f →
  ∀ self u self' ks,
    REcompiler.fsm self = FSM.mkState 0 "BR" 0 0 :: chain_states 1 ks →
    REcompiler.state_num self = Z.of_nat (length ks) + 1 →
    plain_from false (unread self) = true →
    REcompiler.term_loop f fuel self = Ok (u, self') →
    ∃ ks',
      REcompiler.fsm self'
      = FSM.mkState 0 "BR" 0 0 :: chain_states 1 (ks ++ ks')
      ∧ REcompiler.state_num self' = Z.of_nat (length (ks ++ ks')) + 1
      ∧ REcompiler.chars self' = REcompiler.chars self
      ∧ plain_from false (unread self') = true
      ∧ kinds_from false (unread self)
        = ks' ++ kinds_from false (unread self').
Proof.
  intros Hf.
  assert (∀ self ks,
            REcompiler.fsm self
            = FSM.mkState 0 "BR" 0 0 :: chain_states 1 ks →
            REcompiler.state_num self = Z.of_nat (length ks) + 1 →
            plain_from false (unread self) = true →
            ∃ ks',
              REcompiler.fsm self
              = FSM.mkState 0 "BR" 0 0 :: chain_states 1 (ks ++ ks')
              ∧ REcompiler.state_num self
                = Z.of_nat (length (ks ++ ks')) + 1
              ∧ REcompiler.chars self = REcompiler.chars self
              ∧ plain_from false (unread self) = true
              ∧ kinds_from false (unread self)
                = ks' ++ kinds_from false (unread self)) as Hstay.
  { intros self ks ? ? ?. exists []. by rewrite app_nil_r. }
  induction fuel as [|fuel IH]; intros self u self' ks Hfsm Hsn Hplain H;
    [done|].
  rewrite term_loop_eq in H.
  destruct (REcompiler.peek self) as [c|]; [|simplify_eq; by apply Hstay].
  destruct (REcompiler.starts_factor c); [|simplify_eq; by apply Hstay].
  destruct (f self) as [[r self1]| |] eqn:Hf1; try done.
  apply (Hf _ _ _ ks) in Hf1 as (ks1 & Hf1 & Hsn1 & Hcs1 & Hplain1 & Hk1);
    [|done..].
  apply (IH _ _ _ (ks ++ ks1)) in H
    as (ks2 & Hf2 & Hsn2 & Hcs2 & Hplain2 & Hk2); [|done..].
  exists (ks1 ++ ks2). rewrite app_assoc.
  repeat split; try done; try congruence.
  by rewrite Hk1, Hk2, app_assoc.
Qed.

Lemma term_spelling e fuel : spelling e → spelling (REcompiler.term e fuel).
Proof.
  intros He self r self' ks Hfsm Hsn Hplain H. rewrite term_eq in H.
  destruct (REcompiler.factor e self) as [[r1 self1]| |] eqn:Hf; try done.
  apply (factor_spelling e He _ _ _ ks) in Hf
    as (ks1 & Hf1 & Hsn1 & Hcs1 & Hplain1 & Hk1); [|done..].
  destruct (REcompiler.term_loop _ _ _) as [[u self2]| |] eqn:Hl; try done.
  apply (term_loop_spelling _ _ (factor_spelling e He) _ _ _ (ks ++ ks1))
    in Hl as (ks2 & Hf2 & Hsn2 & Hcs2 & Hplain2 & Hk2); [|done..].
  simplify_eq. exists (ks1 ++ ks2). rewrite app_assoc.
  repeat split; try done; try congruence.
  by rewrite Hk1, Hk2, app_assoc.
Qed.

Lemma expression_spelling fuel : spelling (REcompiler.expression fuel).
Proof.
  induction fuel as [|fuel IH]; intros self r self' ks Hfsm Hsn Hplain H;
    [done|].
  rewrite expression_eq in H.
  destruct (REcompiler.term _ _ _) as [[t1 [cs p sn f]]| |] eqn:Ht;
    try done.
  apply (term_spelling _ _ IH _ _ _ ks) in Ht
    as (ks1 & Hf1 & Hsn1 & Hcs1 & Hplain1 & Hk1); [|done..].
  destruct (cs !! p) as [c|] eqn:Hc; [|simplify_eq; by exists ks1].
  destruct (plain_lookahead _ c Hplain1 Hc) as (_ & _ & _ & ->) in H.
  simplify_eq. by exists ks1.
Qed.

Lemma kinds_from_terminated escaped cs :
  kinds_from escaped (cs ++ [NUL]) = kinds_from escaped cs ++ [chr NUL].
Proof.
  revert escaped. induction cs as [|c cs IH]; intros escaped; simpl.
  - by destruct escaped.
  - destruct escaped; [by rewrite IH|].
    destruct (Ascii.eqb c "\"); [by rewrite IH|].
    destruct (Ascii.eqb c "(" || Ascii.eqb c ")"); by rewrite IH.
Qed.

Lemma kinds_from_not_BR escaped cs :
  Forall (λ k, k ≠ "BR") (kinds_from escaped cs).
Proof.
  revert escaped. induction cs as [|c cs IH]; intros escaped; simpl;
    [constructor|].
  destruct escaped; [by constructor|].
  destruct (Ascii.eqb c "\"); [done|].
  destruct (Ascii.eqb c "(" || Ascii.eqb c ")"); [done|].
  constructor; [apply kind_of_not_BR|done].
Qed.

(** The arrays of a plain pattern that compiles: the chain of the kinds
    it spells, and at least one of them. *)
Lemma compile_spelled regexp a :
  quantifier_free regexp →
  NUL ∉ list_ascii_of_string regexp →
  REcompiler.compile regexp = Ok a →
  a = chain_arrays (spelled regexp) ∧ spelled regexp ≠ [].
Proof.
  intros Hq Hnul (entry & cs & p & sn & f & Hexpr & Hend & ->)%compile_Ok.
  assert (plain_from false (unread (initial regexp)) = true) as Hplain.
  { unfold unread, initial. simpl. rewrite list_ascii_of_string_app.
    by apply plain_from_terminated. }
  pose proof Hexpr as Hchain.
  apply expression_chaining in Hchain as (_ & _ & _ & -> & Hlt & _);
    [|by exists []|done].
  apply (expression_spelling _ _ _ _ []) in Hexpr
    as (ks & Hf & Hsn & Hcs & _ & Hk); [|done..].
  unfold unread, initial in *. simpl in *. subst cs f sn.
  rewrite list_ascii_of_string_app in Hend, Hk. simpl in Hend, Hk.
  assert (p = length (list_ascii_of_string regexp)) as ->.
  { pose proof (lookup_lt_Some _ _ _ Hend) as Hp.
    rewrite length_app in Hp. simpl in Hp.
    destruct (decide (p < length (list_ascii_of_string regexp))%nat) as [H|];
      [|lia].
    rewrite lookup_app_l in Hend by done.
    by apply list_elem_of_lookup_2 in Hend. }
  rewrite drop_0, drop_app_length, kinds_from_terminated in Hk.
  simpl in Hk. apply app_inj_tail in Hk as [Hk _].
  unfold spelled. rewrite Hk. split.
  - unfold FSM.update_state. simpl. apply to_arrays_chain.
  - intros ->. simpl in Hlt. lia.
Qed.

(** X19: a pattern without quantifier and without alternation (ordinary
    characters, dots, escaped characters and grouping parentheses) that
    compiles is searched for as the string it spells: the search of a line
    returns [True] exactly when, at some offset, the line continues with
    one character per consuming position of the pattern, an escaped
    character and an ordinary character matching themselves and a dot
    matching any character.  Parentheses change nothing. *)
Theorem plain_pattern_search regexp a line :
  quantifier_free regexp →
  NUL ∉ list_ascii_of_string regexp →
  REcompiler.compile regexp = Ok a →
  returns (λ fuel, grep fuel regexp line)
    (existsb (matches_at (spelled regexp) line)
       (seq 0 (String.length line))).
Proof.
  intros Hq Hnul Hc.
  destruct (compile_spelled _ _ Hq Hnul Hc) as [-> Hne].
  exists (2 * length (spelled regexp) + 1)%nat.
  unfold grep. rewrite Hc. unfold chain_arrays at 1. cbn [obind].
  rewrite (compile_new _ _ _ _ Hc). cbn [obind].
  unfold REsearcher.search_pattern_in_line.
  change (REsearcher.mk _ _ _) with (chain_searcher (spelled regexp)).
  apply search_from_chain; [apply kinds_from_not_BR|done|done].
Qed.

Lemma plain_pattern_search_witness :
  returns (λ fuel, grep fuel "(a\*).c" "xa*bc")
    (existsb (matches_at (spelled "(a\*).c") "xa*bc")
       (seq 0 (String.length "xa*bc")))
  ∧ existsb (matches_at (spelled "(a\*).c") "xa*bc")
      (seq 0 (String.length "xa*bc")) = true.
Proof.
  split; [|reflexivity].
  apply (plain_pattern_search "(a\*).c"
           (["BR"; "a"; "*"; "WC"; "c"; "BR"], [1; 2; 3; 4; 5; -1],
            [1; 2; 3; 4; 5; -1])).
  - reflexivity.
  - vm_compute. intros H. repeat (inversion H as [|? ? ? H']; clear H;
                                  rename H' into H).
  - reflexivity.
Defined.


(** ** Alternation of two words *)

Lemma set_state_fsm_fresh state_id k n1 n2 states :
  FSM.get_state states state_id = None →
  state_id ≤ Z.of_nat (length states) + 1 →
  set_state_fsm state_id k n1 n2 states
  = states ++ [FSM.mkState state_id k n1 n2].
Proof.
  intros Hget Hle. unfold set_state_fsm. rewrite Hget.
  unfold range. rewrite seqZ_nil by lia. by rewrite app_nil_r.
Qed.

Lemma get_state_chain start ks q :
  FSM.get_state (chain_states start ks) q
  = if (start <=? q) && (q <? start + Z.of_nat (length ks))
    then (λ k, FSM.mkState q k (q + 1) (q + 1)) <$> ks !! Z.to_nat (q - start)
    else None.
Proof.
  revert start. induction ks as [|k ks IH]; intros start.
  { simpl. rewrite Z.add_0_r.
    by destruct (Z.leb_spec start q), (Z.ltb_spec q start); try lia. }
  cbn [chain_states FSM.get_state FSM.state_num length].
  destruct (Z.eqb_spec start q) as [->|Hne].
  - destruct (Z.leb_spec q q); [|lia].
    destruct (Z.ltb_spec q (q + Z.of_nat (S (length ks)))); [|lia].
    by rewrite Z.sub_diag.
  - rewrite IH.
    destruct (Z.leb_spec (start + 1) q), (Z.leb_spec start q); try lia;
      simpl; [|done].
    replace (start + 1 + Z.of_nat (length ks))
      with (start + Z.of_nat (S (length ks))) by lia.
    destruct (Z.ltb_spec q (start + Z.of_nat (S (length ks)))); [|done].
    replace (Z.to_nat (q - start)) with (S (Z.to_nat (q - (start + 1))))
      by lia.
    done.
Qed.

Lemma set_state_fsm_append base start ks k :
  Forall (λ s, FSM.state_num s < start) base →
  start ≤ Z.of_nat (length base) + 1 →
  set_state_fsm (start + Z.of_nat (length ks)) k
    (start + Z.of_nat (length ks) + 1) (start + Z.of_nat (length ks) + 1)
    (base ++ chain_states start ks)
  = base ++ chain_states start (ks ++ [k]).
Proof.
  intros Hbase Hstart. rewrite set_state_fsm_fresh.
  - by rewrite chain_states_snoc, app_assoc.
  - rewrite get_state_app, get_state_None, get_state_chain.
    + by destruct (Z.ltb_spec (start + Z.of_nat (length ks))
                     (start + Z.of_nat (length ks)));
        [lia|rewrite andb_false_r].
    + eapply Forall_impl; [exact Hbase|]. simpl. lia.
  - rewrite length_app, length_chain_states. lia.
Qed.

(** [factor] on an ordinary character that no quantifier follows appends
    one state to the chain under construction. *)
Lemma factor_word e pre c tail base start ks :
  REcompiler.is_vocab c = true →
  (∀ x, tail !! 0%nat = Some x →
        Ascii.eqb x "?" = false ∧ Ascii.eqb x "+" = false
        ∧ Ascii.eqb x "*" = false) →
  Forall (λ s, FSM.state_num s < start) base →
  start ≤ Z.of_nat (length base) + 1 →
  REcompiler.factor e
    (REcompiler.mk (pre ++ c :: tail) (length pre)
       (start + Z.of_nat (length ks)) (base ++ chain_states start ks))
  = Ok (start + Z.of_nat (length ks),
        REcompiler.mk (pre ++ c :: tail) (S (length pre))
          (start + Z.of_nat (length ks) + 1)
          (base ++ chain_states start (ks ++ [kind_of c]))).
Proof.
  intros Hc Htail Hbase Hstart. rewrite factor_eq, primary_eq.
  rewrite list_lookup_middle by done.
  destruct (is_vocab_facts c Hc) as (_ & -> & _). rewrite Hc.
  fold (kind_of c). rewrite set_state_fsm_append by done.
  replace (pre ++ c :: tail) with ((pre ++ [c]) ++ tail)
    by (by rewrite <- app_assoc).
  replace (S (length pre)) with (length (pre ++ [c]) + 0)%nat
    by (rewrite length_app; simpl; lia).
  rewrite lookup_app_r, Nat.add_comm, Nat.add_sub by lia.
  destruct (tail !! 0%nat) as [x|] eqn:Hx; [|done].
  by destruct (Htail x eq_refl) as (-> & -> & ->).
Qed.

Lemma term_loop_word e r rest base start cs :
  stops r →
  Forall (λ s, FSM.state_num s < start) base →
  start ≤ Z.of_nat (length base) + 1 →
  ∀ pre ks fuel,
    Forall (λ c, REcompiler.is_vocab c = true) cs →
    (length cs < fuel)%nat →
    REcompiler.term_loop (REcompiler.factor e) fuel
      (REcompiler.mk (pre ++ cs ++ r :: rest) (length pre)
         (start + Z.of_nat (length ks)) (base ++ chain_states start ks))
    = Ok (tt,
          REcompiler.mk (pre ++ cs ++ r :: rest) (length pre + length cs)
            (start + Z.of_nat (length (ks ++ (kind_of <$> cs))))
            (base ++ chain_states start (ks ++ (kind_of <$> cs)))).
Proof.
  intros (Hr & Hq1 & Hq2 & Hq3) Hbase Hstart.
  induction cs as [|c cs IH]; intros pre ks fuel Hcs Hfuel;
    (destruct fuel as [|fuel]; [simpl in Hfuel; lia|]);
    rewrite term_loop_eq; unfold REcompiler.peek;
    cbn [REcompiler.chars REcompiler.pos].
  - simpl. rewrite list_lookup_middle by done. rewrite Hr.
    by rewrite Nat.add_0_r, app_nil_r.
  - apply Forall_cons in Hcs as [Hc Hcs].
    rewrite <- app_comm_cons, list_lookup_middle by done.
    destruct (is_vocab_facts c Hc) as (-> & _).
    rewrite (factor_word e pre c (cs ++ r :: rest) base start ks);
      [|done| |done..].
    2:{ intros x Hx. destruct cs as [|c' cs']; simpl in Hx; simplify_eq.
        - done.
        - apply Forall_cons in Hcs as [Hc' _].
          apply is_vocab_facts in Hc'. naive_solver. }
    replace (pre ++ c :: cs ++ r :: rest)
      with ((pre ++ [c]) ++ cs ++ r :: rest) by (by rewrite <- app_assoc).
    replace (S (length pre)) with (length (pre ++ [c]))
      by (rewrite length_app; simpl; lia).
    replace (start + Z.of_nat (length ks) + 1)
      with (start + Z.of_nat (length (ks ++ [kind_of c])))
      by (rewrite length_app; simpl; lia).
    rewrite IH by (done || simpl in Hfuel; lia).
    rewrite fmap_cons, !length_app, <- !app_assoc. simpl.
    do 3 f_equal; lia.
Qed.

(** [term] on a word: one state per character, numbered from the
    counter on. *)
Lemma term_word e fuel pre c cs r rest base start :
  REcompiler.is_vocab c = true →
  Forall (λ c, REcompiler.is_vocab c = true) cs →
  stops r →
  Forall (λ s, FSM.state_num s < start) base →
  start ≤ Z.of_nat (length base) + 1 →
  (length cs < fuel)%nat →
  REcompiler.term e fuel
    (REcompiler.mk (pre ++ c :: cs ++ r :: rest) (length pre) start base)
  = Ok (start,
        REcompiler.mk (pre ++ c :: cs ++ r :: rest)
          (length pre + S (length cs))
          (start + Z.of_nat (S (length cs)))
          (base ++ chain_states start (kind_of <$> c :: cs))).
Proof.
  intros Hc Hcs Hr Hbase Hstart Hfuel. rewrite term_eq.
  pose proof (factor_word e pre c (cs ++ r :: rest) base start []) as Hf.
  simpl in Hf. rewrite Z.add_0_r, app_nil_r in Hf. rewrite Hf; clear Hf;
    [|done| |done..].
  2:{ intros x Hx. destruct cs as [|c' cs']; simpl in Hx; simplify_eq.
      - destruct Hr as (_ & ? & ? & ?). done.
      - apply Forall_cons in Hcs as [Hc' _].
        apply is_vocab_facts in Hc'. naive_solver. }
  pose proof (term_loop_word e r rest base start cs Hr Hbase Hstart
                (pre ++ [c]) [kind_of c] fuel Hcs Hfuel) as Hl.
  rewrite <- app_assoc, length_app in Hl. simpl in Hl.
  replace (length pre + 1)%nat with (S (length pre)) in Hl by lia.
  change (Z.of_nat 1) with 1 in Hl.
  rewrite Hl. rewrite length_fmap. do 3 f_equal. lia.
Qed.


Lemma stops_bar : stops "|".
Proof. by repeat split. Qed.

Lemma stops_NUL : stops NUL.
Proof. by repeat split. Qed.

(** [expression] on two words with a bar between them. *)
Lemma expression_words fuel c cs d ds :
  REcompiler.is_vocab c = true →
  Forall (λ c, REcompiler.is_vocab c = true) cs →
  REcompiler.is_vocab d = true →
  Forall (λ c, REcompiler.is_vocab c = true) ds →
  (length cs < fuel)%nat → (length ds < fuel)%nat →
  let chars := c :: cs ++ "|"%char :: d :: ds ++ [NUL] in
  let sn := 1 + Z.of_nat (S (length cs)) in
  let sn2 := sn + 1 + Z.of_nat (S (length ds)) in
  REcompiler.expression (S (S fuel))
    (REcompiler.mk chars 0 1 [FSM.mkState 0 "BR" 0 0])
  = Ok (sn,
        REcompiler.mk chars (S (length cs) + 1 + S (length ds)) sn2
          (FSM.mutate (REcompiler.converge sn2) (sn - 1)
             (set_state_fsm sn "BR" 1 (sn + 1)
                (FSM.mkState 0 "BR" sn sn
                 :: chain_states 1 (kind_of <$> c :: cs)
                 ++ chain_states (sn + 1) (kind_of <$> d :: ds))))).
Proof.
  intros Hc Hcs Hd Hds Hfuel1 Hfuel2 chars sn sn2.
  rewrite expression_eq.
  pose proof (term_word (REcompiler.expression (S fuel)) (S fuel) []
                c cs "|" (d :: ds ++ [NUL]) [FSM.mkState 0 "BR" 0 0] 1
                Hc Hcs stops_bar) as Hu.
  cbn [app length Nat.add] in Hu. unfold chars at 1.
  rewrite Hu; clear Hu; [|by repeat constructor|simpl; lia|lia].
  fold chars. fold sn.
  assert (chars !! S (length cs) = Some "|"%char) as ->.
  { apply (list_lookup_middle (c :: cs)). done. }
  cbn [Ascii.eqb Bool.eqb andb]. cbn [REcompiler.state_num].
  rewrite expression_eq.
  change (FSM.mutate (REcompiler.converge sn) (1 - 1)
            (FSM.mkState 0 "BR" 0 0
             :: chain_states 1 (kind_of <$> c :: cs)))
    with (FSM.mkState 0 "BR" sn sn
          :: chain_states 1 (kind_of <$> c :: cs)).
  pose proof (term_word (REcompiler.expression fuel) fuel
                (c :: cs ++ ["|"%char]) d ds NUL []
                (FSM.mkState 0 "BR" sn sn
                 :: chain_states 1 (kind_of <$> c :: cs))
                (sn + 1) Hd Hds stops_NUL) as Hv.
  assert ((c :: cs ++ ["|"%char]) ++ d :: ds ++ [NUL] = chars) as Hchars.
  { unfold chars. simpl. by rewrite <- app_assoc. }
  rewrite Hchars in Hv.
  assert (length (c :: cs ++ ["|"%char]) = S (S (length cs))) as Hlen.
  { simpl. rewrite length_app. simpl. lia. }
  rewrite Hlen in Hv. rewrite Hv; clear Hv; [| | |done].
  2:{ constructor; [simpl; lia|].
      eapply Forall_impl; [apply chain_states_nums|].
      simpl. rewrite length_fmap. unfold sn. lia. }
  2:{ simpl. rewrite length_chain_states, length_fmap. unfold sn. lia. }
  assert (chars !! (S (S (length cs)) + S (length ds))%nat = Some NUL)
    as ->.
  { rewrite <- Hchars, <- Hlen.
    rewrite lookup_app_r, Nat.add_comm, Nat.add_sub by lia.
    apply (list_lookup_middle (d :: ds)). done. }
  cbn [Ascii.eqb Bool.eqb andb NUL Ascii.zero]. fold sn2.
  do 3 f_equal. lia.
Qed.


(** What a successful [compile] sorts into arrays: the parser's states
    with state 0 patched and the accepting state added, numbered
    [0 .. state_num] without gap. *)
Lemma compile_states regexp a :
  REcompiler.compile regexp = Ok a →
  ∃ entry cs p sn f,
    REcompiler.expression (REcompiler.fuel_of (initial regexp))
      (initial regexp) = Ok (entry, REcompiler.mk cs p sn f)
    ∧ a = FSM.to_arrays
            (FSM.update_state f 0 (Some entry) (Some entry)
             ++ [FSM.mkState sn "BR" (-1) (-1)])
    ∧ FSM.state_num
        <$> FSM.sorted (FSM.update_state f 0 (Some entry) (Some entry)
                        ++ [FSM.mkState sn "BR" (-1) (-1)])
      = seqZ 0 (sn + 1).
Proof.
  intros (entry & cs & p & sn & f & Hexpr & Hend & ->)%compile_Ok.
  exists entry, cs, p, sn, f. split; [done|]. split; [done|].
  pose proof (expression_sound _ _ _ _ (compiler_inv_initial regexp) Hexpr)
    as [[Hsn _] _].
  pose proof (expression_dense _ _ [] _ _ (compiler_inv_initial regexp)
                (dense_inv_initial regexp) (or_introl (Nat.le_0_l 1)) Hexpr)
    as (_ & _ & Hnum).
  simpl in Hsn. unfold numbering in Hnum. simpl in Hnum.
  rewrite app_nil_r in Hnum.
  apply sorted_nums. unfold FSM.update_state.
  rewrite fmap_app, mutate_nums, Hnum by (intros s; by destruct s).
  replace (sn + 1) with (Z.of_nat (S (Z.to_nat sn))) by lia.
  by rewrite seqZ_S, Z2Nat.id, Z.add_0_l by lia.
Qed.

Lemma get_state_elem states q s :
  FSM.get_state states q = Some s → s ∈ states.
Proof.
  induction states as [|x l IH]; simpl; [done|].
  destruct (FSM.state_num x =? q); [intros [= ->]; by left|].
  intros ?%IH. by right.
Qed.

(** The searcher reads at index [q] what [get_state] finds under number
    [q], when the numbers are [0 .. n - 1]. *)
Lemma state_at_get_state states n q :
  FSM.state_num <$> FSM.sorted states = seqZ 0 n →
  state_at (REsearcher.mk (FSM.to_arrays states).1.1
              (FSM.to_arrays states).1.2 (FSM.to_arrays states).2) q
  = (λ s, (FSM.state_type s, FSM.next1 s, FSM.next2 s))
      <$> FSM.get_state states q.
Proof.
  intros Hnums. unfold state_at. simpl.
  assert (FSM.state_num <$> states ≡ₚ seqZ 0 n) as Hperm.
  { rewrite <- Hnums. by rewrite sorted_perm. }
  destruct (Z.ltb_spec q 0) as [Hneg|Hq].
  { rewrite get_state_None_elem; [done|].
    rewrite Hperm, elem_of_seqZ. lia. }
  rewrite !list_lookup_fmap.
  destruct (FSM.sorted states !! Z.to_nat q) as [s|] eqn:Hs; simpl.
  - pose proof (sorted_lookup_num _ _ _ _ Hnums Hs) as Hnum.
    rewrite Z2Nat.id in Hnum by done.
    assert (s ∈ states) as Hin.
    { rewrite <- sorted_perm. by eapply list_elem_of_lookup_2. }
    destruct (get_state_Some_elem states q) as [s' Hs'].
    { rewrite <- Hnum. by apply list_elem_of_fmap_2. }
    rewrite Hs'. simpl.
    assert (s = s') as ->; [|done].
    apply (state_num_inj states).
    + rewrite Hperm. apply NoDup_seqZ.
    + done.
    + by eapply get_state_elem.
    + rewrite Hnum. symmetry. by eapply get_state_num.
  - apply lookup_ge_None in Hs.
    assert (length (FSM.sorted states) = Z.to_nat n) as Hlen.
    { rewrite <- (length_fmap FSM.state_num), Hnums. apply length_seqZ. }
    rewrite get_state_None_elem; [done|].
    rewrite Hperm, elem_of_seqZ. lia.
Qed.


(** A run of consuming states, each passing to the next and the last to
    [exit], accepts exactly what its kinds match. *)
Lemma word_accepts self line ks :
  ∀ q0 exit,
    Forall (λ k, k ≠ "BR") ks → ks ≠ [] →
    (∀ (j : nat) k, ks !! j = Some k →
       ∃ b, state_at self (q0 + Z.of_nat j)
            = Some (k, (if decide (S j = length ks) then exit
                        else q0 + Z.of_nat j + 1), b)) →
    (∀ i, accepts_from self line true exit i) →
    ∀ c i, accepts_from self line c q0 i ↔ matches_at ks line i = true.
Proof.
  induction ks as [|k ks IH]; [done|].
  intros q0 exit [Hk Hks]%Forall_cons _ Hst Hexit c i.
  destruct (Hst 0%nat k eq_refl) as [b Hs0]. rewrite Z.add_0_r in Hs0.
  rewrite (accepts_char_state self line _ _ _ _ _ _ Hs0 Hk).
  cbn [matches_at]. destruct (String.get i line) as [x|];
    [|split; [by intros (x & ? & _)|done]].
  destruct ks as [|k' ks'].
  - simpl in Hs0. split.
    + intros (x' & [= <-] & -> & _). done.
    + intros [Hm _]%andb_true_iff. exists x. split; [done|].
      split; [done|]. unfold decide, decide_rel in *. apply Hexit.
  - destruct (decide (1%nat = length (k :: k' :: ks'))) as [Hbad|_];
      [simpl in Hbad; lia|].
    specialize (IH (q0 + 1) exit Hks ltac:(done)).
    assert (∀ (j : nat) k0,
              (k' :: ks') !! j = Some k0 →
              ∃ b, state_at self (q0 + 1 + Z.of_nat j)
                   = Some (k0, (if decide (S j = length (k' :: ks'))
                                then exit else q0 + 1 + Z.of_nat j + 1), b))
      as Hst'.
    { intros j k0 Hj. destruct (Hst (S j) k0 Hj) as [b' Hs'].
      exists b'.
      replace (q0 + 1 + Z.of_nat j) with (q0 + Z.of_nat (S j)) by lia.
      rewrite Hs'. do 3 f_equal.
      destruct (decide (S j = length (k' :: ks'))),
               (decide (S (S j) = length (k :: k' :: ks')));
        simpl in *; lia. }
    rewrite andb_true_iff, <- (IH Hst' Hexit true (S i)). split.
    + by intros (x' & [= <-] & Hm & Hacc).
    + intros [Hm Hacc]. by exists x.
Qed.


Section Words.
Variables (c : ascii) (cs : list ascii) (d : ascii) (ds : list ascii).

Local Abbreviation ku := (kind_of <$> c :: cs).
Local Abbreviation kv := (kind_of <$> d :: ds).
Local Abbreviation sn := (1 + Z.of_nat (S (length cs))).
Local Abbreviation sn2 := (sn + 1 + Z.of_nat (S (length ds))).
Local Abbreviation branch := (FSM.mkState sn "BR" 1 (sn + 1)).
Local Abbreviation L2 :=
  (FSM.mkState 0 "BR" sn sn
   :: chain_states 1 ku ++ chain_states (sn + 1) kv).
Local Abbreviation L :=
  (FSM.update_state
     (FSM.mutate (REcompiler.converge sn2) (sn - 1)
        (set_state_fsm sn "BR" 1 (sn + 1) L2))
     0 (Some sn) (Some sn)
   ++ [FSM.mkState sn2 "BR" (-1) (-1)]).

Ltac zcases :=
  repeat match goal with
         | |- context [Z.eqb ?a ?b] => destruct (Z.eqb_spec a b)
         | |- context [Z.leb ?a ?b] => destruct (Z.leb_spec a b)
         | |- context [Z.ltb ?a ?b] => destruct (Z.ltb_spec a b)
         end;
  try lia.

Lemma words_L2 q :
  FSM.get_state L2 q
  = if q =? 0 then Some (FSM.mkState 0 "BR" sn sn)
    else match FSM.get_state (chain_states 1 ku) q with
         | Some s => Some s
         | None => FSM.get_state (chain_states (sn + 1) kv) q
         end.
Proof.
  cbn [FSM.get_state FSM.state_num]. rewrite (Z.eqb_sym 0 q).
  destruct (q =? 0); [done|]. apply get_state_app.
Qed.

Lemma words_get_state q :
  FSM.get_state L q
  = match
      (λ s, if q =? 0
            then FSM.mkState (FSM.state_num s) (FSM.state_type s) sn sn
            else s)
        <$> ((λ s, if q =? sn - 1 then REcompiler.converge sn2 s else s)
               <$> FSM.get_state (L2 ++ [branch]) q)
    with
    | Some s => Some s
    | None =>
        if q =? sn2 then Some (FSM.mkState sn2 "BR" (-1) (-1)) else None
    end.
Proof.
  rewrite get_state_app. unfold FSM.update_state.
  rewrite get_state_mutate by done.
  rewrite get_state_mutate
    by (intros s; unfold REcompiler.converge; by destruct (_ =? _)).
  rewrite set_state_fsm_fresh.
  - cbn [FSM.get_state FSM.state_num]. rewrite (Z.eqb_sym sn2 q).
    by destruct (FSM.get_state (L2 ++ [branch]) q).
  - rewrite words_L2, !get_state_chain, !length_fmap. simpl length.
    zcases; done.
  - simpl. rewrite length_app, !length_chain_states, !length_fmap.
    simpl. lia.
Qed.

Lemma words_entry : FSM.get_state L 0 = Some (FSM.mkState 0 "BR" sn sn).
Proof.
  rewrite words_get_state, get_state_app, words_L2.
  zcases; simpl; zcases; done.
Qed.

Lemma words_branch : FSM.get_state L sn = Some branch.
Proof.
  rewrite words_get_state, get_state_app, words_L2, !get_state_chain,
    !length_fmap.
  cbn [length FSM.get_state FSM.state_num fmap option_fmap option_map].
  zcases; simpl; zcases; done.
Qed.

Lemma words_accepting :
  FSM.get_state L sn2 = Some (FSM.mkState sn2 "BR" (-1) (-1)).
Proof.
  rewrite words_get_state, get_state_app, words_L2, !get_state_chain,
    !length_fmap.
  cbn [length FSM.get_state FSM.state_num fmap option_fmap option_map].
  zcases; simpl; zcases; done.
Qed.

Lemma words_first (j : nat) k :
  ku !! j = Some k →
  FSM.get_state L (1 + Z.of_nat j)
  = Some (FSM.mkState (1 + Z.of_nat j) k
            (if decide (S j = length ku) then sn2 else 1 + Z.of_nat j + 1)
            (if decide (S j = length ku) then sn2 else 1 + Z.of_nat j + 1)).
Proof.
  intros Hk. pose proof (lookup_lt_Some _ _ _ Hk) as Hj.
  rewrite length_fmap in Hj. simpl in Hj.
  rewrite words_get_state, get_state_app, words_L2, !get_state_chain,
    !length_fmap.
  replace (Z.to_nat (1 + Z.of_nat j - 1)) with j by lia.
  rewrite Hk.
  cbn [length FSM.get_state FSM.state_num fmap option_fmap option_map].
  unfold REcompiler.converge.
  destruct (decide (S j = S (length cs))); zcases; simpl; zcases; done.
Qed.

Lemma words_second (j : nat) k :
  kv !! j = Some k →
  FSM.get_state L (sn + 1 + Z.of_nat j)
  = Some (FSM.mkState (sn + 1 + Z.of_nat j) k
            (sn + 1 + Z.of_nat j + 1) (sn + 1 + Z.of_nat j + 1)).
Proof.
  intros Hk. pose proof (lookup_lt_Some _ _ _ Hk) as Hj.
  rewrite length_fmap in Hj. simpl in Hj.
  rewrite words_get_state, get_state_app, words_L2, !get_state_chain,
    !length_fmap.
  replace (Z.to_nat (sn + 1 + Z.of_nat j - (sn + 1))) with j by lia.
  rewrite Hk.
  cbn [length FSM.get_state FSM.state_num fmap option_fmap option_map].
  zcases; simpl; zcases; done.
Qed.
End Words.


Lemma bool_eq_true_iff (b1 b2 : bool) : (b1 = true ↔ b2 = true) → b1 = b2.
Proof.
  destruct b1, b2; intros [H1 H2]; auto; symmetry; auto.
Qed.

(** X20: two words of ordinary characters and dots with a bar between
    them compile, and the search of a line returns [True] exactly when one
    of the two words occurs in the line (a dot standing for any
    character). *)
Theorem alternation_of_words u v line :
  u ≠ "" → v ≠ "" →
  Forall (λ c, REcompiler.is_vocab c = true) (list_ascii_of_string u) →
  Forall (λ c, REcompiler.is_vocab c = true) (list_ascii_of_string v) →
  returns (λ fuel, grep fuel (u ++ "|" ++ v) line)
    (occurs u line || occurs v line).
Proof.
  intros Hu Hv Hcu Hcv. unfold occurs.
  destruct (list_ascii_of_string u) as [|c cs] eqn:Hlu;
    [by apply list_ascii_of_string_nil in Hlu|].
  destruct (list_ascii_of_string v) as [|d ds] eqn:Hlv;
    [by apply list_ascii_of_string_nil in Hlv|].
  apply Forall_cons in Hcu as [Hc Hcs]. apply Forall_cons in Hcv as [Hd Hds].
  set (regexp := (u ++ "|" ++ v)%string).
  assert (list_ascii_of_string (regexp ++ chr NUL)
          = c :: cs ++ "|"%char :: d :: ds ++ [NUL]) as Hchars.
  { unfold regexp. rewrite !list_ascii_of_string_app, Hlu, Hlv. simpl.
    by rewrite <- app_assoc. }
  assert (∃ fuel, REcompiler.fuel_of (initial regexp) = S (S fuel)
                  ∧ (length cs < fuel)%nat ∧ (length ds < fuel)%nat)
    as (fuel0 & Hfuel & Hf1 & Hf2).
  { unfold REcompiler.fuel_of, initial. cbn [REcompiler.chars].
    rewrite Hchars. simpl. eexists. split; [done|].
    rewrite !length_app. simpl. rewrite length_app. simpl. lia. }
  pose proof (expression_words fuel0 c cs d ds Hc Hcs Hd Hds Hf1 Hf2)
    as Hexpr.
  cbv zeta in Hexpr.
  set (sn := 1 + Z.of_nat (S (length cs))) in *.
  set (sn2 := sn + 1 + Z.of_nat (S (length ds))) in *.
  set (ku := kind_of <$> c :: cs) in *.
  set (kv := kind_of <$> d :: ds) in *.
  set (Lf := FSM.mutate (REcompiler.converge sn2) (sn - 1) _) in Hexpr.
  set (L := FSM.update_state Lf 0 (Some sn) (Some sn)
            ++ [FSM.mkState sn2 "BR" (-1) (-1)]).
  assert (REcompiler.compile regexp = Ok (FSM.to_arrays L)) as Hcomp.
  { unfold REcompiler.compile. rewrite init_Ok. cbn [obind].
    rewrite Hfuel. unfold initial. rewrite Hchars.
    unfold REcompiler.compile_body, REcompiler.peek. unfold_M.
    rewrite Hexpr. unfold_M.
    assert ((c :: cs ++ "|"%char :: d :: ds ++ [NUL])
              !! (S (length cs) + 1 + S (length ds))%nat = Some NUL) as ->.
    { replace (c :: cs ++ "|"%char :: d :: ds ++ [NUL])
        with ((c :: cs ++ "|"%char :: d :: ds) ++ [NUL]).
      - apply list_lookup_middle. simpl. rewrite length_app. simpl. lia.
      - simpl. by rewrite <- app_assoc. }
    unfold_M. cbn [Ascii.eqb NUL Ascii.zero negb Bool.eqb andb].
    unfold_M. by unfold FSM.add_state, FSM.StateType. }
  destruct (compile_states _ _ Hcomp)
    as (entry & cs' & p & sn' & f & Hexpr' & _ & Hnums).
  rewrite Hfuel in Hexpr'. unfold initial in Hexpr'.
  rewrite Hchars, Hexpr in Hexpr'.
  injection Hexpr' as <- _ _ <- <-. fold L in Hnums.
  set (self := REsearcher.mk (FSM.to_arrays L).1.1 (FSM.to_arrays L).1.2
                 (FSM.to_arrays L).2).
  assert (well_formed self) as Hwf.
  { by apply (compile_well_formed regexp). }
  assert (∀ q, state_at self q
               = (λ s, (FSM.state_type s, FSM.next1 s, FSM.next2 s))
                   <$> FSM.get_state L q) as Hat.
  { intros q. by apply (state_at_get_state L (sn2 + 1)). }
  assert (∀ i, accepts_from self line true sn2 i) as Hexit.
  { intros i. apply accepts_end. rewrite Hat.
    unfold L, Lf, sn2, sn, ku, kv. by rewrite words_accepting. }
  assert (∀ p, accepts_from self line false 0 p
               ↔ matches_at ku line p = true ∨ matches_at kv line p = true)
    as Hpath.
  { intros p'.
    rewrite (accepts_branch_state self line false 0 p' sn sn).
    2:{ rewrite Hat. unfold L, Lf, sn2, sn, ku, kv.
        by rewrite words_entry. }
    2:{ left. unfold sn. lia. }
    rewrite (accepts_branch_state self line false sn p' 1 (sn + 1)).
    2:{ rewrite Hat. unfold L, Lf, sn2, sn, ku, kv.
        by rewrite words_branch. }
    2:{ left. lia. }
    rewrite (word_accepts self line ku 1 sn2); [|..|exact Hexit].
    2:{ apply Forall_fmap, Forall_true. intros x. apply kind_of_not_BR. }
    2:{ done. }
    2:{ intros j k Hk. eexists. rewrite Hat.
        unfold L, Lf, sn2, sn. unfold ku, kv in *.
        by rewrite (words_first c cs d ds j k Hk). }
    rewrite (word_accepts self line kv (sn + 1) sn2); [|..|exact Hexit].
    2:{ apply Forall_fmap, Forall_true. intros x. apply kind_of_not_BR. }
    2:{ done. }
    2:{ intros j k Hk. eexists. rewrite Hat.
        unfold L, Lf, sn2, sn. unfold ku, kv in *.
        rewrite (words_second c cs d ds j k Hk). simpl.
        do 3 f_equal. destruct (decide _) as [Hj|]; [|done].
        rewrite length_fmap in Hj. simpl in Hj. lia. }
    tauto. }
  destruct (search_paths self line Hwf) as (b & fuel & Hs & Hiff).
  exists fuel. unfold grep. fold regexp. rewrite Hcomp.
  unfold FSM.to_arrays at 1. cbn [obind].
  pose proof (compile_new regexp _ _ _ Hcomp) as Hnew.
  rewrite Hnew. cbn [obind]. change (REsearcher.mk _ _ _) with self.
  rewrite Hs. f_equal.
  apply bool_eq_true_iff. rewrite Hiff, orb_true_iff, !existsb_exists.
  split.
  - intros (p' & Hp & [Hm|Hm]%Hpath).
    + left. exists p'. split; [apply in_seq; lia|].
      by rewrite <- matches_at_kind_of.
    + right. exists p'. split; [apply in_seq; lia|].
      by rewrite <- matches_at_kind_of.
  - intros [(p' & Hp%in_seq & Hm)|(p' & Hp%in_seq & Hm)];
      exists p'; (split; [lia|]); apply Hpath;
      rewrite <- matches_at_kind_of in Hm; auto.
Qed.

Lemma alternation_of_words_witness :
  returns (λ fuel, grep fuel ("ca." ++ "|" ++ "dog") "hot dogs")
    (occurs "ca." "hot dogs" || occurs "dog" "hot dogs")
  ∧ occurs "ca." "hot dogs" || occurs "dog" "hot dogs" = true.
Proof.
  split; [|reflexivity].
  apply (alternation_of_words "ca." "dog" "hot dogs").
  - discriminate.
  - discriminate.
  - repeat constructor.
  - repeat constructor.
Defined.

(** ** Grouping with a quantifier, on every line *)

(** The automaton of ["(ab)+"] accepts from an offset exactly when the
    line continues there with ["ab"]: after the two characters the branch
    state of the quantifier passes to the accepting state. *)
Lemma group_plus_paths line p :
  accepts_from
    (REsearcher.mk ["BR"; "a"; "b"; "BR"; "BR"] [1; 2; 3; 1; -1]
       [1; 2; 3; 4; -1]) line false 0 p
  ↔ literal_at ["a"%char; "b"%char] line p = true.
Proof.
  set (self := REsearcher.mk _ _ _).
  rewrite (accepts_branch_state self line false 0 p 1 1);
    [|done|by left].
  rewrite <- (matches_at_kind_of ["a"%char; "b"%char]).
  assert (accepts_from self line false 1 p
          ↔ matches_at ["a"; "b"] line p = true) as ->; [|tauto].
  apply (word_accepts self line ["a"; "b"] 1 3).
  - by repeat constructor.
  - done.
  - intros [|[|j]] k Hk; simpl in Hk; simplify_eq; by eexists.
  - intros i. apply (accepts_branch self line true 3 i 1 4 4);
      [done|by left|by right|]. by apply accepts_end.
Qed.

(** C1, as the code has it: ["(ab)+"] matches exactly the lines in which
    ["ab"] occurs.  So it matches ["ababab"], and it also matches ["aba"],
    because the search tries every start offset and accepts as soon as
    ["ab"] was read; a line without ["ab"] does not match. *)
Theorem group_plus_search :
  returns (λ fuel, grep fuel "(ab)+" "ababab") true
  ∧ returns (λ fuel, grep fuel "(ab)+" "aba") true
  ∧ ∀ line, returns (λ fuel, grep fuel "(ab)+" line) (occurs "ab" line).
Proof.
  assert (∀ line, returns (λ fuel, grep fuel "(ab)+" line)
                    (occurs "ab" line)) as Hall.
  { intros line.
    assert (REcompiler.compile "(ab)+"
            = Ok (["BR"; "a"; "b"; "BR"; "BR"], [1; 2; 3; 1; -1],
                  [1; 2; 3; 4; -1])) as Hc by reflexivity.
    destruct (search_paths
                (REsearcher.mk ["BR"; "a"; "b"; "BR"; "BR"] [1; 2; 3; 1; -1]
                   [1; 2; 3; 4; -1]) line)
      as (b & fuel & Hs & Hiff); [by apply (compile_well_formed "(ab)+")|].
    exists fuel. unfold grep. rewrite Hc. cbn [obind].
    rewrite (compile_new _ _ _ _ Hc). cbn [obind]. rewrite Hs. f_equal.
    apply bool_eq_true_iff. rewrite Hiff. unfold occurs.
    rewrite existsb_exists. simpl list_ascii_of_string. split.
    - intros (p & Hp & Hacc%group_plus_paths). exists p.
      split; [apply in_seq; lia|done].
    - intros (p & Hp%in_seq & Hl). exists p.
      split; [lia|by apply group_plus_paths]. }
  split; [apply (Hall "ababab")|]. split; [apply (Hall "aba")|exact Hall].
Qed.
